(** * clickhouse-proxy: the token cache and the forwarding handler

    A shallow embedding of [src/index.ts].  The module-level variables
    [cachedToken] and [tokenExpiry], the commands handed to the shell, the
    response object of the connection being served and the requests opened
    towards the upstream live in one record [World]; the asynchronous
    functions of the source become computations of a state-and-exception
    monad over it.  What the outside decides (the outcome of a shell command,
    the reading of the clock, the parsed configuration file, what Node's
    HTTPS client refuses to send) is an input.

    The functions of the source are first taken as one call at a time, a
    command that was started always settling before the call goes on.  The
    event loop at the end takes the same code in the pieces the [await]
    cuts it into, so that requests may overlap and a command may never
    settle.  [Legacy] holds the earlier variant of the program kept in the
    repository, with its loader, its header rewriting and its tunnels. *)

From stdpp Require Import base strings gmap list fin_maps numbers pretty.
From Stdlib Require Import ZArith Lia Ascii String.

Local Open Scope string_scope.

(** ** The fragment of JavaScript the program relies on *)

Module JS.

(** A JavaScript string is held as the bytes of its UTF-8 encoding. *)

(** [String.prototype.toLowerCase] on the ASCII letters.  Header names are
    ASCII tokens, and a name with a character outside ASCII never
    lower-cases to one of the four names the handler strips. *)
Definition lower_ascii (c : ascii) : ascii :=
  let n := nat_of_ascii c in
  if ((65 <=? n) && (n <=? 90))%nat then ascii_of_nat (n + 32) else c.

Fixpoint toLowerCase (s : string) : string :=
  match s with
  | EmptyString => EmptyString
  | String c r => String (lower_ascii c) (toLowerCase r)
  end.

(** White space and line terminators, which [String.prototype.trim]
    removes.  Of one byte: TAB, LF, VT, FF, CR and SPACE. *)
Definition is_space (c : ascii) : bool :=
  let n := nat_of_ascii c in
  ((9 <=? n) && (n <=? 13) || (n =? 32))%nat.

(** Of two bytes: U+00A0, encoded C2 A0. *)
Definition is_space2 (a b : ascii) : bool :=
  ((nat_of_ascii a =? 194) && (nat_of_ascii b =? 160))%nat.

(** Of three bytes: U+1680 (E1 9A 80); U+2000 to U+200A, U+2028, U+2029 and
    U+202F (E2 80 80 to 8A, A8, A9, AF); U+205F (E2 81 9F); U+3000
    (E3 80 80); U+FEFF (EF BB BF). *)
Definition is_space3 (a b c : ascii) : bool :=
  let x := nat_of_ascii a in
  let y := nat_of_ascii b in
  let z := nat_of_ascii c in
  ((x =? 225) && (y =? 154) && (z =? 128) ||
   (x =? 226) && (y =? 128) &&
     ((128 <=? z) && (z <=? 138) || (z =? 168) || (z =? 169) || (z =? 175)) ||
   (x =? 226) && (y =? 129) && (z =? 159) ||
   (x =? 227) && (y =? 128) && (z =? 128) ||
   (x =? 239) && (y =? 187) && (z =? 191))%nat.

(** What is left of a string that starts with a white-space character once
    that character is taken off. *)
Definition strip_space (l : list ascii) : option (list ascii) :=
  match l with
  | a :: r =>
      if is_space a then Some r
      else
        match r with
        | b :: r2 =>
            if is_space2 a b then Some r2
            else
              match r2 with
              | c :: r3 => if is_space3 a b c then Some r3 else None
              | [] => None
              end
        | [] => None
        end
  | [] => None
  end.

(** The same for a string that ends with one, on the string read backwards. *)
Definition strip_space_rev (l : list ascii) : option (list ascii) :=
  match l with
  | c :: r =>
      if is_space c then Some r
      else
        match r with
        | b :: r2 =>
            if is_space2 b c then Some r2
            else
              match r2 with
              | a :: r3 => if is_space3 a b c then Some r3 else None
              | [] => None
              end
        | [] => None
        end
  | [] => None
  end.

(** [strip] again and again; a string of [n] bytes is done after [n] turns. *)
Fixpoint strip_all (strip : list ascii → option (list ascii)) (fuel : nat)
    (l : list ascii) : list ascii :=
  match fuel with
  | O => l
  | S fuel' =>
      match strip l with
      | Some r => strip_all strip fuel' r
      | None => l
      end
  end.

Definition trimStart_bytes (l : list ascii) : list ascii :=
  strip_all strip_space (List.length l) l.

Definition trimEnd_bytes (l : list ascii) : list ascii :=
  List.rev (strip_all strip_space_rev (List.length l) (List.rev l)).

Definition trim (s : string) : string :=
  string_of_list_ascii
    (trimEnd_bytes (trimStart_bytes (list_ascii_of_string s))).

(** A string in a condition: only the empty string is falsy. *)
Definition truthy (s : string) : bool := negb (String.eqb s "").

(** [string | null] in a condition. *)
Definition truthy_opt (o : option string) : bool :=
  match o with
  | Some s => truthy s
  | None => false
  end.

(** Numbers as the program meets them: integers (clock readings in
    milliseconds, durations, ports, status codes, all far below 2^53, where
    double arithmetic is exact) and NaN, which [n + undefined] produces. *)
Inductive number :=
| Num (z : Z)
| NaN.

Definition add (a b : number) : number :=
  match a, b with
  | Num x, Num y => Num (x + y)
  | _, _ => NaN
  end.

(** [a < b]: any comparison with NaN is false. *)
Definition lt (a b : number) : bool :=
  match a, b with
  | Num x, Num y => (x <? y)%Z
  | _, _ => false
  end.

(** [number | undefined] read as a number operand of [+]. *)
Definition of_optional (o : option Z) : number :=
  match o with
  | Some z => Num z
  | None => NaN
  end.

(** [n | 0]: the integer read as a signed 32-bit one. *)
Definition to_int32 (n : Z) : Z :=
  ((n + 2147483648) mod 4294967296 - 2147483648)%Z.

(** [`${x}`] for a [string | undefined]. *)
Definition template (o : option string) : string :=
  match o with
  | Some s => s
  | None => "undefined"
  end.

(** Thrown values. *)
Inductive Exn :=
| Error (message : string)
| TypeError (message : string)
| RangeError (message : string).

Definition message (e : Exn) : string :=
  match e with
  | Error m => m
  | TypeError m => m
  | RangeError m => m
  end.

End JS.

Import JS.

(** ** Configuration *)

(** The interface [ProxyConfig].  [loadConfig] returns the [proxy] section of
    the file as it is, behind a type assertion; the three keys it does not
    check ([targetScheme], [tokenCacheDurationMs], [cookieName]) may be
    absent at run time, which reads as [undefined]: they are [option]s. *)
Record ProxyConfig := {
  listenPort : Z;
  targetHost : string;
  targetPort : Z;
  targetScheme : option string;
  cloudflaredAppUrl : string;
  tokenCacheDurationMs : option Z;
  cookieName : option string;
  clickhouseUsername : string;
  clickhousePassword : string;
}.

#[local] Set Warnings "-register-all".

(** What [yaml.load] can return. *)
Inductive yaml :=
| YNull
| YBool (b : bool)
| YNum (n : Z)
| YStr (s : string)
| YSeq (items : list yaml)
| YMap (entries : gmap string yaml).

(** [v.k]: reading a property of [null] (or of the [undefined] an empty
    document parses to) throws; a scalar or a sequence has no such
    property. *)
Definition get_prop (v : yaml) (k : string) : Exn + option yaml :=
  match v with
  | YNull => inl (TypeError ("Cannot read properties of null (reading '" ++ k ++ "')"))
  | YMap m => inr (m !! k)
  | _ => inr None
  end.

(** [!v] for a value read from the document; [None] is [undefined]. *)
Definition falsy (v : option yaml) : bool :=
  match v with
  | None | Some YNull | Some (YBool false) => true
  | Some (YNum n) => (n =? 0)%Z
  | Some (YStr s) => negb (truthy s)
  | Some (YBool true) | Some (YSeq _) | Some (YMap _) => false
  end.

(** [k in v] for a truthy [v] and a field name [k] (never an array index or
    [length]): a mapping answers by its keys, a sequence has no such key, and
    a scalar on the right of [in] throws. *)
Definition has_key (k : string) (v : yaml) : Exn + bool :=
  match v with
  | YMap m => inr (bool_decide (is_Some (m !! k)))
  | YSeq _ => inr false
  | _ => inl (TypeError ("Cannot use 'in' operator to search for '" ++ k ++ "'"))
  end.

Definition required : list string :=
  [ "listenPort"; "targetHost"; "targetPort"; "cloudflaredAppUrl";
    "clickhouseUsername"; "clickhousePassword" ].

Definition missing_field (field : string) : Exn :=
  Error ("Required field '" ++ field ++ "' is missing from proxy configuration.").

(** The loop [for (const field of required)]. *)
Fixpoint check_required (fields : list string) (proxy : yaml) : Exn + unit :=
  match fields with
  | [] => inr ()
  | field :: rest =>
      match has_key field proxy with
      | inl e => inl e
      | inr false => inl (missing_field field)
      | inr true => check_required rest proxy
      end
  end.

(** [loadConfig].  Its argument is what [fs.readFileSync] followed by
    [yaml.load] produced: an exception or the parsed document.  The [catch]
    logs and throws the same error again. *)
Definition loadConfig (file : Exn + yaml) : Exn + yaml :=
  match file with
  | inl e => inl e
  | inr config =>
      match get_prop config "proxy" with
      | inl e => inl e
      | inr proxy =>
          match proxy with
          | Some p =>
              if falsy proxy then
                inl (Error "Proxy configuration is missing in the config file.")
              else
                match check_required required p with
                | inl e => inl e
                | inr _ => inr p
                end
          | None => inl (Error "Proxy configuration is missing in the config file.")
          end
      end
  end.

(** The type assertion [as { proxy: ProxyConfig }], read field by field: a
    key that is present holds a value of the type the interface declares. *)
Definition field_num (m : gmap string yaml) (k : string) : option (option Z) :=
  match m !! k with
  | None => Some None
  | Some (YNum n) => Some (Some n)
  | Some _ => None
  end.

Definition field_str (m : gmap string yaml) (k : string) : option (option string) :=
  match m !! k with
  | None => Some None
  | Some (YStr s) => Some (Some s)
  | Some _ => None
  end.

Definition as_ProxyConfig (p : yaml) : option ProxyConfig :=
  match p with
  | YMap m =>
      lp ← field_num m "listenPort" ≫= id;
      th ← field_str m "targetHost" ≫= id;
      tp ← field_num m "targetPort" ≫= id;
      ts ← field_str m "targetScheme";
      url ← field_str m "cloudflaredAppUrl" ≫= id;
      dur ← field_num m "tokenCacheDurationMs";
      cn ← field_str m "cookieName";
      user ← field_str m "clickhouseUsername" ≫= id;
      pw ← field_str m "clickhousePassword" ≫= id;
      Some {| listenPort := lp; targetHost := th; targetPort := tp;
              targetScheme := ts; cloudflaredAppUrl := url;
              tokenCacheDurationMs := dur; cookieName := cn;
              clickhouseUsername := user; clickhousePassword := pw |}
  | _ => None
  end.

(** ** HTTP objects *)

(** A header value: [string | string[]]. *)
Inductive hval :=
| HStr (s : string)
| HArr (l : list string).

(** A JavaScript object built key by key, where the order of the keys
    matters: its own properties in the order they were created. *)
Abbreviation object := (list (string * hval)).

(** [o[k]]. *)
Fixpoint obj_get (k : string) (o : object) : option hval :=
  match o with
  | [] => None
  | (k', v) :: r => if String.eqb k k' then Some v else obj_get k r
  end.

(** [o[k] = v]: a key that is present keeps its place. *)
Fixpoint obj_set (k : string) (v : hval) (o : object) : object :=
  match o with
  | [] => [(k, v)]
  | (k', v') :: r =>
      if String.eqb k k' then (k, v) :: r else (k', v') :: obj_set k v r
  end.

(** Array indices, the keys an object lists first: the decimal numerals,
    without a leading zero, of the integers from 0 to 2^32 - 2. *)
Definition is_digit (c : ascii) : bool :=
  let n := nat_of_ascii c in ((48 <=? n) && (n <=? 57))%nat.

Fixpoint digits_value (acc : N) (s : string) : option N :=
  match s with
  | EmptyString => Some acc
  | String c r =>
      if is_digit c then
        digits_value (acc * 10 + (N.of_nat (nat_of_ascii c) - 48))%N r
      else None
  end.

Definition array_index (s : string) : option N :=
  match s with
  | EmptyString => None
  | String c r =>
      if String.eqb s "0" then Some 0%N
      else if (nat_of_ascii c =? 48)%nat then None
      else
        match digits_value 0 s with
        | Some n => if (n <=? 4294967294)%N then Some n else None
        | None => None
        end
  end.

Definition is_array_index (s : string) : bool :=
  match array_index s with
  | Some _ => true
  | None => false
  end.

Definition index_of (s : string) : N := default 0%N (array_index s).

Fixpoint insert_index (k : string) (l : list string) : list string :=
  match l with
  | [] => [k]
  | k' :: r =>
      if (index_of k <=? index_of k')%N then k :: l
      else k' :: insert_index k r
  end.

Definition sort_indices (l : list string) : list string :=
  foldr insert_index [] l.

(** [Object.keys(o)] for such an object: the array indices in ascending
    order, then the other keys in the order they were created. *)
Definition own_keys (o : object) : list string :=
  (sort_indices (List.filter is_array_index o.*1) ++
   List.filter (λ k, negb (is_array_index k)) o.*1)%list.

(** What Node's [ClientRequest] makes of [options.headers]: [setHeader] for
    every own key in turn, each header kept under its lower-cased name
    together with the name as it was given; a later key of the same
    lower-cased name replaces an earlier one.  These are the headers
    sent. *)
Definition setHeader (name : string) (value : hval)
    (sent : gmap string (string * hval)) : gmap string (string * hval) :=
  <[toLowerCase name := (name, value)]> sent.

Definition sentHeaders (headers : object) : gmap string (string * hval) :=
  foldl
    (λ sent key,
       match obj_get key headers with
       | Some v => setHeader key v sent
       | None => sent
       end)
    ∅ (own_keys headers).

(** The inbound request [clientReq]: method, url (path and query string) and
    the header object, which Node keys by lower-cased name. *)
Record IncomingMessage := {
  reqMethod : string;
  reqUrl : string;
  reqHeaders : gmap string hval;
}.

(** The response [clientRes] to the client, as far as the program observes
    and drives it: whether the head went out, the status and headers of the
    head, the chunks written after it, and whether [end] was called. *)
Record ServerResponse := {
  headersSent : bool;
  statusCode : Z;
  resHeaders : gmap string hval;
  written : list string;
  finished : bool;
}.

Definition fresh_response : ServerResponse :=
  {| headersSent := false; statusCode := 200; resHeaders := ∅;
     written := []; finished := false |}.

(** The upstream response [proxyRes]: [statusCode] is [number | undefined]. *)
Record UpstreamResponse := {
  upStatusCode : option Z;
  upHeaders : gmap string hval;
}.

(** [https.request(options, ...)] and [http.request(options, ...)] differ in
    the transport; a request records which of the two opened it. *)
Inductive Transport :=
| Http
| Https.

Record ClientRequest := {
  transport : Transport;
  hostname : string;
  port : Z;
  path : string;
  method : string;
  headers : object;
  rejectUnauthorized : bool;
}.

(** What [execPromise(command)] settles to: resolved with the two output
    streams when the command exits with code zero, rejected otherwise. *)
Inductive ExecResult :=
| Resolved (stdout stderr : string)
| Rejected (error : Exn).

(** ** The world and the monad *)

Record World := {
  cachedToken : option string;
  tokenExpiry : number;
  execLog : list string;
  clientRes : ServerResponse;
  upstream : list ClientRequest;
}.

(** The module-level initialisers [cachedToken = null], [tokenExpiry = 0]. *)
Definition initial_world : World :=
  {| cachedToken := None; tokenExpiry := Num 0; execLog := [];
     clientRes := fresh_response; upstream := [] |}.

Definition M (A : Type) : Type := World → (Exn + A) * World.

Definition ret {A} (a : A) : M A := λ w, (inr a, w).

Definition bind {A B} (c : M A) (k : A → M B) : M B :=
  λ w, match c w with
       | (inr a, w') => k a w'
       | (inl e, w') => (inl e, w')
       end.

Definition throw {A} (e : Exn) : M A := λ w, (inl e, w).

(** [try { c } catch (error) { h error }]: the effects of [c] up to the
    throw stay. *)
Definition try_catch {A} (c : M A) (h : Exn → M A) : M A :=
  λ w, match c w with
       | (inr a, w') => (inr a, w')
       | (inl e, w') => h e w'
       end.

Definition get : M World := λ w, (inr w, w).

Notation "'let*' x ':=' c 'in' k" := (bind c (λ x, k))
  (at level 10, x pattern, c at level 100, k at level 200).

Definition set_cachedToken (t : option string) : M unit :=
  λ w, (inr (), {| cachedToken := t; tokenExpiry := tokenExpiry w;
                   execLog := execLog w; clientRes := clientRes w;
                   upstream := upstream w |}).

Definition set_tokenExpiry (n : number) : M unit :=
  λ w, (inr (), {| cachedToken := cachedToken w; tokenExpiry := n;
                   execLog := execLog w; clientRes := clientRes w;
                   upstream := upstream w |}).

Definition set_clientRes (r : ServerResponse) : M unit :=
  λ w, (inr (), {| cachedToken := cachedToken w; tokenExpiry := tokenExpiry w;
                   execLog := execLog w; clientRes := r;
                   upstream := upstream w |}).

(** ** Token cache *)

Section TokenCache.

(** The outcome of the [n]-th command handed to the shell. *)
Variable shell : nat → string → ExecResult.

Definition execPromise (command : string) : M (string * string) :=
  λ w,
    let w' := {| cachedToken := cachedToken w; tokenExpiry := tokenExpiry w;
                 execLog := (execLog w ++ [command])%list; clientRes := clientRes w;
                 upstream := upstream w |} in
    match shell (List.length (execLog w)) command with
    | Resolved stdout stderr => (inr (stdout, stderr), w')
    | Rejected error => (inl error, w')
    end.

Definition token_command (appUrl : string) : string :=
  "cloudflared access token --app=" ++ appUrl.

Definition fetchToken (appUrl : string) : M string :=
  let command := token_command appUrl in
  try_catch
    (let* (stdout, stderr) := execPromise command in
     if truthy stderr then
       throw (Error ("cloudflared stderr: " ++ stderr))
     else
       let token := trim stdout in
       if negb (truthy token) then
         throw (Error "cloudflared command returned empty token")
       else
         ret token)
    (λ error, throw error).

(** [getToken]; [now] is the reading of [Date.now()] on entry. *)
Definition getToken (proxyConfig : ProxyConfig) (now : Z) : M (option string) :=
  let* w := get in
  if truthy_opt (cachedToken w) && lt (Num now) (tokenExpiry w) then
    ret (cachedToken w)
  else
    try_catch
      (let* newToken := fetchToken (cloudflaredAppUrl proxyConfig) in
       let* _ := set_cachedToken (Some newToken) in
       let* _ := set_tokenExpiry
                   (add (Num now) (of_optional (tokenCacheDurationMs proxyConfig))) in
       let* w' := get in
       ret (cachedToken w'))
      (λ _,
       let* _ := set_tokenExpiry (Num 0) in
       let* _ := set_cachedToken None in
       ret None).

End TokenCache.

(** ** Forwarding handler *)

(** [clientRes.writeHead(status, headers)].  Node refuses a second head and
    a status that, read as a 32-bit integer, is not between 100 and 999.
    The program never calls [setHeader], so the head carries the headers
    given here; they are a literal of the program or the headers Node parsed
    from the upstream response. *)
Definition writeHead (status : Z) (hs : gmap string hval) : M unit :=
  λ w,
    let r := clientRes w in
    if headersSent r then
      (inl (Error "Cannot write headers after they are sent to the client"), w)
    else
      let code := to_int32 status in
      if ((code <? 100) || (999 <? code))%Z then
        (inl (RangeError ("Invalid status code: " ++ pretty status)), w)
      else
        set_clientRes {| headersSent := true; statusCode := code;
                         resHeaders := hs; written := written r;
                         finished := finished r |} w.

(** [clientRes.end(data)]: sends the head if it is still pending, writes
    [data] as the last chunk and finishes the response; on a finished
    response nothing is written. *)
Definition end_ (data : string) : M unit :=
  λ w,
    let r := clientRes w in
    if finished r then (inr (), w)
    else
      set_clientRes {| headersSent := true; statusCode := statusCode r;
                       resHeaders := resHeaders r;
                       written := (written r ++ [data])%list;
                       finished := true |} w.

(** The condition under which an inbound header is copied. *)
Definition keep (key : string) : bool :=
  let lowerKey := toLowerCase key in
  negb (String.eqb lowerKey "proxy-connection") &&
  negb (String.eqb lowerKey "transfer-encoding") &&
  negb (String.eqb lowerKey "host") &&
  negb (String.eqb lowerKey "authorization").

(** The body of the [forEach]: [headers[key] = clientReq.headers[key]]. *)
Definition copy_header (inbound : gmap string hval) (headers : object)
    (key : string) : object :=
  if keep key then
    match inbound !! key with
    | Some v => obj_set key v headers
    | None => headers
    end
  else headers.

(** [Object.keys(clientReq.headers)]; the order in which the inbound headers
    are visited is left open. *)
Definition Object_keys (o : gmap string hval) : list string :=
  (map_to_list o).*1.

Definition copyHeaders (inbound : gmap string hval) : object :=
  foldl (copy_header inbound) [] (Object_keys inbound).

(** The header object handed to the outbound request. *)
Definition outboundHeaders (proxyConfig : ProxyConfig) (cfToken : string)
    (inbound : gmap string hval) : object :=
  let headers := copyHeaders inbound in
  let headers := obj_set "Host" (HStr (targetHost proxyConfig)) headers in
  let headers :=
    obj_set "Cookie"
      (HStr (template (cookieName proxyConfig) ++ "=" ++ cfToken)) headers in
  let headers :=
    obj_set "X-ClickHouse-User" (HStr (clickhouseUsername proxyConfig))
      headers in
  obj_set "X-ClickHouse-Key" (HStr (clickhousePassword proxyConfig)) headers.

Definition text_plain : gmap string hval :=
  {["Content-Type" := HStr "text/plain"]}.

Definition no_token_body : string :=
  "Internal Server Error: Could not obtain authorization token.".

(** [proxyRes.statusCode || 200]. *)
Definition status_or_200 (statusCode : option Z) : Z :=
  match statusCode with
  | Some n => if (n =? 0)%Z then 200 else n
  | None => 200
  end.

(** The branch [if (!cfToken)]: a 500 in plain text, and [return]. *)
Definition abort : M unit :=
  let* _ := writeHead 500 text_plain in
  end_ no_token_body.

Section Handler.

Variable shell : nat → string → ExecResult.

(** What [https.request] does with the options it is given: it checks them
    and throws at once when it refuses them (a header value with a control
    character or a character above U+00FF, for one); [None] when it takes
    them.  The check is Node's and is left open here. *)
Variable refuses : ClientRequest → option Exn.

(** [https.request(options, ...)]: one more request towards the upstream,
    unless the options are refused. *)
Definition https_request (hostname : string) (port : Z) (path method : string)
    (headers : object) (rejectUnauthorized : bool) : M unit :=
  λ w,
    let req := {| transport := Https; hostname := hostname; port := port;
                  path := path; method := method; headers := headers;
                  rejectUnauthorized := rejectUnauthorized |} in
    match refuses req with
    | Some error => (inl error, w)
    | None =>
        (inr (), {| cachedToken := cachedToken w; tokenExpiry := tokenExpiry w;
                    execLog := execLog w; clientRes := clientRes w;
                    upstream := (upstream w ++ [req])%list |})
    end.

(** The request listener from the line after [await getToken]; the two
    pipes at its end move body chunks and decide nothing here.
    [clientReq.headers] is always an object, so the [if] around the copy
    loop is taken. *)
Definition afterToken (proxyConfig : ProxyConfig)
    (clientReq : IncomingMessage) (cfToken : option string) : M unit :=
  match cfToken with
  | Some token =>
      if negb (truthy token) then abort
      else
        let headers := outboundHeaders proxyConfig token (reqHeaders clientReq) in
        https_request (targetHost proxyConfig) (targetPort proxyConfig)
          (reqUrl clientReq) (reqMethod clientReq) headers true
  | None => abort
  end.

Definition requestListener (proxyConfig : ProxyConfig) (now : Z)
    (clientReq : IncomingMessage) : M unit :=
  let* cfToken := getToken shell proxyConfig now in
  afterToken proxyConfig clientReq cfToken.

(** The callback of [https.request]: the head of the upstream response is
    relayed. *)
Definition onResponse (proxyRes : UpstreamResponse) : M unit :=
  writeHead (status_or_200 (upStatusCode proxyRes)) (upHeaders proxyRes).

(** [proxyReq.on("error", ...)]. *)
Definition onError (err : Exn) : M unit :=
  let* w := get in
  let* _ :=
    (if negb (headersSent (clientRes w)) then writeHead 502 text_plain
     else ret ()) in
  end_ ("Bad Gateway: " ++ message err).

(** ** Start-up *)

Inductive Startup :=
| Fatal (err : Exn) (code : Z)
| Listening (port : Z) (host : string).

(** [server.listen(port, "0.0.0.0", ...)]: Node throws at once for a port
    that is not between 0 and 65535. *)
Definition listen (port : Z) : Exn + unit :=
  if ((0 <=? port) && (port <=? 65535))%Z then inr ()
  else
    inl (RangeError
           ("options.port should be >= 0 and < 65536. Received type number (" ++
            pretty port ++ ").")).

(** [main] with the [catch] attached to it: a throw of [loadConfig] ends
    the process with code 1; otherwise the first token is asked for and
    the server is told to listen, a throw there ending the process with
    code 1 as well.  [None]: the file holds a value outside the type the
    program asserts. *)
Definition main (file : Exn + yaml) (now : Z) : M (option Startup) :=
  match loadConfig file with
  | inl err => ret (Some (Fatal err 1))
  | inr proxy =>
      match as_ProxyConfig proxy with
      | Some proxyConfig =>
          let* initialToken := getToken shell proxyConfig now in
          match listen (listenPort proxyConfig) with
          | inr _ => ret (Some (Listening (listenPort proxyConfig) "0.0.0.0"))
          | inl err => ret (Some (Fatal err 1))
          end
      | None => ret None
      end
  end.

End Handler.

(** ** The same code, cut at the [await]

    [getToken] waits at one point, for the command.  Up to there it reads
    the clock, tests the cache and, on a miss, starts the command; from
    there on, once the command has settled, [fetchToken] judges the output,
    [getToken] stores or clears, and the listener goes on, all in one turn
    of the event loop.  A hit returns at once and the listener goes on in
    the same turn. *)

(** The test on entry to [getToken]. *)
Definition cache_hit (now : Z) (w : World) : bool :=
  truthy_opt (cachedToken w) && lt (Num now) (tokenExpiry w).

(** [exec(command)] is called: the command is under way. *)
Definition start_command (command : string) : M unit :=
  λ w, (inr (), {| cachedToken := cachedToken w; tokenExpiry := tokenExpiry w;
                   execLog := (execLog w ++ [command])%list;
                   clientRes := clientRes w; upstream := upstream w |}).

(** [fetchToken] from the point where the command has settled. *)
Definition fetched (result : ExecResult) : Exn + string :=
  match result with
  | Rejected error => inl error
  | Resolved stdout stderr =>
      if truthy stderr then inl (Error ("cloudflared stderr: " ++ stderr))
      else
        let token := trim stdout in
        if negb (truthy token) then
          inl (Error "cloudflared command returned empty token")
        else inr token
  end.

(** [getToken] from the point where [fetchToken] has returned or thrown;
    [now] is the reading of the clock taken on entry. *)
Definition settle (proxyConfig : ProxyConfig) (now : Z)
    (outcome : Exn + string) : M (option string) :=
  match outcome with
  | inr newToken =>
      let* _ := set_cachedToken (Some newToken) in
      let* _ := set_tokenExpiry
                  (add (Num now) (of_optional (tokenCacheDurationMs proxyConfig))) in
      let* w' := get in
      ret (cachedToken w')
  | inl _ =>
      let* _ := set_tokenExpiry (Num 0) in
      let* _ := set_cachedToken None in
      ret None
  end.

(** A connection: its request, its response object, and the clock reading
    of its call of [getToken] while that call waits for the command. *)
Record Conn := {
  connReq : IncomingMessage;
  connRes : ServerResponse;
  fetching : option Z;
}.

(** The process while it serves: the world, whose [clientRes] is the
    response of the connection served last, and the connections. *)
Record Loop := {
  world : World;
  conns : gmap nat Conn;
}.

(** What the event loop delivers for a connection: its request, the outcome
    of the command started for it, the head of the upstream response, or an
    error of the outbound request. *)
Inductive Event :=
| Arrive (c : nat) (now : Z) (clientReq : IncomingMessage)
| Settle (c : nat) (result : ExecResult)
| Response (c : nat) (proxyRes : UpstreamResponse)
| Failure (c : nat) (err : Exn).

Section EventLoop.

Variable refuses : ClientRequest → option Exn.
Variable proxyConfig : ProxyConfig.

(** One turn for connection [c]: [k] runs on the response of [c].  A throw
    inside [k] would end the process; the loop goes on from the world the
    throw left, which only adds worlds to those the program can reach. *)
Definition serve (c : nat) (conn : Conn) (k : M unit) (l : Loop) : Loop :=
  let w' := (k (set_clientRes (connRes conn) (world l)).2).2 in
  {| world := w';
     conns := <[c := {| connReq := connReq conn; connRes := clientRes w';
                        fetching := None |}]> (conns l) |}.

Definition step (ev : Event) (l : Loop) : Loop :=
  match ev with
  | Arrive c now clientReq =>
      if cache_hit now (world l) then
        serve c {| connReq := clientReq; connRes := fresh_response;
                   fetching := None |}
          (afterToken refuses proxyConfig clientReq (cachedToken (world l))) l
      else
        {| world :=
             (start_command (token_command (cloudflaredAppUrl proxyConfig))
                (world l)).2;
           conns := <[c := {| connReq := clientReq; connRes := fresh_response;
                              fetching := Some now |}]> (conns l) |}
  | Settle c result =>
      match conns l !! c with
      | Some conn =>
          match fetching conn with
          | Some now =>
              serve c conn
                (let* cfToken := settle proxyConfig now (fetched result) in
                 afterToken refuses proxyConfig (connReq conn) cfToken) l
          | None => l
          end
      | None => l
      end
  | Response c proxyRes =>
      match conns l !! c with
      | Some conn =>
          match fetching conn with
          | Some _ => l
          | None => serve c conn (onResponse proxyRes) l
          end
      | None => l
      end
  | Failure c err =>
      match conns l !! c with
      | Some conn =>
          match fetching conn with
          | Some _ => l
          | None => serve c conn (onError err) l
          end
      | None => l
      end
  end.

Fixpoint loop (evs : list Event) (l : Loop) : Loop :=
  match evs with
  | [] => l
  | ev :: rest => loop rest (step ev l)
  end.

End EventLoop.

(** The process when the server has just started to listen: the world that
    [main] left, and no connection. *)
Definition serving (w : World) : Loop := {| world := w; conns := ∅ |}.

(** ** The earlier variant, with tunnels

    The second program of the repository ([src/unnamed/part_001]): the same
    token cache, a configuration loader without key checks, a listener that
    strips two headers and injects two, and child processes kept in a map
    by tunnel name. *)

Module Legacy.

Definition load_error : Exn := Error "Error loading config".

(** [loadConfig]: whatever is thrown inside the [try], the [catch] throws
    [new Error('Error loading config')]; the whole document is returned. *)
Definition loadConfig (file : Exn + yaml) : Exn + yaml :=
  match file with
  | inl _ => inl load_error
  | inr config =>
      match get_prop config "proxy" with
      | inl _ => inl load_error
      | inr proxy => if falsy proxy then inl load_error else inr config
      end
  end.

(** The condition under which the listener copies an inbound header. *)
Definition keep (key : string) : bool :=
  negb (String.eqb (toLowerCase key) "proxy-connection") &&
  negb (String.eqb (toLowerCase key) "transfer-encoding").

Definition copy_header (inbound : gmap string hval) (headers : object)
    (key : string) : object :=
  if keep key then
    match inbound !! key with
    | Some v => obj_set key v headers
    | None => headers
    end
  else headers.

Definition copyHeaders (inbound : gmap string hval) : object :=
  foldl (copy_header inbound) [] (Object_keys inbound).

(** The header object of the outbound request; [targetHost] and
    [cookieName] are the two fields of the configuration it reads. *)
Definition outboundHeaders (targetHost : string) (cookieName : option string)
    (cfToken : string) (inbound : gmap string hval) : object :=
  let headers := copyHeaders inbound in
  let headers := obj_set "Host" (HStr targetHost) headers in
  obj_set "Cookie" (HStr (template cookieName ++ "=" ++ cfToken)) headers.

Record TunnelConfig := {
  name : string;
  command : string;
  args : list string;
}.

(** What [spawn(command, args, options)] does: hands back a child process,
    known here by its pid, or throws. *)
Inductive SpawnResult :=
| Spawned (pid : nat)
| SpawnThrew (error : Exn).

(** The map [activeProcesses], in insertion order as a [Map] keeps it, the
    tunnels handed to [spawn] and the signals sent. *)
Record Tunnels := {
  activeProcesses : list (string * nat);
  spawnLog : list TunnelConfig;
  signalLog : list (nat * string);
}.

Definition no_tunnels : Tunnels :=
  {| activeProcesses := []; spawnLog := []; signalLog := [] |}.

(** [Map.prototype.set]: a key that is present keeps its place. *)
Fixpoint Map_set (k : string) (v : nat) (m : list (string * nat))
    : list (string * nat) :=
  match m with
  | [] => [(k, v)]
  | (k', v') :: r =>
      if String.eqb k k' then (k, v) :: r else (k', v') :: Map_set k v r
  end.

(** [Map.prototype.delete]. *)
Fixpoint Map_delete (k : string) (m : list (string * nat))
    : list (string * nat) :=
  match m with
  | [] => []
  | (k', v') :: r =>
      if String.eqb k k' then r else (k', v') :: Map_delete k r
  end.

Section Tunnel.

(** The outcome of the [n]-th call of [spawn]. *)
Variable spawn : nat → TunnelConfig → SpawnResult.

(** [startTunnel]: the [catch] only logs. *)
Definition startTunnel (config : TunnelConfig) (t : Tunnels) : Tunnels :=
  match spawn (List.length (spawnLog t)) config with
  | Spawned proc =>
      {| activeProcesses := Map_set (name config) proc (activeProcesses t);
         spawnLog := (spawnLog t ++ [config])%list;
         signalLog := signalLog t |}
  | SpawnThrew _ =>
      {| activeProcesses := activeProcesses t;
         spawnLog := (spawnLog t ++ [config])%list;
         signalLog := signalLog t |}
  end.

(** [startAllTunnels]; [None] is a configuration without [tunnels], whose
    [length] cannot be read. *)
Definition startAllTunnels (tunnelConfigs : option (list TunnelConfig))
    (t : Tunnels) : (Exn + unit) * Tunnels :=
  match tunnelConfigs with
  | None =>
      (inl (TypeError "Cannot read properties of undefined (reading 'length')"),
       t)
  | Some configs =>
      if (List.length configs =? 0)%nat then (inr (), t)
      else (inr (), foldl (λ t config, startTunnel config t) t configs)
  end.

End Tunnel.

(** The handlers of ['error'] and ['close'] of a process started for
    [config]: [activeProcesses.delete(config.name)]. *)
Definition onExit (config : TunnelConfig) (t : Tunnels) : Tunnels :=
  {| activeProcesses := Map_delete (name config) (activeProcesses t);
     spawnLog := spawnLog t;
     signalLog := signalLog t |}.

(** [stopAllTunnels]: [SIGTERM] to every process in the map; the map is
    left to the ['close'] handlers. *)
Definition stopAllTunnels (t : Tunnels) : Tunnels :=
  if (List.length (activeProcesses t) =? 0)%nat then t
  else
    {| activeProcesses := activeProcesses t;
       spawnLog := spawnLog t;
       signalLog :=
         (signalLog t ++
          List.map (λ entry, (entry.2, "SIGTERM")) (activeProcesses t))%list |}.

End Legacy.


(** * Vocabulary of the properties *)

(** A cached token is never the empty string: [fetchToken] rejects an empty
    output, and nothing else is ever stored. *)
Definition cache_inv (w : World) : Prop := cachedToken w ≠ Some "".

(** How [fetchToken] classifies what the command did. *)
Inductive fetch_failure : ExecResult → Prop :=
| fail_exit error : fetch_failure (Rejected error)
| fail_stderr stdout stderr : stderr ≠ "" → fetch_failure (Resolved stdout stderr)
| fail_empty stdout : trim stdout = "" → fetch_failure (Resolved stdout "").

Inductive fetch_success : ExecResult → string → Prop :=
| fetch_ok stdout : trim stdout ≠ "" → fetch_success (Resolved stdout "") (trim stdout).

(** No valid token in the cache at time [now]: none stored, or the stored
    expiry is not after [now]. *)
Definition cache_miss (now : Z) (w : World) : Prop :=
  cachedToken w = None ∨ ∀ e, tokenExpiry w = Num e → (e ≤ now)%Z.

(** The inbound header names are lower-case, as Node delivers them. *)
Definition lowercase_names (inbound : gmap string hval) : Prop :=
  ∀ key, is_Some (inbound !! key) → toLowerCase key = key.

(** The headers sent with an outbound request, and how many of them bear a
    name, names compared as HTTP compares them, without regard to case. *)
Definition sent (r : ClientRequest) : gmap string (string * hval) :=
  sentHeaders (headers r).

Definition sent_names (r : ClientRequest) : list string :=
  ((map_to_list (sent r)).*2).*1.

Definition count_named (name : string) (r : ClientRequest) : nat :=
  List.length
    (List.filter (λ n, String.eqb (toLowerCase n) (toLowerCase name))
       (sent_names r)).

(** One step of [ClientRequest] over the keys of [headers]. *)
Definition set_from (headers : object) (sent : gmap string (string * hval))
    (key : string) : gmap string (string * hval) :=
  match obj_get key headers with
  | Some v => setHeader key v sent
  | None => sent
  end.

(** The transport a [targetScheme] asks for. *)
Definition transport_of (scheme : option string) : option Transport :=
  match scheme with
  | Some "http" => Some Http
  | Some "https" => Some Https
  | _ => None
  end.

(** White space at either end of a string. *)
Definition starts_with_space (s : string) : bool :=
  match strip_space (list_ascii_of_string s) with
  | Some _ => true
  | None => false
  end.

Definition ends_with_space (s : string) : bool :=
  match strip_space_rev (List.rev (list_ascii_of_string s)) with
  | Some _ => true
  | None => false
  end.

(** A usable token: not empty, no white space around it. *)
Definition clean (token : string) : Prop :=
  token ≠ "" ∧ starts_with_space token = false ∧ ends_with_space token = false.

Definition cache_clean (w : World) : Prop :=
  ∀ token, cachedToken w = Some token → clean token.

(** The outbound request the listener opens for a request of a client once
    it holds a token. *)
Definition forwarded (proxyConfig : ProxyConfig) (token : string)
    (clientReq : IncomingMessage) : ClientRequest :=
  {| transport := Https;
     hostname := targetHost proxyConfig;
     port := targetPort proxyConfig;
     path := reqUrl clientReq;
     method := reqMethod clientReq;
     headers := outboundHeaders proxyConfig token (reqHeaders clientReq);
     rejectUnauthorized := true |}.

(** An outbound request that goes to the configured target over TLS and is
    sent with both credentials. *)
Definition authenticated (proxyConfig : ProxyConfig) (r : ClientRequest) : Prop :=
  transport r = Https ∧
  rejectUnauthorized r = true ∧
  hostname r = targetHost proxyConfig ∧
  port r = targetPort proxyConfig ∧
  sent r !! "host" = Some ("Host", HStr (targetHost proxyConfig)) ∧
  sent r !! "x-clickhouse-user" =
    Some ("X-ClickHouse-User", HStr (clickhouseUsername proxyConfig)) ∧
  sent r !! "x-clickhouse-key" =
    Some ("X-ClickHouse-Key", HStr (clickhousePassword proxyConfig)) ∧
  ∃ token,
    clean token ∧
    sent r !! "cookie" =
      Some ("Cookie", HStr (template (cookieName proxyConfig) ++ "=" ++ token)).

(** Two worlds that differ at most in the response to the client. *)
Definition same_but_response (w w' : World) : Prop :=
  cachedToken w' = cachedToken w ∧
  tokenExpiry w' = tokenExpiry w ∧
  execLog w' = execLog w ∧
  upstream w' = upstream w.

(** The requests of clients among the events, and whether they all come
    with lower-case header names. *)
Definition is_arrival (ev : Event) : bool :=
  match ev with
  | Arrive _ _ _ => true
  | _ => false
  end.

Definition arrivals (evs : list Event) : nat :=
  List.length (List.filter is_arrival evs).

Definition well_formed (ev : Event) : Prop :=
  match ev with
  | Arrive _ _ clientReq => lowercase_names (reqHeaders clientReq)
  | _ => True
  end.

(** The connections whose call of [getToken] waits for its command, and
    whether the requests of all connections came with lower-case header
    names. *)
Definition pending (l : Loop) : nat :=
  size (filter (λ entry : nat * Conn, is_Some (fetching entry.2)) (conns l)).

Definition conns_lowercase (l : Loop) : Prop :=
  ∀ c conn, conns l !! c = Some conn →
            lowercase_names (reqHeaders (connReq conn)).

(** The entries a list of tunnels adds to the map of processes when their
    names are new: one for every [spawn] that did not throw, [n] being the
    number of earlier calls of [spawn]. *)
Fixpoint spawned_entries (spawn : nat → Legacy.TunnelConfig → Legacy.SpawnResult)
    (n : nat) (configs : list Legacy.TunnelConfig) : list (string * nat) :=
  match configs with
  | [] => []
  | config :: rest =>
      match spawn n config with
      | Legacy.Spawned proc =>
          (Legacy.name config, proc) :: spawned_entries spawn (S n) rest
      | Legacy.SpawnThrew _ => spawned_entries spawn (S n) rest
      end
  end.

(** ** Sample inputs *)

(** The configuration of the scenario: [db.example.com:443], user [alice]. *)
Definition scenario_config : ProxyConfig :=
  {| listenPort := 9090; targetHost := "db.example.com"; targetPort := 443;
     targetScheme := Some "https";
     cloudflaredAppUrl := "https://db.example.com";
     tokenCacheDurationMs := Some 300000%Z;
     cookieName := Some "CF_Authorization";
     clickhouseUsername := "alice"; clickhousePassword := "secret" |}.

(** The same target reached, by its configuration, over plain HTTP. *)
Definition plain_config : ProxyConfig :=
  {| listenPort := 9090; targetHost := "db.example.com"; targetPort := 8123;
     targetScheme := Some "http";
     cloudflaredAppUrl := "https://db.example.com";
     tokenCacheDurationMs := Some 300000%Z;
     cookieName := Some "CF_Authorization";
     clickhouseUsername := "alice"; clickhousePassword := "secret" |}.

(** A [proxy] section with the six checked keys and nothing else. *)
Definition six_keys : gmap string yaml :=
  <["listenPort" := YNum 9090]>
    (<["targetHost" := YStr "db.example.com"]>
       (<["targetPort" := YNum 443]>
          (<["cloudflaredAppUrl" := YStr "https://db.example.com"]>
             (<["clickhouseUsername" := YStr "alice"]>
                (<["clickhousePassword" := YStr "secret"]> ∅))))).

Definition six_keys_file : Exn + yaml :=
  inr (YMap (<["proxy" := YMap six_keys]> ∅)).

(** What loading [six_keys_file] yields. *)
Definition six_keys_config : ProxyConfig :=
  {| listenPort := 9090; targetHost := "db.example.com"; targetPort := 443;
     targetScheme := None;
     cloudflaredAppUrl := "https://db.example.com";
     tokenCacheDurationMs := None;
     cookieName := None;
     clickhouseUsername := "alice"; clickhousePassword := "secret" |}.

(** A file with every key, which loads to [scenario_config]. *)
Definition scenario_file : Exn + yaml :=
  inr (YMap
         (<["proxy" :=
              YMap (<["targetScheme" := YStr "https"]>
                      (<["tokenCacheDurationMs" := YNum 300000]>
                         (<["cookieName" := YStr "CF_Authorization"]>
                            (<["listenPort" := YNum 9090]>
                               (<["clickhouseUsername" := YStr "alice"]>
                                  (<["clickhousePassword" := YStr "secret"]>
                                     (<["targetHost" := YStr "db.example.com"]>
                                        (<["targetPort" := YNum 443]>
                                           (<["cloudflaredAppUrl" :=
                                                YStr "https://db.example.com"]>
                                              ∅)))))))))]> ∅)).

(** A helper that prints the token followed by a line feed, every time. *)
Definition token_shell : nat → string → ExecResult :=
  λ _ _, Resolved (String.append "tok" (String "010"%char EmptyString)) "".

(** A helper that prints nothing. *)
Definition silent_shell : nat → string → ExecResult :=
  λ _ _, Resolved "" "".

Definition get_select_1 : IncomingMessage :=
  {| reqMethod := "GET"; reqUrl := "/?query=SELECT+1";
     reqHeaders := <["host" := HStr "localhost:9090"]>
                     (<["accept" := HStr "*/*"]> ∅) |}.

(** The same request with a cookie of the client's own. *)
Definition get_with_cookie : IncomingMessage :=
  {| reqMethod := "GET"; reqUrl := "/?query=SELECT+1";
     reqHeaders := <["host" := HStr "localhost:9090"]>
                     (<["cookie" := HStr "session=abc"]> ∅) |}.

Definition upstream_ok : UpstreamResponse :=
  {| upStatusCode := Some 200%Z;
     upHeaders := {["content-type" := HStr "text/plain"]} |}.

(** A world in which a token is cached until time 5000. *)
Definition warm_world : World :=
  {| cachedToken := Some "tok"; tokenExpiry := Num 5000; execLog := [];
     clientRes := fresh_response; upstream := [] |}.

(** The defaults the specification gives the two optional keys, applied to
    a loaded configuration. *)
Definition spec_defaults (c : ProxyConfig) : ProxyConfig :=
  {| listenPort := listenPort c; targetHost := targetHost c;
     targetPort := targetPort c; targetScheme := targetScheme c;
     cloudflaredAppUrl := cloudflaredAppUrl c;
     tokenCacheDurationMs :=
       Some (default 300000%Z (tokenCacheDurationMs c));
     cookieName := Some (default "CF_Authorization" (cookieName c));
     clickhouseUsername := clickhouseUsername c;
     clickhousePassword := clickhousePassword c |}.


(** Node's check of the header values of an outbound request, as far as the
    samples need it: a value with a control character other than TAB, or
    with a character above U+00FF (a byte from C4 on in its encoding), is
    refused. *)
Definition bad_header_byte (c : ascii) : bool :=
  let n := nat_of_ascii c in
  ((n <? 32) && negb (n =? 9) || (n =? 127) || (196 <=? n))%nat.

Definition bad_header_value (v : hval) : bool :=
  match v with
  | HStr s => existsb bad_header_byte (list_ascii_of_string s)
  | HArr l => existsb (λ s, existsb bad_header_byte (list_ascii_of_string s)) l
  end.

Definition node_refuses (r : ClientRequest) : option Exn :=
  if existsb (λ entry, bad_header_value entry.2) (headers r) then
    Some (TypeError "Invalid character in header content")
  else None.

(** Upstream responses: not found, one without a status code, and one with
    a status code below 100. *)
Definition upstream_404 : UpstreamResponse :=
  {| upStatusCode := Some 404%Z;
     upHeaders := {["content-type" := HStr "text/plain"]} |}.

Definition upstream_no_status : UpstreamResponse :=
  {| upStatusCode := None;
     upHeaders := {["content-type" := HStr "text/plain"]} |}.

Definition upstream_99 : UpstreamResponse :=
  {| upStatusCode := Some 99%Z;
     upHeaders := {["content-type" := HStr "text/plain"]} |}.

(** The output of the helper: the token and a line feed. *)
Definition token_output : string :=
  String.append "tok" (String "010"%char EmptyString).

(** The six keys with a port no server can listen on. *)
Definition bad_port_file : Exn + yaml :=
  inr (YMap (<["proxy" := YMap (<["listenPort" := YNum 70000]> six_keys)]> ∅)).

(** Two tunnels that forward different ports under one name. *)
Definition tunnel_a : Legacy.TunnelConfig :=
  {| Legacy.name := "db-tunnel"; Legacy.command := "cloudflared";
     Legacy.args := ["access"; "tcp"; "--url"; "127.0.0.1:5432"] |}.

Definition tunnel_b : Legacy.TunnelConfig :=
  {| Legacy.name := "db-tunnel"; Legacy.command := "cloudflared";
     Legacy.args := ["access"; "tcp"; "--url"; "127.0.0.1:5433"] |}.

Definition tunnel_c : Legacy.TunnelConfig :=
  {| Legacy.name := "cache-tunnel"; Legacy.command := "cloudflared";
     Legacy.args := ["access"; "tcp"; "--url"; "127.0.0.1:6379"] |}.

(** Every spawn succeeds; the [n]-th child gets pid [100 + n]. *)
Definition spawn_ok : nat → Legacy.TunnelConfig → Legacy.SpawnResult :=
  λ n _, Legacy.Spawned (100 + n).


(** * Properties *)

(** ** Token cache *)

Lemma truthy_true s : truthy s = true ↔ s ≠ "".
Proof.
  unfold truthy. rewrite negb_true_iff. split.
  - intros H ->. discriminate.
  - intros H. apply String.eqb_neq. exact H.
Qed.

Lemma truthy_false s : truthy s = false ↔ s = "".
Proof.
  unfold truthy. rewrite negb_false_iff. apply String.eqb_eq.
Qed.

Lemma fetch_outcome r : fetch_failure r ∨ ∃ token, fetch_success r token.
Proof.
  destruct r as [out err|e]; [|left; constructor].
  destruct (decide (err = "")) as [->|Herr]; [|left; by constructor].
  destruct (decide (trim out = "")) as [Hout|Hout].
  - left. by constructor.
  - right. eexists. by constructor.
Qed.

Lemma cache_miss_test now w :
  cache_miss now w →
  truthy_opt (cachedToken w) && lt (Num now) (tokenExpiry w) = false.
Proof.
  intros [Hnone|Hexp].
  - rewrite Hnone. reflexivity.
  - apply andb_false_iff. right.
    destruct (tokenExpiry w) as [e|] eqn:He; [|reflexivity].
    simpl. apply Z.ltb_ge. by apply Hexp.
Qed.

Section TokenCacheFacts.

Variable shell : nat → string → ExecResult.
Variable proxyConfig : ProxyConfig.

(** What [fetchToken] does, by the outcome of the command. *)
Lemma fetchToken_success w token :
  fetch_success (shell (List.length (execLog w))
       (token_command (cloudflaredAppUrl proxyConfig))) token →
  fetchToken shell (cloudflaredAppUrl proxyConfig) w =
    (inr token,
     {| cachedToken := cachedToken w; tokenExpiry := tokenExpiry w;
        execLog :=
          (execLog w ++ [token_command (cloudflaredAppUrl proxyConfig)])%list;
        clientRes := clientRes w; upstream := upstream w |}).
Proof.
  intros Hs. unfold fetchToken, try_catch, bind, execPromise. cbv zeta.
  inversion Hs as [out Hne Heq]. subst token. simpl.
  apply truthy_true in Hne. rewrite Hne. reflexivity.
Qed.

Lemma fetchToken_failure w :
  fetch_failure (shell (List.length (execLog w))
       (token_command (cloudflaredAppUrl proxyConfig))) →
  ∃ e, fetchToken shell (cloudflaredAppUrl proxyConfig) w =
    (inl e,
     {| cachedToken := cachedToken w; tokenExpiry := tokenExpiry w;
        execLog :=
          (execLog w ++ [token_command (cloudflaredAppUrl proxyConfig)])%list;
        clientRes := clientRes w; upstream := upstream w |}).
Proof.
  intros Hf. unfold fetchToken, try_catch, bind, execPromise. cbv zeta.
  inversion Hf as [e He|out err Hne He|out Hemp He]; simpl.
  - by eexists.
  - apply truthy_true in Hne. rewrite Hne. by eexists.
  - apply truthy_false in Hemp. rewrite Hemp. by eexists.
Qed.

(** [getToken] on a miss, by the outcome of the command. *)
Lemma getToken_miss_success now w token :
  truthy_opt (cachedToken w) && lt (Num now) (tokenExpiry w) = false →
  fetch_success (shell (List.length (execLog w))
       (token_command (cloudflaredAppUrl proxyConfig))) token →
  getToken shell proxyConfig now w =
    (inr (Some token),
     {| cachedToken := Some token;
        tokenExpiry := add (Num now) (of_optional (tokenCacheDurationMs proxyConfig));
        execLog :=
          (execLog w ++ [token_command (cloudflaredAppUrl proxyConfig)])%list;
        clientRes := clientRes w; upstream := upstream w |}).
Proof.
  intros Hmiss Hs. unfold getToken, bind at 1, get.
  rewrite Hmiss.
  unfold try_catch, bind at 1. rewrite (fetchToken_success _ _ Hs).
  reflexivity.
Qed.

Lemma getToken_miss_failure now w :
  truthy_opt (cachedToken w) && lt (Num now) (tokenExpiry w) = false →
  fetch_failure (shell (List.length (execLog w))
       (token_command (cloudflaredAppUrl proxyConfig))) →
  getToken shell proxyConfig now w =
    (inr None,
     {| cachedToken := None; tokenExpiry := Num 0;
        execLog :=
          (execLog w ++ [token_command (cloudflaredAppUrl proxyConfig)])%list;
        clientRes := clientRes w; upstream := upstream w |}).
Proof.
  intros Hmiss Hf. unfold getToken, bind at 1, get.
  rewrite Hmiss.
  unfold try_catch, bind at 1.
  destruct (fetchToken_failure _ Hf) as [e ->]. reflexivity.
Qed.

Lemma getToken_hit now w token e :
  cache_inv w → cachedToken w = Some token → tokenExpiry w = Num e →
  (now < e)%Z →
  getToken shell proxyConfig now w = (inr (Some token), w).
Proof.
  intros Hinv Htok Hexp Hlt. unfold getToken, bind, get.
  rewrite Htok, Hexp. simpl.
  assert (truthy token = true) as ->.
  { apply truthy_true. intros ->. by apply Hinv. }
  assert ((now <? e)%Z = true) as -> by by apply Z.ltb_lt.
  reflexivity.
Qed.

(** [getToken] always returns: it never throws, leaves the connection's
    objects alone, runs at most one command, and keeps [cache_inv]. *)
Lemma getToken_returns now w :
  ∃ r w',
    getToken shell proxyConfig now w = (inr r, w') ∧
    clientRes w' = clientRes w ∧ upstream w' = upstream w ∧
    (execLog w' = execLog w ∨
     execLog w' =
       (execLog w ++ [token_command (cloudflaredAppUrl proxyConfig)])%list) ∧
    (cache_inv w → cache_inv w' ∧ r ≠ Some "").
Proof.
  destruct (truthy_opt (cachedToken w) && lt (Num now) (tokenExpiry w)) eqn:Htest.
  - exists (cachedToken w), w. unfold getToken, bind, get. rewrite Htest.
    repeat split; auto.
  - destruct (fetch_outcome
                (shell (List.length (execLog w))
                   (token_command (cloudflaredAppUrl proxyConfig))))
      as [Hf|[token Hs]].
    + eexists _, _. split; [by apply getToken_miss_failure|].
      repeat split; auto; unfold cache_inv; simpl; discriminate.
    + eexists _, _. split; [by apply getToken_miss_success|].
      assert (token ≠ "") by (inversion Hs; congruence).
      repeat split; auto; unfold cache_inv; simpl; congruence.
Qed.

End TokenCacheFacts.

Lemma initial_cache_inv : cache_inv initial_world.
Proof. unfold cache_inv. simpl. discriminate. Qed.

(** C3. Whenever a token is cached and the clock reads strictly less than
    the recorded expiry, [getToken] returns the cached token and leaves the
    world as it was: the log of commands handed to the shell is unchanged,
    so the external fetch was not invoked. *)
Theorem getToken_cached_no_fetch shell proxyConfig now w token e :
  cache_inv w →
  cachedToken w = Some token →
  tokenExpiry w = Num e →
  (now < e)%Z →
  getToken shell proxyConfig now w = (inr (Some token), w) ∧
  execLog (getToken shell proxyConfig now w).2 = execLog w.
Proof.
  intros Hinv Htok Hexp Hlt.
  rewrite (getToken_hit shell proxyConfig now w token e Hinv Htok Hexp Hlt).
  split; reflexivity.
Qed.

(** C4. When no valid token is cached (none stored, or the expiry is not
    after the clock reading), [getToken] hands exactly one command to the
    shell, the token fetch for the configured application; when that fetch
    succeeds, the new token is stored, the recorded expiry is the clock
    reading taken for this call plus the configured cache duration, and the
    new token is returned. *)
Theorem getToken_miss_fetches_once shell proxyConfig now w d :
  tokenCacheDurationMs proxyConfig = Some d →
  cache_miss now w →
  execLog (getToken shell proxyConfig now w).2 =
    (execLog w ++ [token_command (cloudflaredAppUrl proxyConfig)])%list ∧
  ∀ token,
    fetch_success
      (shell (List.length (execLog w))
         (token_command (cloudflaredAppUrl proxyConfig))) token →
    (getToken shell proxyConfig now w).1 = inr (Some token) ∧
    cachedToken (getToken shell proxyConfig now w).2 = Some token ∧
    tokenExpiry (getToken shell proxyConfig now w).2 = Num (now + d).
Proof.
  intros Hd Hmiss.
  pose proof (cache_miss_test _ _ Hmiss) as Htest.
  split.
  - destruct (fetch_outcome
                (shell (List.length (execLog w))
                   (token_command (cloudflaredAppUrl proxyConfig))))
      as [Hf|[token Hs]].
    + by rewrite (getToken_miss_failure shell proxyConfig now w Htest Hf).
    + by rewrite (getToken_miss_success shell proxyConfig now w token Htest Hs).
  - intros token Hs.
    rewrite (getToken_miss_success shell proxyConfig now w token Htest Hs).
    simpl. rewrite Hd. auto.
Qed.

(** C5. When the fetch fails in any of its three ways (the command is
    rejected, it wrote to its error stream, or its trimmed output is empty),
    [getToken] returns [null] without throwing, the cached token is cleared
    and the expiry is reset to 0; the next call, at any time and under any
    configuration, hands a fresh fetch to the shell. *)
Theorem getToken_failure_clears_cache shell proxyConfig now w :
  cache_miss now w →
  fetch_failure
    (shell (List.length (execLog w))
       (token_command (cloudflaredAppUrl proxyConfig))) →
  (getToken shell proxyConfig now w).1 = inr None ∧
  cachedToken (getToken shell proxyConfig now w).2 = None ∧
  tokenExpiry (getToken shell proxyConfig now w).2 = Num 0 ∧
  ∀ proxyConfig' now',
    execLog
      (getToken shell proxyConfig' now' (getToken shell proxyConfig now w).2).2 =
      (execLog (getToken shell proxyConfig now w).2 ++
       [token_command (cloudflaredAppUrl proxyConfig')])%list.
Proof.
  intros Hmiss Hf.
  pose proof (cache_miss_test _ _ Hmiss) as Htest.
  rewrite (getToken_miss_failure shell proxyConfig now w Htest Hf). simpl.
  repeat split; auto.
  intros cfg' now'.
  match goal with |- context [getToken _ _ _ ?w1] => set (w1' := w1) end.
  assert (truthy_opt (cachedToken w1') && lt (Num now') (tokenExpiry w1') = false)
    as Htest' by reflexivity.
  destruct (fetch_outcome
              (shell (List.length (execLog w1'))
                 (token_command (cloudflaredAppUrl cfg'))))
    as [Hf'|[token Hs]].
  - by rewrite (getToken_miss_failure shell cfg' now' w1' Htest' Hf').
  - by rewrite (getToken_miss_success shell cfg' now' w1' token Htest' Hs).
Qed.

(** ** Trimming *)

Lemma strip_space_shrinks l r :
  strip_space l = Some r → (List.length r < List.length l)%nat.
Proof.
  destruct l as [|a [|b [|c l]]]; simpl; try discriminate.
  - destruct (is_space a); intros [= <-]; simpl; lia.
  - destruct (is_space a); [intros [= <-]; simpl; lia|].
    destruct (is_space2 a b); intros [= <-]; simpl; lia.
  - destruct (is_space a); [intros [= <-]; simpl; lia|].
    destruct (is_space2 a b); [intros [= <-]; simpl; lia|].
    destruct (is_space3 a b c); intros [= <-]; simpl; lia.
Qed.

Lemma strip_space_rev_shrinks l r :
  strip_space_rev l = Some r → (List.length r < List.length l)%nat.
Proof.
  destruct l as [|a [|b [|c l]]]; simpl; try discriminate.
  - destruct (is_space a); intros [= <-]; simpl; lia.
  - destruct (is_space a); [intros [= <-]; simpl; lia|].
    destruct (is_space2 b a); intros [= <-]; simpl; lia.
  - destruct (is_space a); [intros [= <-]; simpl; lia|].
    destruct (is_space2 b a); [intros [= <-]; simpl; lia|].
    destruct (is_space3 c b a); intros [= <-]; simpl; lia.
Qed.

Lemma strip_space_rev_suffix l r :
  strip_space_rev l = Some r → ∃ p, l = (p ++ r)%list.
Proof.
  destruct l as [|a [|b [|c l]]]; simpl; try discriminate.
  - destruct (is_space a); intros [= <-]. by exists [a].
  - destruct (is_space a); [intros [= <-]; by exists [a]|].
    destruct (is_space2 b a); intros [= <-]. by exists [a; b].
  - destruct (is_space a); [intros [= <-]; by exists [a]|].
    destruct (is_space2 b a); [intros [= <-]; by exists [a; b]|].
    destruct (is_space3 c b a); intros [= <-]. by exists [a; b; c].
Qed.

(** Whether a string starts with white space is decided by its first
    bytes: what follows them does not matter. *)
Lemma strip_space_prefix x y :
  strip_space (x ++ y) = None → strip_space x = None.
Proof.
  destruct x as [|a [|b [|c x]]]; simpl; try done.
  - destruct (is_space a); [|done]. by destruct y.
  - destruct (is_space a); [done|].
    destruct (is_space2 a b); [|done]. by destruct y.
  - destruct (is_space a); [done|].
    destruct (is_space2 a b); [done|].
    by destruct (is_space3 a b c).
Qed.

Section StripAll.

Variable strip : list ascii → option (list ascii).
Hypothesis strip_shrinks :
  ∀ l r, strip l = Some r → (List.length r < List.length l)%nat.

Lemma strip_all_done fuel l :
  (List.length l ≤ fuel)%nat → strip (strip_all strip fuel l) = None.
Proof.
  revert l. induction fuel as [|fuel IH]; intros l Hlen; simpl.
  - destruct (strip l) as [r|] eqn:Hr; [|done].
    apply strip_shrinks in Hr. lia.
  - destruct (strip l) as [r|] eqn:Hr; [|done].
    apply IH. apply strip_shrinks in Hr. lia.
Qed.

Lemma strip_all_suffix fuel l :
  (∀ l r, strip l = Some r → ∃ p, l = (p ++ r)%list) →
  ∃ p, l = (p ++ strip_all strip fuel l)%list.
Proof.
  intros Hsuffix. revert l. induction fuel as [|fuel IH]; intros l; simpl.
  - by exists [].
  - destruct (strip l) as [r|] eqn:Hr; [|by exists []].
    destruct (Hsuffix _ _ Hr) as [p ->]. destruct (IH r) as [q Hq].
    exists (p ++ q)%list. rewrite <- app_assoc. by rewrite <- Hq.
Qed.

End StripAll.

Lemma trimStart_bytes_starts l : strip_space (trimStart_bytes l) = None.
Proof.
  unfold trimStart_bytes.
  by apply (strip_all_done strip_space strip_space_shrinks).
Qed.

Lemma trimEnd_bytes_ends l :
  strip_space_rev (List.rev (trimEnd_bytes l)) = None.
Proof.
  unfold trimEnd_bytes. rewrite rev_involutive.
  apply (strip_all_done strip_space_rev strip_space_rev_shrinks).
  by rewrite length_rev.
Qed.

Lemma trimEnd_bytes_prefix l : ∃ y, l = (trimEnd_bytes l ++ y)%list.
Proof.
  unfold trimEnd_bytes.
  destruct (strip_all_suffix strip_space_rev (List.length l) (List.rev l)
              strip_space_rev_suffix) as [p Hp].
  exists (List.rev p).
  rewrite <- rev_app_distr, <- Hp. by rewrite rev_involutive.
Qed.

Lemma trim_clean s : trim s ≠ "" → clean (trim s).
Proof.
  intros Hne. split; [exact Hne|].
  unfold starts_with_space, ends_with_space, trim.
  rewrite list_ascii_of_string_of_list_ascii.
  split.
  - destruct (trimEnd_bytes_prefix (trimStart_bytes (list_ascii_of_string s)))
      as [y Hy].
    pose proof (trimStart_bytes_starts (list_ascii_of_string s)) as Hstart.
    rewrite Hy in Hstart. apply strip_space_prefix in Hstart.
    by rewrite Hstart.
  - by rewrite trimEnd_bytes_ends.
Qed.

Lemma fetch_success_clean r token : fetch_success r token → clean token.
Proof. intros Hs. inversion Hs; subst. by apply trim_clean. Qed.

Lemma cache_clean_inv w : cache_clean w → cache_inv w.
Proof. intros Hc Hw. by destruct (Hc "" Hw) as [? _]. Qed.

Lemma initial_cache_clean : cache_clean initial_world.
Proof. intros token Htok. discriminate Htok. Qed.

(** ** Header objects and the headers sent *)

Lemma Object_keys_spec (o : gmap string hval) key :
  key ∈ Object_keys o ↔ is_Some (o !! key).
Proof.
  unfold Object_keys. rewrite list_elem_of_fmap. split.
  - intros [[k v] [-> Hin]]. apply elem_of_map_to_list in Hin. by exists v.
  - intros [v Hv]. exists (key, v). split; [done|]. by apply elem_of_map_to_list.
Qed.


Lemma obj_get_set_eq k v o : obj_get k (obj_set k v o) = Some v.
Proof.
  induction o as [|[k' v'] o IH]; simpl.
  - by rewrite String.eqb_refl.
  - destruct (String.eqb_spec k k') as [->|Hne]; simpl.
    + by rewrite String.eqb_refl.
    + destruct (String.eqb_spec k k'); [done|exact IH].
Qed.

Lemma obj_get_set_ne k k' v o :
  k ≠ k' → obj_get k' (obj_set k v o) = obj_get k' o.
Proof.
  intros Hne. induction o as [|[k0 v0] o IH]; simpl.
  - destruct (String.eqb_spec k' k); [congruence|done].
  - destruct (String.eqb_spec k k0) as [->|Hne0]; simpl.
    + destruct (String.eqb_spec k' k0); [congruence|done].
    + destruct (String.eqb_spec k' k0); [done|exact IH].
Qed.

Lemma obj_get_is_Some k (o : object) : is_Some (obj_get k o) ↔ k ∈ o.*1.
Proof.
  induction o as [|[k' v'] o IH]; simpl.
  - split; [by intros [? ?]|intros H; by apply elem_of_nil in H].
  - rewrite elem_of_cons. destruct (String.eqb_spec k k') as [->|Hne].
    + split; [by left|by eexists].
    + rewrite IH. split; [by right|by intros [?|?]].
Qed.

Lemma obj_get_None k (o : object) : obj_get k o = None ↔ k ∉ o.*1.
Proof.
  rewrite <- obj_get_is_Some. destruct (obj_get k o) as [v|]; split.
  - intros H. discriminate H.
  - intros H. exfalso. apply H. by eexists.
  - intros _ [v Hv]. discriminate Hv.
  - done.
Qed.

Lemma obj_set_fresh k v (o : object) :
  obj_get k o = None → obj_set k v o = (o ++ [(k, v)])%list.
Proof.
  induction o as [|[k' v'] o IH]; simpl; [done|].
  destruct (String.eqb_spec k k'); [done|]. intros H. by rewrite IH.
Qed.

Lemma obj_get_app k (o1 o2 : object) :
  obj_get k (o1 ++ o2) =
    match obj_get k o1 with
    | Some v => Some v
    | None => obj_get k o2
    end.
Proof.
  induction o1 as [|[k' v'] o1 IH]; simpl; [done|].
  by destruct (String.eqb k k').
Qed.

Lemma obj_get_elem k v (o : object) :
  NoDup o.*1 → (k, v) ∈ o → obj_get k o = Some v.
Proof.
  induction o as [|[k' v'] o IH]; intros Hnd Hin.
  - by apply elem_of_nil in Hin.
  - rewrite fmap_cons in Hnd. inversion Hnd as [|k0 l0 Hk Hnd']; subst k0 l0.
    simpl. apply elem_of_cons in Hin as [[= -> ->]|Hin].
    + by rewrite String.eqb_refl.
    + destruct (String.eqb_spec k k') as [->|_]; [|by apply IH].
      exfalso. apply Hk. by apply (list_elem_of_fmap_2' fst _ (k', v)).
Qed.

(** The order of the keys keeps every key. *)
Lemma insert_index_elem k x l : k ∈ insert_index x l ↔ k = x ∨ k ∈ l.
Proof.
  induction l as [|y l IH]; simpl.
  - rewrite list_elem_of_singleton. split; [by left|].
    intros [?|H]; [done|by apply elem_of_nil in H].
  - destruct (index_of x <=? index_of y)%N.
    + by rewrite elem_of_cons.
    + rewrite !elem_of_cons, IH. tauto.
Qed.

Lemma sort_indices_elem k l : k ∈ sort_indices l ↔ k ∈ l.
Proof.
  induction l as [|x l IH]; simpl; [done|].
  by rewrite insert_index_elem, IH, elem_of_cons.
Qed.

Lemma own_keys_elem k (o : object) : k ∈ own_keys o ↔ k ∈ o.*1.
Proof.
  unfold own_keys. rewrite elem_of_app, sort_indices_elem.
  rewrite !list_elem_of_In, !filter_In, <- !list_elem_of_In.
  destruct (is_array_index k); simpl; intuition congruence.
Qed.

Lemma own_keys_app (o inj : object) :
  (∀ k, k ∈ inj.*1 → is_array_index k = false) →
  own_keys (o ++ inj) = (own_keys o ++ inj.*1)%list.
Proof.
  intros Hinj. unfold own_keys. rewrite fmap_app, !List.filter_app.
  assert (List.filter is_array_index inj.*1 = []) as ->.
  { induction inj as [|[k v] inj IH]; [done|]. simpl.
    rewrite (Hinj k) by (simpl; apply list_elem_of_here).
    apply IH. intros k' Hk'. apply Hinj. simpl. by apply list_elem_of_further. }
  assert (List.filter (λ k, negb (is_array_index k)) inj.*1 = inj.*1) as ->.
  { induction inj as [|[k v] inj IH]; [done|]. simpl.
    rewrite (Hinj k) by (simpl; apply list_elem_of_here). simpl. f_equal.
    apply IH. intros k' Hk'. apply Hinj. simpl. by apply list_elem_of_further. }
  by rewrite app_nil_r, app_assoc.
Qed.

Lemma sentHeaders_fold headers :
  sentHeaders headers = foldl (set_from headers) ∅ (own_keys headers).
Proof. reflexivity. Qed.

(** Every header sent is kept under the lower-cased form of its name. *)
Lemma set_from_names headers keys sent0 :
  (∀ n k v, sent0 !! n = Some (k, v) → toLowerCase k = n) →
  ∀ n k v,
    foldl (set_from headers) sent0 keys !! n = Some (k, v) → toLowerCase k = n.
Proof.
  revert sent0. induction keys as [|key keys IH]; intros sent0 Hinv; [exact Hinv|].
  simpl. apply IH. intros n k v. unfold set_from, setHeader.
  destruct (obj_get key headers) as [v'|]; [|apply Hinv].
  destruct (decide (toLowerCase key = n)) as [<-|Hne].
  - rewrite lookup_insert_eq. by intros [= <- <-].
  - rewrite lookup_insert_ne by done. apply Hinv.
Qed.

Lemma sentHeaders_names headers n k v :
  sentHeaders headers !! n = Some (k, v) → toLowerCase k = n.
Proof.
  rewrite sentHeaders_fold. apply set_from_names. intros n' k' v' H.
  by rewrite lookup_empty in H.
Qed.

(** Keys that are lower-case already do not meet: each is sent as it is. *)
Lemma set_from_lowercase headers keys n :
  (∀ k, k ∈ keys → toLowerCase k = k) →
  foldl (set_from headers) ∅ keys !! n =
    if bool_decide (n ∈ keys) then (λ v, (n, v)) <$> obj_get n headers
    else None.
Proof.
  induction keys as [|key keys IH] using rev_ind; intros Hlow.
  - cbn [foldl]. rewrite lookup_empty.
    case_bool_decide as Hin; [by apply elem_of_nil in Hin|done].
  - rewrite foldl_app. simpl. unfold set_from at 1, setHeader.
    assert (toLowerCase key = key) as Hkey.
    { apply Hlow. rewrite elem_of_app, list_elem_of_singleton. by right. }
    assert (∀ k, k ∈ keys → toLowerCase k = k) as Hlow'.
    { intros k Hk. apply Hlow. rewrite elem_of_app. by left. }
    specialize (IH Hlow').
    destruct (decide (n = key)) as [->|Hne].
    + rewrite (bool_decide_eq_true_2 (key ∈ (keys ++ [key])%list))
        by (rewrite elem_of_app, list_elem_of_singleton; by right).
      destruct (obj_get key headers) as [v|] eqn:Hv.
      * by rewrite Hkey, lookup_insert_eq.
      * rewrite IH. by case_bool_decide.
    + assert (bool_decide (n ∈ (keys ++ [key])%list) = bool_decide (n ∈ keys))
        as ->.
      { apply bool_decide_ext. rewrite elem_of_app, list_elem_of_singleton.
        tauto. }
      destruct (obj_get key headers) as [v|]; [|exact IH].
      rewrite Hkey, lookup_insert_ne by done. exact IH.
Qed.

Lemma sentHeaders_lowercase (headers : object) n :
  (∀ k, k ∈ headers.*1 → toLowerCase k = k) →
  sentHeaders headers !! n = (λ v, (n, v)) <$> obj_get n headers.
Proof.
  intros Hlow. rewrite sentHeaders_fold, set_from_lowercase.
  - case_bool_decide as Hin; [done|].
    rewrite own_keys_elem in Hin. apply obj_get_None in Hin. by rewrite Hin.
  - intros k Hk. apply Hlow. by apply own_keys_elem.
Qed.

(** Keys set last, none of them an array index or a key of the object so
    far, are sent last, in their order. *)
Lemma sentHeaders_app (o inj : object) :
  (∀ k, k ∈ inj.*1 → is_array_index k = false) →
  (∀ k, k ∈ inj.*1 → k ∉ o.*1) →
  NoDup inj.*1 →
  sentHeaders (o ++ inj) =
    foldl (λ sent entry, setHeader entry.1 entry.2 sent) (sentHeaders o) inj.
Proof.
  intros Hidx Hfresh Hnd.
  rewrite !sentHeaders_fold, own_keys_app, foldl_app by done.
  assert (foldl (set_from (o ++ inj)) ∅ (own_keys o) =
            foldl (set_from o) ∅ (own_keys o)) as ->.
  { assert (∀ k, k ∈ own_keys o → set_from (o ++ inj) = set_from (o ++ inj))
      by done.
    assert (∀ keys sent0, (∀ k, k ∈ keys → k ∈ o.*1) →
              foldl (set_from (o ++ inj)) sent0 keys =
                foldl (set_from o) sent0 keys) as Hext.
    { induction keys as [|k keys IH]; intros sent0 Hk; [done|]. simpl.
      assert (set_from (o ++ inj) sent0 k = set_from o sent0 k) as ->.
      { unfold set_from. rewrite obj_get_app.
        destruct (proj2 (obj_get_is_Some k o)) as [v ->]; [|done].
        apply Hk, list_elem_of_here. }
      apply IH. intros k' Hk'. apply Hk. by apply list_elem_of_further. }
    apply Hext. intros k Hk. by apply own_keys_elem. }
  assert (∀ k v, (k, v) ∈ inj → obj_get k (o ++ inj) = Some v) as Hget.
  { intros k v Hin. rewrite obj_get_app.
    assert (obj_get k o = None) as ->.
    { apply obj_get_None, Hfresh. by apply (list_elem_of_fmap_2' fst _ (k, v)). }
    by apply obj_get_elem. }
  generalize (foldl (set_from o) ∅ (own_keys o)). revert Hget.
  generalize (o ++ inj)%list. intros obj. clear.
  induction inj as [|[k v] inj IH]; intros Hget sent0; [done|]. simpl.
  unfold set_from at 2. rewrite (Hget k v) by apply list_elem_of_here.
  apply IH. intros k' v' Hin. apply Hget. by apply list_elem_of_further.
Qed.

(** A name spelled once in an object is counted once. *)
Lemma count_in_nodup (name : string) (keys : list string) :
  NoDup keys → name ∈ keys →
  List.length (List.filter (String.eqb name) keys) = 1%nat.
Proof.
  induction keys as [|k keys IH]; intros Hnd Hin.
  - by apply elem_of_nil in Hin.
  - inversion Hnd as [|k0 keys0 Hk Hnd']; subst k0 keys0. simpl.
    destruct (String.eqb_spec name k) as [->|Hne].
    + simpl. f_equal.
      assert (List.filter (String.eqb k) keys = []) as ->; [|done].
      clear IH Hin Hnd Hnd'. induction keys as [|k' keys IH]; [done|].
      apply not_elem_of_cons in Hk as [Hne Hk]. simpl.
      destruct (String.eqb_spec k k'); [done|]. by apply IH.
    + apply IH; [done|]. apply elem_of_cons in Hin as [?|?]; done.
Qed.

(** How often a name occurs among the headers sent: once if a header is
    kept under its lower-cased form, not at all otherwise. *)
Lemma count_named_lookup name r :
  count_named name r =
    match sent r !! toLowerCase name with
    | Some _ => 1%nat
    | None => 0%nat
    end.
Proof.
  unfold count_named, sent_names.
  pose proof (NoDup_fst_map_to_list (sent r)) as Hnd.
  assert (∀ e, e ∈ map_to_list (sent r) → toLowerCase e.2.1 = e.1) as Hnames.
  { intros [n [k v]] Hin. apply elem_of_map_to_list in Hin. simpl.
    by apply (sentHeaders_names (headers r) n k v). }
  assert (is_Some (sent r !! toLowerCase name) ↔
            toLowerCase name ∈ (map_to_list (sent r)).*1) as Hdom.
  { rewrite list_elem_of_fmap. split.
    - intros [kv Hkv]. exists (toLowerCase name, kv). split; [done|].
      by apply elem_of_map_to_list.
    - intros [[n kv] [Heq Hin]]. simpl in Heq. subst n.
      apply elem_of_map_to_list in Hin. by eexists. }
  revert Hnd Hnames Hdom. generalize (map_to_list (sent r)).
  generalize (toLowerCase name). intros c l Hnd Hnames Hdom.
  assert (List.length
            (List.filter (λ n, String.eqb (toLowerCase n) c) (l.*2).*1) =
          List.length (List.filter (String.eqb c) l.*1)) as ->.
  { clear Hnd Hdom. induction l as [|e l IH]; [done|]. simpl.
    rewrite (Hnames e) by apply list_elem_of_here.
    rewrite (String.eqb_sym e.1 c).
    destruct (String.eqb c e.1); simpl; [f_equal|];
      apply IH; intros e' He'; apply Hnames; by apply list_elem_of_further. }
  destruct (sent r !! c) as [kv|] eqn:Hc.
  - apply count_in_nodup; [done|]. apply Hdom. by eexists.
  - assert (c ∉ l.*1) as Hnot by (intros Hin; apply Hdom in Hin; by destruct Hin).
    clear -Hnot. induction (l.*1) as [|k ks IH]; [done|].
    apply not_elem_of_cons in Hnot as [Hne Hnot]. simpl.
    destruct (String.eqb_spec c k); [done|]. by apply IH.
Qed.

(** ** Header rewriting *)

Lemma keep_spec key :
  keep key = true ↔
  toLowerCase key ∉
    ["proxy-connection"; "transfer-encoding"; "host"; "authorization"].
Proof.
  unfold keep. cbv zeta.
  rewrite !andb_true_iff, !negb_true_iff, !String.eqb_neq.
  rewrite !not_elem_of_cons. split.
  - intros [[[? ?] ?] ?]. repeat split; auto. apply not_elem_of_nil.
  - intros (? & ? & ? & ? & _). auto.
Qed.

(** The copy loop, one key at a time. *)
Lemma foldl_copy_header inbound keys acc key :
  obj_get key (foldl (copy_header inbound) acc keys) =
    if bool_decide (key ∈ keys) && keep key then
      match inbound !! key with
      | Some v => Some v
      | None => obj_get key acc
      end
    else obj_get key acc.
Proof.
  revert acc. induction keys as [|k keys IH]; intros acc; [reflexivity|].
  simpl. rewrite IH. clear IH. unfold copy_header.
  destruct (decide (key = k)) as [->|Hne].
  - rewrite (bool_decide_eq_true_2 (k ∈ k :: keys)) by apply list_elem_of_here.
    destruct (keep k), (inbound !! k) as [v|] eqn:Hv,
      (bool_decide (k ∈ keys)); simpl; rewrite ?Hv, ?obj_get_set_eq;
      reflexivity.
  - assert (bool_decide (key ∈ k :: keys) = bool_decide (key ∈ keys)) as ->.
    { apply bool_decide_ext. rewrite elem_of_cons. tauto. }
    destruct (keep k), (inbound !! k) as [v|];
      rewrite ?obj_get_set_ne by done; reflexivity.
Qed.

(** The copy loop yields the inbound headers whose lower-cased name is not
    one of the four. *)
Lemma copyHeaders_get inbound key :
  obj_get key (copyHeaders inbound) =
    if keep key then inbound !! key else None.
Proof.
  unfold copyHeaders. rewrite foldl_copy_header. simpl.
  destruct (keep key); [|by rewrite andb_false_r].
  rewrite andb_true_r. case_bool_decide as Hin.
  - by destruct (inbound !! key).
  - destruct (inbound !! key) eqn:Hv; [|done].
    exfalso. apply Hin, Object_keys_spec. by eexists.
Qed.

Lemma copyHeaders_lowercase inbound k :
  lowercase_names inbound → k ∈ (copyHeaders inbound).*1 → toLowerCase k = k.
Proof.
  intros Hlow Hk. apply obj_get_is_Some in Hk. rewrite copyHeaders_get in Hk.
  destruct (keep k); [by apply Hlow|by destruct Hk].
Qed.

(** A name with a capital letter is none of the inbound names. *)
Lemma lowercase_names_absent inbound key :
  lowercase_names inbound → toLowerCase key ≠ key → inbound !! key = None.
Proof.
  intros Hlow Hne. destruct (inbound !! key) eqn:Hk; [|done].
  exfalso. apply Hne, Hlow. by eexists.
Qed.

(** The four keys set after the loop come last in the header object. *)
Lemma outboundHeaders_app proxyConfig token inbound :
  lowercase_names inbound →
  outboundHeaders proxyConfig token inbound =
    (copyHeaders inbound ++
     [ ("Host", HStr (targetHost proxyConfig));
       ("Cookie", HStr (template (cookieName proxyConfig) ++ "=" ++ token));
       ("X-ClickHouse-User", HStr (clickhouseUsername proxyConfig));
       ("X-ClickHouse-Key", HStr (clickhousePassword proxyConfig)) ])%list.
Proof.
  intros Hlow. unfold outboundHeaders. cbv zeta.
  assert (∀ key, toLowerCase key ≠ key →
            obj_get key (copyHeaders inbound) = None) as Hnone.
  { intros key Hne. rewrite copyHeaders_get.
    rewrite (lowercase_names_absent inbound key Hlow Hne).
    by destruct (keep key). }
  rewrite (obj_set_fresh "Host") by by apply Hnone.
  rewrite (obj_set_fresh "Cookie")
    by (rewrite obj_get_app, Hnone by done; reflexivity).
  rewrite (obj_set_fresh "X-ClickHouse-User")
    by (rewrite !obj_get_app, Hnone by done; reflexivity).
  rewrite (obj_set_fresh "X-ClickHouse-Key")
    by (rewrite !obj_get_app, Hnone by done; reflexivity).
  by rewrite <- !app_assoc.
Qed.

(** The headers sent: the four set after the loop, and under every other
    name the inbound header of that name unless the loop left it out. *)
Lemma sent_outboundHeaders proxyConfig token inbound :
  lowercase_names inbound →
  sentHeaders (outboundHeaders proxyConfig token inbound) !! "host" =
    Some ("Host", HStr (targetHost proxyConfig)) ∧
  sentHeaders (outboundHeaders proxyConfig token inbound) !! "cookie" =
    Some ("Cookie", HStr (template (cookieName proxyConfig) ++ "=" ++ token)) ∧
  sentHeaders (outboundHeaders proxyConfig token inbound) !! "x-clickhouse-user" =
    Some ("X-ClickHouse-User", HStr (clickhouseUsername proxyConfig)) ∧
  sentHeaders (outboundHeaders proxyConfig token inbound) !! "x-clickhouse-key" =
    Some ("X-ClickHouse-Key", HStr (clickhousePassword proxyConfig)) ∧
  ∀ name,
    name ∉ ["host"; "cookie"; "x-clickhouse-user"; "x-clickhouse-key"] →
    sentHeaders (outboundHeaders proxyConfig token inbound) !! name =
      if keep name then (λ v, (name, v)) <$> inbound !! name else None.
Proof.
  intros Hlow. rewrite (outboundHeaders_app proxyConfig token inbound Hlow).
  rewrite sentHeaders_app.
  - simpl. unfold setHeader. simpl.
    split; [by rewrite !lookup_insert_ne, lookup_insert_eq by done|].
    split; [by rewrite !lookup_insert_ne, lookup_insert_eq by done|].
    split; [by rewrite !lookup_insert_ne, lookup_insert_eq by done|].
    split; [by rewrite lookup_insert_eq|].
    intros name Hname. rewrite !not_elem_of_cons in Hname.
    destruct Hname as (? & ? & ? & ? & _).
    rewrite !lookup_insert_ne by done.
    rewrite sentHeaders_lowercase
      by (intros k Hk; by apply (copyHeaders_lowercase inbound)).
    rewrite copyHeaders_get. by destruct (keep name).
  - intros k Hk. simpl in Hk. rewrite !elem_of_cons in Hk.
    destruct Hk as [->|[->|[->|[->|Hk]]]]; try reflexivity.
    by apply elem_of_nil in Hk.
  - intros k Hk Hin. apply (copyHeaders_lowercase inbound k Hlow) in Hin.
    simpl in Hk. rewrite !elem_of_cons in Hk.
    destruct Hk as [->|[->|[->|[->|Hk]]]]; try discriminate Hin.
    by apply elem_of_nil in Hk.
  - simpl. apply (bool_decide_unpack _). by vm_compute.
Qed.

(** ** The token fetch and the cache over time *)

(** Without a cache duration no stored token is ever valid: after a call
    that missed, the next call misses as well. *)
Lemma getToken_no_duration_next_miss shell proxyConfig now w now' :
  tokenCacheDurationMs proxyConfig = None →
  cache_miss now w →
  cache_miss now' (getToken shell proxyConfig now w).2.
Proof.
  intros Hd Hmiss. pose proof (cache_miss_test _ _ Hmiss) as Htest.
  destruct (fetch_outcome
              (shell (List.length (execLog w))
                 (token_command (cloudflaredAppUrl proxyConfig))))
    as [Hf|[token Hs]].
  - rewrite (getToken_miss_failure shell proxyConfig now w Htest Hf). by left.
  - rewrite (getToken_miss_success shell proxyConfig now w token Htest Hs).
    right. simpl. rewrite Hd. simpl. discriminate.
Qed.

Lemma getToken_miss_log shell proxyConfig now w :
  cache_miss now w →
  execLog (getToken shell proxyConfig now w).2 =
    (execLog w ++ [token_command (cloudflaredAppUrl proxyConfig)])%list.
Proof.
  intros Hmiss. pose proof (cache_miss_test _ _ Hmiss) as Htest.
  destruct (fetch_outcome
              (shell (List.length (execLog w))
                 (token_command (cloudflaredAppUrl proxyConfig))))
    as [Hf|[token Hs]].
  - by rewrite (getToken_miss_failure shell proxyConfig now w Htest Hf).
  - by rewrite (getToken_miss_success shell proxyConfig now w token Htest Hs).
Qed.

(** [getToken] seen from a clean cache. *)
Lemma getToken_clean shell proxyConfig now w :
  cache_clean w →
  ∃ r w',
    getToken shell proxyConfig now w = (inr r, w') ∧
    cache_clean w' ∧
    (∀ token, r = Some token → clean token) ∧
    clientRes w' = clientRes w ∧ upstream w' = upstream w ∧
    (execLog w' = execLog w ∨
     execLog w' =
       (execLog w ++ [token_command (cloudflaredAppUrl proxyConfig)])%list).
Proof.
  intros Hclean.
  destruct (truthy_opt (cachedToken w) && lt (Num now) (tokenExpiry w))
    eqn:Htest.
  - exists (cachedToken w), w. unfold getToken, bind, get. rewrite Htest.
    split; [reflexivity|]. split; [exact Hclean|].
    split; [intros t Ht; by apply Hclean|]. auto.
  - destruct (fetch_outcome
                (shell (List.length (execLog w))
                   (token_command (cloudflaredAppUrl proxyConfig))))
      as [Hf|[token Hs]].
    + eexists _, _. split; [by apply getToken_miss_failure|].
      split; [intros t Ht; discriminate Ht|].
      split; [intros t Ht; discriminate Ht|]. auto.
    + eexists _, _. split; [by apply getToken_miss_success|].
      pose proof (fetch_success_clean _ _ Hs) as Hc.
      split; [intros t [= <-]; exact Hc|].
      split; [intros t [= <-]; exact Hc|]. auto.
Qed.

(** X1. [getToken] never throws: whatever the command does, the call
    returns a token or [null]; it runs at most one command, the token fetch,
    and touches neither the response to the client nor the requests towards
    the upstream. *)
Theorem getToken_never_throws shell proxyConfig now w :
  (∃ r, (getToken shell proxyConfig now w).1 = inr r) ∧
  (execLog (getToken shell proxyConfig now w).2 = execLog w ∨
   execLog (getToken shell proxyConfig now w).2 =
     (execLog w ++ [token_command (cloudflaredAppUrl proxyConfig)])%list) ∧
  clientRes (getToken shell proxyConfig now w).2 = clientRes w ∧
  upstream (getToken shell proxyConfig now w).2 = upstream w.
Proof.
  destruct (getToken_returns shell proxyConfig now w)
    as (r & w' & -> & Hres & Hup & Hlog & _).
  simpl. split; [by exists r|]. auto.
Qed.

(** X2. Whatever [fetchToken] returns as a token is the trimmed standard
    output of a command that exited with code zero and wrote nothing to its
    error stream; it is not empty and has no white space at either end. *)
Theorem fetchToken_token_is_trimmed_output shell appUrl w token w' :
  fetchToken shell appUrl w = (inr token, w') →
  ∃ stdout,
    shell (List.length (execLog w)) (token_command appUrl) = Resolved stdout "" ∧
    token = trim stdout ∧
    clean token ∧
    execLog w' = (execLog w ++ [token_command appUrl])%list.
Proof.
  unfold fetchToken, try_catch, bind, execPromise, throw, ret. cbv zeta.
  destruct (shell (List.length (execLog w)) (token_command appUrl))
    as [out err|e]; [|intros H; discriminate H].
  destruct (truthy err) eqn:Herr; [intros H; discriminate H|].
  destruct (truthy (trim out)) eqn:Hout; simpl; [|intros H; discriminate H].
  intros [= <- <-]. apply truthy_false in Herr as ->.
  assert (trim out ≠ "") as Hne by by apply truthy_true.
  exists out. split; [reflexivity|]. split; [reflexivity|].
  split; [by apply trim_clean|reflexivity].
Qed.

(** X3. The cache never holds, and [getToken] never returns, an empty token
    or one with white space around it: from a clean cache the cache stays
    clean and a returned token is clean. *)
Theorem getToken_keeps_cache_clean shell proxyConfig now w :
  cache_clean w →
  cache_clean (getToken shell proxyConfig now w).2 ∧
  ∀ token,
    (getToken shell proxyConfig now w).1 = inr (Some token) → clean token.
Proof.
  intros Hclean.
  destruct (getToken_clean shell proxyConfig now w Hclean)
    as (r & w' & -> & Hc' & Hr & _).
  simpl. split; [exact Hc'|]. intros token [= ->]. by apply Hr.
Qed.

(** X4. A token fetched at time [now] under a cache duration [d] is served
    from the cache, without a command, by every later call made strictly
    before [now + d]. *)
Theorem token_served_within_window shell proxyConfig now now' w d token :
  tokenCacheDurationMs proxyConfig = Some d →
  cache_miss now w →
  fetch_success
    (shell (List.length (execLog w))
       (token_command (cloudflaredAppUrl proxyConfig))) token →
  (now' < now + d)%Z →
  getToken shell proxyConfig now' (getToken shell proxyConfig now w).2 =
    (inr (Some token), (getToken shell proxyConfig now w).2).
Proof.
  intros Hd Hmiss Hs Hlt.
  pose proof (cache_miss_test _ _ Hmiss) as Htest.
  rewrite (getToken_miss_success shell proxyConfig now w token Htest Hs).
  apply (getToken_hit shell proxyConfig now' _ token (now + d)%Z).
  - unfold cache_inv. simpl. intros [= ->]. inversion Hs; congruence.
  - reflexivity.
  - simpl. by rewrite Hd.
  - exact Hlt.
Qed.

(** X5. The expiry is exclusive: a call made at [now + d] or later, [d]
    being the cache duration and [now] the time of the fetch, does not use
    the cached token but runs the fetch again. *)
Theorem token_refetched_from_expiry shell proxyConfig now now' w d token :
  tokenCacheDurationMs proxyConfig = Some d →
  cache_miss now w →
  fetch_success
    (shell (List.length (execLog w))
       (token_command (cloudflaredAppUrl proxyConfig))) token →
  (now + d ≤ now')%Z →
  execLog
    (getToken shell proxyConfig now' (getToken shell proxyConfig now w).2).2 =
    (execLog w ++
     [ token_command (cloudflaredAppUrl proxyConfig);
       token_command (cloudflaredAppUrl proxyConfig) ])%list.
Proof.
  intros Hd Hmiss Hs Hle.
  pose proof (cache_miss_test _ _ Hmiss) as Htest.
  rewrite (getToken_miss_success shell proxyConfig now w token Htest Hs).
  rewrite getToken_miss_log.
  - simpl. by rewrite <- app_assoc.
  - right. simpl. rewrite Hd. simpl. intros e [= <-]. exact Hle.
Qed.

(** ** The headers that go out *)

Lemma set_from_mem headers keys sent0 n k v :
  foldl (set_from headers) sent0 keys !! n = Some (k, v) →
  sent0 !! n = Some (k, v) ∨ (k ∈ keys ∧ obj_get k headers = Some v).
Proof.
  revert sent0. induction keys as [|key keys IH]; intros sent0 H; [by left|].
  simpl in H. apply IH in H as [H|[? ?]].
  - unfold set_from in H. destruct (obj_get key headers) as [v'|] eqn:Hv.
    + unfold setHeader in H.
      apply lookup_insert_Some in H as [[_ [= <- <-]]|[_ H]].
      * right. split; [apply list_elem_of_here|done].
      * by left.
    + by left.
  - right. split; [by apply list_elem_of_further|done].
Qed.

Lemma set_from_defined headers keys sent0 k :
  is_Some (sent0 !! toLowerCase k) ∨
    (k ∈ keys ∧ is_Some (obj_get k headers)) →
  is_Some (foldl (set_from headers) sent0 keys !! toLowerCase k).
Proof.
  revert sent0. induction keys as [|key keys IH]; intros sent0 H.
  - destruct H as [H|[H _]]; [done|]. by apply elem_of_nil in H.
  - simpl. apply IH. destruct H as [H|[Hin Hv]].
    + left. unfold set_from. destruct (obj_get key headers); [|done].
      unfold setHeader. rewrite lookup_insert_is_Some'. by right.
    + apply elem_of_cons in Hin as [->|Hin]; [|by right].
      left. unfold set_from. destruct Hv as [v ->].
      unfold setHeader. by rewrite lookup_insert_eq.
Qed.

(** A header whose name, in any letter case, is given by no key is not
    sent; one whose name is given by a single key is sent as that key has
    it. *)
Lemma sentHeaders_none (headers : object) n :
  (∀ k, k ∈ headers.*1 → toLowerCase k ≠ n) → sentHeaders headers !! n = None.
Proof.
  intros Hno. destruct (sentHeaders headers !! n) as [[k v]|] eqn:Hs; [|done].
  exfalso. pose proof (sentHeaders_names _ _ _ _ Hs) as Hk.
  rewrite sentHeaders_fold in Hs.
  apply set_from_mem in Hs as [Hs|[Hin _]]; [by rewrite lookup_empty in Hs|].
  apply own_keys_elem in Hin. by apply (Hno k).
Qed.

Lemma sentHeaders_only (headers : object) k0 v0 :
  obj_get k0 headers = Some v0 →
  (∀ k, k ∈ headers.*1 → toLowerCase k = toLowerCase k0 → k = k0) →
  sentHeaders headers !! toLowerCase k0 = Some (k0, v0).
Proof.
  intros Hget Honly.
  assert (is_Some (sentHeaders headers !! toLowerCase k0)) as [[k v] Hs].
  { rewrite sentHeaders_fold. apply set_from_defined. right.
    split; [|by eexists]. apply own_keys_elem, obj_get_is_Some. by eexists. }
  pose proof (sentHeaders_names _ _ _ _ Hs) as Hk.
  rewrite Hs. rewrite sentHeaders_fold in Hs.
  apply set_from_mem in Hs as [Hs|[Hin Hv]]; [by rewrite lookup_empty in Hs|].
  apply own_keys_elem in Hin. apply (Honly k Hin) in Hk as ->. congruence.
Qed.

Lemma outboundHeaders_get_other proxyConfig token inbound key :
  key ∉ ["Host"; "Cookie"; "X-ClickHouse-User"; "X-ClickHouse-Key"] →
  obj_get key (outboundHeaders proxyConfig token inbound) =
    if keep key then inbound !! key else None.
Proof.
  rewrite !not_elem_of_cons. intros (? & ? & ? & ? & _).
  unfold outboundHeaders. cbv zeta.
  rewrite !obj_get_set_ne by done. apply copyHeaders_get.
Qed.

Lemma outboundHeaders_get_Host proxyConfig token inbound :
  obj_get "Host" (outboundHeaders proxyConfig token inbound) =
    Some (HStr (targetHost proxyConfig)).
Proof.
  unfold outboundHeaders. cbv zeta.
  rewrite !(obj_get_set_ne _ "Host") by done. apply obj_get_set_eq.
Qed.

(** The keys of the header object: the four set after the loop, and keys
    the loop let through. *)
Lemma outboundHeaders_keys proxyConfig token inbound key :
  key ∈ (outboundHeaders proxyConfig token inbound).*1 →
  key ∈ ["Host"; "Cookie"; "X-ClickHouse-User"; "X-ClickHouse-Key"] ∨
  keep key = true.
Proof.
  intros Hin.
  destruct (decide (key ∈ ["Host"; "Cookie"; "X-ClickHouse-User";
                           "X-ClickHouse-Key"])) as [|Hni]; [by left|].
  right. apply obj_get_is_Some in Hin.
  rewrite (outboundHeaders_get_other _ _ _ _ Hni) in Hin.
  destruct (keep key); [done|]. by destruct Hin.
Qed.

(** Whatever the inbound names look like, no header named Proxy-Connection,
    Transfer-Encoding or Authorization is sent, and the Host header sent is
    the one set after the loop. *)
Lemma sent_outboundHeaders_stripped proxyConfig token inbound :
  sentHeaders (outboundHeaders proxyConfig token inbound)
    !! "proxy-connection" = None ∧
  sentHeaders (outboundHeaders proxyConfig token inbound)
    !! "transfer-encoding" = None ∧
  sentHeaders (outboundHeaders proxyConfig token inbound)
    !! "authorization" = None ∧
  sentHeaders (outboundHeaders proxyConfig token inbound) !! "host" =
    Some ("Host", HStr (targetHost proxyConfig)).
Proof.
  assert (∀ key n,
            n ∈ ["proxy-connection"; "transfer-encoding"; "host";
                 "authorization"] →
            key ∈ (outboundHeaders proxyConfig token inbound).*1 →
            toLowerCase key = n → key = "Host") as Hkey.
  { intros key n Hn Hin Hlow.
    destruct (outboundHeaders_keys _ _ _ _ Hin) as [Hinj|Hkeep].
    - rewrite !elem_of_cons in Hinj.
      destruct Hinj as [->|[->|[->|[->|Hnil]]]];
        [done| | | |by apply elem_of_nil in Hnil];
        exfalso; subst n; revert Hn; rewrite !elem_of_cons;
        intros [?|[?|[?|[?|Hnil]]]]; try discriminate;
        by apply elem_of_nil in Hnil.
    - exfalso. apply keep_spec in Hkeep. apply Hkeep. by rewrite Hlow. }
  assert (∀ n,
            n ∈ ["proxy-connection"; "transfer-encoding"; "host";
                 "authorization"] →
            n ≠ "host" →
            sentHeaders (outboundHeaders proxyConfig token inbound) !! n = None)
    as Hnone.
  { intros n Hn Hne. apply sentHeaders_none. intros key Hin Hlow.
    pose proof (Hkey key n Hn Hin Hlow) as ->. apply Hne. by rewrite <- Hlow. }
  split; [apply Hnone; [|done]; rewrite !elem_of_cons; tauto|].
  split; [apply Hnone; [|done]; rewrite !elem_of_cons; tauto|].
  split; [apply Hnone; [|done]; rewrite !elem_of_cons; tauto|].
  apply (sentHeaders_only _ "Host"); [apply outboundHeaders_get_Host|].
  intros key Hin Hlow. apply (Hkey key "host"); [|done..].
  rewrite !elem_of_cons. tauto.
Qed.

Lemma lowercase_names_empty : lowercase_names ∅.
Proof. intros key [v Hv]. by rewrite lookup_empty in Hv. Qed.

Lemma lowercase_names_insert key v inbound :
  toLowerCase key = key → lowercase_names inbound →
  lowercase_names (<[key := v]> inbound).
Proof.
  intros Hkey Hlow k Hk. apply lookup_insert_is_Some in Hk as [<-|[_ Hk]];
    [done|by apply Hlow].
Qed.

(** ** The request listener *)

Lemma to_int32_small n :
  (-2147483648 ≤ n < 2147483648)%Z → to_int32 n = n.
Proof. intros Hn. unfold to_int32. rewrite Z.mod_small by lia. lia. Qed.

Lemma writeHead_sends status hs w :
  headersSent (clientRes w) = false →
  (100 ≤ status ≤ 999)%Z →
  writeHead status hs w =
    (inr (),
     {| cachedToken := cachedToken w; tokenExpiry := tokenExpiry w;
        execLog := execLog w;
        clientRes := {| headersSent := true; statusCode := status;
                        resHeaders := hs; written := written (clientRes w);
                        finished := finished (clientRes w) |};
        upstream := upstream w |}).
Proof.
  intros Hhead Hrange. unfold writeHead. cbv zeta. rewrite Hhead.
  rewrite to_int32_small by lia.
  assert ((status <? 100)%Z = false) as -> by (apply Z.ltb_ge; lia).
  assert ((999 <? status)%Z = false) as -> by (apply Z.ltb_ge; lia).
  reflexivity.
Qed.

Lemma writeHead_refuses status hs w :
  headersSent (clientRes w) = false →
  (0 ≤ status < 100)%Z →
  writeHead status hs w =
    (inl (RangeError ("Invalid status code: " ++ pretty status)), w).
Proof.
  intros Hhead Hrange. unfold writeHead. cbv zeta. rewrite Hhead.
  rewrite to_int32_small by lia.
  assert ((status <? 100)%Z = true) as -> by (apply Z.ltb_lt; lia).
  reflexivity.
Qed.

Lemma writeHead_frame status hs w : same_but_response w (writeHead status hs w).2.
Proof.
  unfold writeHead, set_clientRes. cbv zeta.
  destruct (headersSent (clientRes w)); [by repeat split|].
  destruct ((to_int32 status <? 100)%Z || (999 <? to_int32 status)%Z);
    by repeat split.
Qed.

Lemma end_frame data w : same_but_response w (end_ data w).2.
Proof.
  unfold end_, set_clientRes. cbv zeta.
  destruct (finished (clientRes w)); by repeat split.
Qed.

Lemma same_but_response_trans w1 w2 w3 :
  same_but_response w1 w2 → same_but_response w2 w3 → same_but_response w1 w3.
Proof.
  intros (? & ? & ? & ?) (? & ? & ? & ?). repeat split; congruence.
Qed.

Lemma abort_frame w : same_but_response w (abort w).2.
Proof.
  unfold abort, bind.
  pose proof (writeHead_frame 500 text_plain w) as H1.
  destruct (writeHead 500 text_plain w) as [[e|u] w1]; simpl in *; [exact H1|].
  apply (same_but_response_trans _ w1); [exact H1|apply end_frame].
Qed.

Lemma onResponse_frame proxyRes w : same_but_response w (onResponse proxyRes w).2.
Proof. apply writeHead_frame. Qed.

Lemma onError_frame err w : same_but_response w (onError err w).2.
Proof.
  unfold onError, bind, get.
  destruct (negb (headersSent (clientRes w))).
  - pose proof (writeHead_frame 502 text_plain w) as H1.
    destruct (writeHead 502 text_plain w) as [[e|u] w1]; simpl in *; [exact H1|].
    apply (same_but_response_trans _ w1); [exact H1|apply end_frame].
  - unfold ret. apply end_frame.
Qed.

(** The 500 of the listener on a response nothing was written to. *)
Lemma abort_fresh w :
  headersSent (clientRes w) = false → finished (clientRes w) = false →
  abort w =
    (inr (),
     {| cachedToken := cachedToken w; tokenExpiry := tokenExpiry w;
        execLog := execLog w;
        clientRes :=
          {| headersSent := true; statusCode := 500;
             resHeaders := {["Content-Type" := HStr "text/plain"]};
             written :=
               (written (clientRes w) ++
                ["Internal Server Error: Could not obtain authorization token."])%list;
             finished := true |};
        upstream := upstream w |}).
Proof.
  intros Hhead Hfin. unfold abort, bind.
  rewrite writeHead_sends by (done || lia).
  unfold end_, set_clientRes. simpl. rewrite Hfin. reflexivity.
Qed.

Section HandlerFacts.

Variable shell : nat → string → ExecResult.
Variable refuses : ClientRequest → option Exn.
Variable proxyConfig : ProxyConfig.

Lemma afterToken_forward clientReq token w :
  token ≠ "" →
  refuses (forwarded proxyConfig token clientReq) = None →
  afterToken refuses proxyConfig clientReq (Some token) w =
    (inr (),
     {| cachedToken := cachedToken w; tokenExpiry := tokenExpiry w;
        execLog := execLog w; clientRes := clientRes w;
        upstream :=
          (upstream w ++ [forwarded proxyConfig token clientReq])%list |}).
Proof.
  intros Hne Hok. apply truthy_true in Hne.
  unfold afterToken, https_request, forwarded in *. rewrite Hne. simpl.
  by rewrite Hok.
Qed.

Lemma afterToken_refused clientReq token err w :
  token ≠ "" →
  refuses (forwarded proxyConfig token clientReq) = Some err →
  afterToken refuses proxyConfig clientReq (Some token) w = (inl err, w).
Proof.
  intros Hne Hno. apply truthy_true in Hne.
  unfold afterToken, https_request, forwarded in *. rewrite Hne. simpl.
  by rewrite Hno.
Qed.

Lemma afterToken_no_token clientReq cfToken w :
  cfToken = None ∨ cfToken = Some "" →
  afterToken refuses proxyConfig clientReq cfToken w = abort w.
Proof. by intros [->| ->]. Qed.

(** What the listener leaves behind once it holds the answer of
    [getToken]: the cache and the commands as they were, and at most one
    more outbound request, the forwarded one. *)
Lemma afterToken_world clientReq cfToken w :
  cachedToken (afterToken refuses proxyConfig clientReq cfToken w).2 =
    cachedToken w ∧
  tokenExpiry (afterToken refuses proxyConfig clientReq cfToken w).2 =
    tokenExpiry w ∧
  execLog (afterToken refuses proxyConfig clientReq cfToken w).2 = execLog w ∧
  (upstream (afterToken refuses proxyConfig clientReq cfToken w).2 = upstream w ∨
   ∃ token,
     cfToken = Some token ∧ token ≠ "" ∧
     upstream (afterToken refuses proxyConfig clientReq cfToken w).2 =
       (upstream w ++ [forwarded proxyConfig token clientReq])%list).
Proof.
  assert (∀ tok, tok = None ∨ tok = Some "" →
            cachedToken (afterToken refuses proxyConfig clientReq tok w).2 =
              cachedToken w ∧
            tokenExpiry (afterToken refuses proxyConfig clientReq tok w).2 =
              tokenExpiry w ∧
            execLog (afterToken refuses proxyConfig clientReq tok w).2 =
              execLog w ∧
            upstream (afterToken refuses proxyConfig clientReq tok w).2 =
              upstream w) as Habort.
  { intros tok Htok. rewrite (afterToken_no_token clientReq tok w Htok).
    destruct (abort_frame w) as (? & ? & ? & ?). auto. }
  destruct cfToken as [token|].
  - destruct (decide (token = "")) as [->|Hne].
    + destruct (Habort (Some "")) as (? & ? & ? & ?); auto.
    + destruct (refuses (forwarded proxyConfig token clientReq)) as [err|] eqn:Hr.
      * rewrite (afterToken_refused clientReq token err w Hne Hr). auto.
      * rewrite (afterToken_forward clientReq token w Hne Hr). simpl.
        repeat (split; [reflexivity|]). right. by exists token.
  - destruct (Habort None) as (? & ? & ? & ?); auto.
Qed.

Lemma requestListener_unfold now clientReq w cfToken w1 :
  getToken shell proxyConfig now w = (inr cfToken, w1) →
  requestListener shell refuses proxyConfig now clientReq w =
    afterToken refuses proxyConfig clientReq cfToken w1.
Proof. intros Hget. unfold requestListener, bind. by rewrite Hget. Qed.

(** A request went out: then [getToken] gave a token that is not empty,
    Node took the request, and the listener returned. *)
Lemma requestListener_forwarded now clientReq w r :
  upstream (requestListener shell refuses proxyConfig now clientReq w).2 =
    (upstream w ++ [r])%list →
  ∃ token w1,
    getToken shell proxyConfig now w = (inr (Some token), w1) ∧
    token ≠ "" ∧
    r = forwarded proxyConfig token clientReq ∧
    (requestListener shell refuses proxyConfig now clientReq w).1 = inr () ∧
    clientRes (requestListener shell refuses proxyConfig now clientReq w).2 =
      clientRes w.
Proof.
  destruct (getToken_returns shell proxyConfig now w)
    as (cfToken & w1 & Hget & Hres & Hup & _ & _).
  rewrite (requestListener_unfold now clientReq w cfToken w1 Hget).
  intros Hgrew.
  destruct (afterToken_world clientReq cfToken w1)
    as (_ & _ & _ & [Hsame|(token & -> & Hne & Hfwd)]).
  - exfalso. rewrite Hsame, Hup in Hgrew.
    apply (f_equal List.length) in Hgrew. rewrite length_app in Hgrew.
    simpl in Hgrew. lia.
  - exists token, w1. split; [exact Hget|]. split; [exact Hne|].
    rewrite Hfwd, Hup in Hgrew. apply app_inv_head in Hgrew.
    injection Hgrew as <-. split; [reflexivity|].
    destruct (refuses (forwarded proxyConfig token clientReq)) as [err|] eqn:Hr.
    + exfalso. rewrite (afterToken_refused clientReq token err w1 Hne Hr) in Hfwd.
      simpl in Hfwd. apply (f_equal List.length) in Hfwd.
      rewrite length_app in Hfwd. simpl in Hfwd. lia.
    + rewrite (afterToken_forward clientReq token w1 Hne Hr). simpl. auto.
Qed.

End HandlerFacts.

Lemma sentHeaders_defined (headers : object) key :
  key ∈ headers.*1 → is_Some (sentHeaders headers !! toLowerCase key).
Proof.
  intros Hin. rewrite sentHeaders_fold. apply set_from_defined. right.
  split; [by apply own_keys_elem|by apply obj_get_is_Some].
Qed.

Lemma outboundHeaders_injected_keys proxyConfig token inbound key :
  key ∈ ["Host"; "Cookie"; "X-ClickHouse-User"; "X-ClickHouse-Key"] →
  key ∈ (outboundHeaders proxyConfig token inbound).*1.
Proof.
  intros Hkey. apply obj_get_is_Some. unfold outboundHeaders. cbv zeta.
  rewrite !elem_of_cons in Hkey.
  destruct Hkey as [->|[->|[->|[->|Hnil]]]]; [| | | |by apply elem_of_nil in Hnil].
  - rewrite !(obj_get_set_ne _ "Host") by done. rewrite obj_get_set_eq.
    by eexists.
  - rewrite !(obj_get_set_ne _ "Cookie") by done. rewrite obj_get_set_eq.
    by eexists.
  - rewrite !(obj_get_set_ne _ "X-ClickHouse-User") by done.
    rewrite obj_get_set_eq. by eexists.
  - rewrite obj_get_set_eq. by eexists.
Qed.

(** C1. For every forwarded request, the headers that go out are the
    inbound headers without Proxy-Connection, Transfer-Encoding, Host and
    Authorization, plus the injected ones.  No header named
    Proxy-Connection, Transfer-Encoding or Authorization, in any letter
    case, goes out, and exactly one Host header does, which names the
    configured target host; exactly one Cookie, one X-ClickHouse-User and
    one X-ClickHouse-Key header go out.  With the inbound names in lower
    case, as Node delivers them, the Cookie header is cookieName=token, the
    other two carry the configured user name and password (a header of the
    client under one of these three names is replaced), and every other
    inbound header goes out as it came. *)
Theorem forwarded_headers shell refuses proxyConfig now clientReq w r :
  upstream (requestListener shell refuses proxyConfig now clientReq w).2 =
    (upstream w ++ [r])%list →
  ∃ token,
    (getToken shell proxyConfig now w).1 = inr (Some token) ∧
    token ≠ "" ∧
    sent r !! "proxy-connection" = None ∧
    sent r !! "transfer-encoding" = None ∧
    sent r !! "authorization" = None ∧
    sent r !! "host" = Some ("Host", HStr (targetHost proxyConfig)) ∧
    count_named "Proxy-Connection" r = 0%nat ∧
    count_named "Transfer-Encoding" r = 0%nat ∧
    count_named "Authorization" r = 0%nat ∧
    count_named "Host" r = 1%nat ∧
    count_named "Cookie" r = 1%nat ∧
    count_named "X-ClickHouse-User" r = 1%nat ∧
    count_named "X-ClickHouse-Key" r = 1%nat ∧
    (lowercase_names (reqHeaders clientReq) →
     sent r !! "cookie" =
       Some ("Cookie",
             HStr (template (cookieName proxyConfig) ++ "=" ++ token)) ∧
     sent r !! "x-clickhouse-user" =
       Some ("X-ClickHouse-User", HStr (clickhouseUsername proxyConfig)) ∧
     sent r !! "x-clickhouse-key" =
       Some ("X-ClickHouse-Key", HStr (clickhousePassword proxyConfig)) ∧
     ∀ name,
       name ∉ ["proxy-connection"; "transfer-encoding"; "authorization";
               "host"; "cookie"; "x-clickhouse-user"; "x-clickhouse-key"] →
       sent r !! name = (λ v, (name, v)) <$> reqHeaders clientReq !! name).
Proof.
  intros Hgrew.
  destruct (requestListener_forwarded shell refuses proxyConfig now clientReq
              w r Hgrew) as (token & w1 & Hget & Hne & -> & _ & _).
  exists token. rewrite Hget. split; [reflexivity|]. split; [exact Hne|].
  unfold sent, forwarded. simpl.
  set (out := outboundHeaders proxyConfig token (reqHeaders clientReq)).
  destruct (sent_outboundHeaders_stripped proxyConfig token
              (reqHeaders clientReq)) as (Hpc & Hte & Hauth & Hhost).
  fold out in Hpc, Hte, Hauth, Hhost.
  assert (∀ key,
            key ∈ ["Host"; "Cookie"; "X-ClickHouse-User"; "X-ClickHouse-Key"] →
            is_Some (sentHeaders out !! toLowerCase key)) as Hsome.
  { intros key Hkey. apply sentHeaders_defined.
    by apply outboundHeaders_injected_keys. }
  assert (∀ name (req : ClientRequest),
            headers req = out →
            count_named name req =
              match sentHeaders out !! toLowerCase name with
              | Some _ => 1%nat
              | None => 0%nat
              end) as Hcount.
  { intros name req Hreq. rewrite count_named_lookup. unfold sent.
    by rewrite Hreq. }
  split; [exact Hpc|]. split; [exact Hte|]. split; [exact Hauth|].
  split; [exact Hhost|].
  split; [rewrite Hcount by done;
          change (toLowerCase "Proxy-Connection") with "proxy-connection";
          by rewrite Hpc|].
  split; [rewrite Hcount by done;
          change (toLowerCase "Transfer-Encoding") with "transfer-encoding";
          by rewrite Hte|].
  split; [rewrite Hcount by done;
          change (toLowerCase "Authorization") with "authorization";
          by rewrite Hauth|].
  split; [rewrite Hcount by done;
          change (toLowerCase "Host") with "host"; by rewrite Hhost|].
  split.
  { rewrite Hcount by done.
    destruct (Hsome "Cookie") as [? ->]; [|done].
    rewrite !elem_of_cons. tauto. }
  split.
  { rewrite Hcount by done.
    destruct (Hsome "X-ClickHouse-User") as [? ->]; [|done].
    rewrite !elem_of_cons. tauto. }
  split.
  { rewrite Hcount by done.
    destruct (Hsome "X-ClickHouse-Key") as [? ->]; [|done].
    rewrite !elem_of_cons. tauto. }
  intros Hlow.
  destruct (sent_outboundHeaders proxyConfig token (reqHeaders clientReq) Hlow)
    as (_ & Hcookie & Huser & Hkey & Hother).
  fold out in Hcookie, Huser, Hkey, Hother.
  split; [exact Hcookie|]. split; [exact Huser|]. split; [exact Hkey|].
  intros name Hname. rewrite !not_elem_of_cons in Hname.
  destruct Hname as (Hn1 & Hn2 & Hn3 & Hn4 & Hn5 & Hn6 & Hn7 & _).
  rewrite Hother by (rewrite !not_elem_of_cons; auto using not_elem_of_nil).
  destruct (keep name) eqn:Hkeep; [reflexivity|].
  destruct (reqHeaders clientReq !! name) as [v|] eqn:Hv; [|reflexivity].
  exfalso. assert (toLowerCase name = name) as Hl by (apply Hlow; by eexists).
  assert (keep name = true) as Hk; [|congruence].
  apply keep_spec. rewrite Hl, !not_elem_of_cons. auto using not_elem_of_nil.
Qed.

(** C2. When [getToken] yields [null] for a request, the client gets a
    response with status 500, the header [Content-Type: text/plain] and the
    text [Internal Server Error: Could not obtain authorization token.] as
    its only body chunk; the response is finished, the listener returns,
    and the list of requests opened towards the upstream is what it was
    before. *)
Theorem no_token_no_upstream shell refuses proxyConfig now clientReq w :
  clientRes w = fresh_response →
  (getToken shell proxyConfig now w).1 = inr None →
  (requestListener shell refuses proxyConfig now clientReq w).1 = inr () ∧
  clientRes (requestListener shell refuses proxyConfig now clientReq w).2 =
    {| headersSent := true; statusCode := 500;
       resHeaders := {["Content-Type" := HStr "text/plain"]};
       written :=
         ["Internal Server Error: Could not obtain authorization token."];
       finished := true |} ∧
  upstream (requestListener shell refuses proxyConfig now clientReq w).2 =
    upstream w.
Proof.
  intros Hfresh Hnull.
  destruct (getToken_returns shell proxyConfig now w)
    as (r & w1 & Hget & Hres & Hup & _ & _).
  rewrite Hget in Hnull. simpl in Hnull. injection Hnull as ->.
  rewrite (requestListener_unfold shell refuses proxyConfig now clientReq w
             None w1 Hget).
  rewrite afterToken_no_token by by left.
  rewrite abort_fresh by (rewrite Hres, Hfresh; reflexivity).
  simpl. rewrite Hres, Hfresh, Hup. auto.
Qed.

(** C6, at the configuration whose [targetScheme] is [http]: the request
    goes to the configured host and port with the method, path and query
    string of the client, but through [https.request], that is, over TLS to
    a port that was said to speak plain HTTP. *)
Theorem http_scheme_goes_out_https :
  transport_of (targetScheme plain_config) = Some Http ∧
  (λ r, (transport r, hostname r, port r, method r, path r)) <$>
    upstream
      (requestListener token_shell node_refuses plain_config 1000 get_select_1
         initial_world).2
  = [ (Https, "db.example.com", 8123%Z, "GET", "/?query=SELECT+1") ].
Proof. split; vm_compute; reflexivity. Qed.

(** C7, when the head of the upstream response (200) has been relayed and
    the outbound request then fails: the text [Bad Gateway: socket hang up]
    is still written to the client, as a chunk of the body of the 200. *)
Theorem error_after_head_writes_body :
  let w :=
    (onResponse upstream_ok
       (requestListener token_shell node_refuses scenario_config 1000
          get_select_1 initial_world).2).2 in
  headersSent (clientRes w) = true ∧
  statusCode (clientRes w) = 200%Z ∧
  written (clientRes w) = [] ∧
  (onError (Error "socket hang up") w).1 = inr () ∧
  clientRes (onError (Error "socket hang up") w).2 =
    {| headersSent := true; statusCode := 200;
       resHeaders := {["content-type" := HStr "text/plain"]};
       written := [ "Bad Gateway: socket hang up" ];
       finished := true |}.
Proof. vm_compute. auto 10. Qed.

(** C10, as stated, fails: an upstream response with status 99 is relayed
    with no status at all.  [writeHead] throws a [RangeError] out of the
    callback and nothing goes to the client. *)
Lemma status_below_100_is_not_relayed :
  let w :=
    (requestListener token_shell node_refuses scenario_config 1000
       get_select_1 initial_world).2 in
  upStatusCode upstream_99 = Some 99%Z ∧
  (onResponse upstream_99 w).1 = inl (RangeError "Invalid status code: 99") ∧
  clientRes (onResponse upstream_99 w).2 = fresh_response.
Proof. vm_compute. auto. Qed.

(** C10, amended. When the head of an upstream response is relayed on a
    response whose head is still unsent, the status written to the client is
    the status code of the upstream response if that lies between 100 and
    999, and 200 if the status code is absent or zero.  For a status code
    from 1 to 99 [writeHead] throws a [RangeError] and nothing is written to
    the client. *)
Theorem relayed_status proxyRes w :
  headersSent (clientRes w) = false →
  (∀ n, upStatusCode proxyRes = Some n → (100 ≤ n ≤ 999)%Z →
        (onResponse proxyRes w).1 = inr () ∧
        headersSent (clientRes (onResponse proxyRes w).2) = true ∧
        statusCode (clientRes (onResponse proxyRes w).2) = n) ∧
  (upStatusCode proxyRes = None ∨ upStatusCode proxyRes = Some 0%Z →
     (onResponse proxyRes w).1 = inr () ∧
     headersSent (clientRes (onResponse proxyRes w).2) = true ∧
     statusCode (clientRes (onResponse proxyRes w).2) = 200%Z) ∧
  (∀ n, upStatusCode proxyRes = Some n → (0 < n < 100)%Z →
        (onResponse proxyRes w).1 =
          inl (RangeError ("Invalid status code: " ++ pretty n)) ∧
        (onResponse proxyRes w).2 = w).
Proof.
  intros Hhead. unfold onResponse. split; [|split].
  - intros n -> Hn. simpl.
    assert ((n =? 0)%Z = false) as -> by (apply Z.eqb_neq; lia).
    by rewrite writeHead_sends.
  - intros [->| ->]; simpl; by rewrite writeHead_sends by (done || lia).
  - intros n -> Hn. simpl.
    assert ((n =? 0)%Z = false) as -> by (apply Z.eqb_neq; lia).
    by rewrite writeHead_refuses by (done || lia).
Qed.

(** X6. On a new connection the listener does exactly one of three things.
    It holds a token that is not empty and Node takes the outbound request:
    one request is opened, nothing is written to the client yet, and the
    listener returns.  It holds such a token and Node refuses the request:
    the error is thrown out of the listener, nothing is opened and nothing
    is written.  Or it holds no token ([null] or the empty string): no
    request is opened and the response is finished as a 500 with
    [Content-Type: text/plain] and the text [Internal Server Error: Could
    not obtain authorization token.]. *)
Theorem requestListener_forwards_or_aborts
    shell refuses proxyConfig now clientReq w :
  clientRes w = fresh_response →
  (∃ token,
     (getToken shell proxyConfig now w).1 = inr (Some token) ∧
     token ≠ "" ∧
     refuses (forwarded proxyConfig token clientReq) = None ∧
     (requestListener shell refuses proxyConfig now clientReq w).1 = inr () ∧
     upstream (requestListener shell refuses proxyConfig now clientReq w).2 =
       (upstream w ++ [forwarded proxyConfig token clientReq])%list ∧
     clientRes (requestListener shell refuses proxyConfig now clientReq w).2 =
       fresh_response) ∨
  (∃ token err,
     (getToken shell proxyConfig now w).1 = inr (Some token) ∧
     token ≠ "" ∧
     refuses (forwarded proxyConfig token clientReq) = Some err ∧
     (requestListener shell refuses proxyConfig now clientReq w).1 = inl err ∧
     upstream (requestListener shell refuses proxyConfig now clientReq w).2 =
       upstream w ∧
     clientRes (requestListener shell refuses proxyConfig now clientReq w).2 =
       fresh_response) ∨
  (((getToken shell proxyConfig now w).1 = inr None ∨
    (getToken shell proxyConfig now w).1 = inr (Some "")) ∧
   (requestListener shell refuses proxyConfig now clientReq w).1 = inr () ∧
   upstream (requestListener shell refuses proxyConfig now clientReq w).2 =
     upstream w ∧
   clientRes (requestListener shell refuses proxyConfig now clientReq w).2 =
     {| headersSent := true; statusCode := 500;
        resHeaders := {["Content-Type" := HStr "text/plain"]};
        written :=
          ["Internal Server Error: Could not obtain authorization token."];
        finished := true |}).
Proof.
  intros Hfresh.
  destruct (getToken_returns shell proxyConfig now w)
    as (cfToken & w1 & Hget & Hres & Hup & _ & _).
  rewrite (requestListener_unfold shell refuses proxyConfig now clientReq w
             cfToken w1 Hget).
  rewrite Hget. change ((inr cfToken, w1).1) with (@inr Exn _ cfToken).
  assert (cfToken = None ∨ cfToken = Some "" ∨
          ∃ token, cfToken = Some token ∧ token ≠ "") as [Hno|[Hno|Hyes]].
  { destruct cfToken as [token|]; [|by left]. right.
    destruct (decide (token = "")) as [->|Hne]; [by left|right; by exists token]. }
  - right. right. rewrite afterToken_no_token by by left.
    rewrite abort_fresh by (rewrite Hres, Hfresh; reflexivity).
    simpl. rewrite Hres, Hfresh, Hup, Hno. auto.
  - right. right. rewrite afterToken_no_token by by right.
    rewrite abort_fresh by (rewrite Hres, Hfresh; reflexivity).
    simpl. rewrite Hres, Hfresh, Hup, Hno. auto.
  - destruct Hyes as (token & -> & Hne).
    destruct (refuses (forwarded proxyConfig token clientReq)) as [err|] eqn:Hr.
    + right. left. exists token, err.
      rewrite (afterToken_refused refuses proxyConfig clientReq token err w1
                 Hne Hr).
      simpl. rewrite Hres, Hfresh, Hup. auto 10.
    + left. exists token.
      rewrite (afterToken_forward refuses proxyConfig clientReq token w1
                 Hne Hr).
      simpl. rewrite Hres, Hfresh, Hup. auto 10.
Qed.

(** X9. When a request has been forwarded on a new connection and the
    upstream answers with a status code that is absent, zero or between 100
    and 999, the callback for the upstream response does not throw and the
    client gets the head of the upstream response: its status, 200 standing
    in for an absent or zero one, and its headers as they came.  The
    callback writes no body chunk and leaves the response open for the
    pipe. *)
Theorem upstream_head_is_relayed
    shell refuses proxyConfig now clientReq proxyRes w r :
  clientRes w = fresh_response →
  upstream (requestListener shell refuses proxyConfig now clientReq w).2 =
    (upstream w ++ [r])%list →
  (∀ n, upStatusCode proxyRes = Some n → n = 0%Z ∨ (100 ≤ n ≤ 999)%Z) →
  ∃ status,
    (upStatusCode proxyRes = None ∨ upStatusCode proxyRes = Some 0%Z →
       status = 200%Z) ∧
    (∀ n, upStatusCode proxyRes = Some n → n ≠ 0%Z → status = n) ∧
    (onResponse proxyRes
       (requestListener shell refuses proxyConfig now clientReq w).2).1 =
      inr () ∧
    clientRes
      (onResponse proxyRes
         (requestListener shell refuses proxyConfig now clientReq w).2).2 =
      {| headersSent := true;
         statusCode := status;
         resHeaders := upHeaders proxyRes;
         written := [];
         finished := false |}.
Proof.
  intros Hfresh Hgrew Hstatus.
  destruct (requestListener_forwarded shell refuses proxyConfig now clientReq
              w r Hgrew) as (_ & _ & _ & _ & _ & _ & Hres).
  rewrite Hfresh in Hres.
  exists (status_or_200 (upStatusCode proxyRes)).
  assert (100 ≤ status_or_200 (upStatusCode proxyRes) ≤ 999)%Z as Hrange.
  { destruct (upStatusCode proxyRes) as [n|]; simpl; [|lia].
    destruct (Hstatus n eq_refl) as [->|Hn]; [simpl; lia|].
    assert ((n =? 0)%Z = false) as -> by (apply Z.eqb_neq; lia). exact Hn. }
  split; [intros [->| ->]; reflexivity|].
  split.
  { intros n -> Hn. simpl. by apply Z.eqb_neq in Hn as ->. }
  unfold onResponse. rewrite writeHead_sends by (by rewrite Hres || exact Hrange).
  simpl. rewrite Hres. auto.
Qed.

(** X18. An error of the outbound request, on a response that is not yet
    finished, never throws and always ends the response with the text
    [Bad Gateway: ] followed by the message of the error.  If no head had
    gone out, the head is a 502 with [Content-Type: text/plain].  If the
    head had gone out, its status and headers stay and the text is added to
    the body after the chunks already written.  Nothing but the response is
    touched. *)
Theorem onError_ends_with_bad_gateway err w :
  finished (clientRes w) = false →
  (onError err w).1 = inr () ∧
  clientRes (onError err w).2 =
    (if headersSent (clientRes w) then
       {| headersSent := true;
          statusCode := statusCode (clientRes w);
          resHeaders := resHeaders (clientRes w);
          written :=
            (written (clientRes w) ++
             [("Bad Gateway: " ++ message err)%string])%list;
          finished := true |}
     else
       {| headersSent := true;
          statusCode := 502;
          resHeaders := {["Content-Type" := HStr "text/plain"]};
          written :=
            (written (clientRes w) ++
             [("Bad Gateway: " ++ message err)%string])%list;
          finished := true |}) ∧
  same_but_response w (onError err w).2.
Proof.
  intros Hfin. split; [|split; [|apply onError_frame]].
  - unfold onError, bind, get.
    destruct (headersSent (clientRes w)) eqn:Hhead; simpl.
    + unfold end_. simpl. by rewrite Hfin.
    + rewrite writeHead_sends by (done || lia).
      unfold end_. simpl. by rewrite Hfin.
  - unfold onError, bind, get.
    destruct (headersSent (clientRes w)) eqn:Hhead; simpl.
    + unfold end_, set_clientRes. simpl. by rewrite Hfin.
    + rewrite writeHead_sends by (done || lia).
      unfold end_, set_clientRes. simpl. by rewrite Hfin.
Qed.

(** ** Requests that overlap *)

(** Cutting [getToken] at its [await] changes nothing: a call is the test
    of the cache and, on a miss, the start of the command followed by what
    happens once it has settled. *)
Lemma getToken_cut shell proxyConfig now w :
  getToken shell proxyConfig now w =
    if cache_hit now w then (inr (cachedToken w), w)
    else
      settle proxyConfig now
        (fetched
           (shell (List.length (execLog w))
              (token_command (cloudflaredAppUrl proxyConfig))))
        (start_command (token_command (cloudflaredAppUrl proxyConfig)) w).2.
Proof.
  unfold getToken, bind at 1, get, cache_hit.
  destruct (truthy_opt (cachedToken w) && lt (Num now) (tokenExpiry w));
    [reflexivity|].
  unfold try_catch, fetchToken, try_catch, bind, execPromise, fetched, settle,
    start_command, throw, ret. cbv zeta.
  destruct (shell (List.length (execLog w))
              (token_command (cloudflaredAppUrl proxyConfig)))
    as [out err|e]; [|reflexivity].
  destruct (truthy err); [reflexivity|].
  destruct (truthy (trim out)); reflexivity.
Qed.

Lemma fetched_success result token :
  fetch_success result token → fetched result = inr token.
Proof.
  intros Hs. inversion Hs as [stdout Hne]; subst. unfold fetched. simpl.
  apply truthy_true in Hne. by rewrite Hne.
Qed.

Lemma fetched_failure result :
  fetch_failure result → ∃ error, fetched result = inl error.
Proof.
  intros Hf. inversion Hf as [error|stdout stderr Herr|stdout Hempty]; subst.
  - by exists error.
  - eexists. unfold fetched. apply truthy_true in Herr. by rewrite Herr.
  - eexists. unfold fetched. simpl. apply truthy_false in Hempty.
    by rewrite Hempty.
Qed.

Lemma fetched_clean result token : fetched result = inr token → clean token.
Proof.
  unfold fetched. destruct result as [out err|e]; [|intros H; discriminate H].
  destruct (truthy err); [intros H; discriminate H|].
  destruct (truthy (trim out)) eqn:Hout; simpl; [|intros H; discriminate H].
  intros [= <-]. apply trim_clean. by apply truthy_true.
Qed.

Lemma cache_hit_true now w token e :
  cachedToken w = Some token → token ≠ "" → tokenExpiry w = Num e →
  (now < e)%Z → cache_hit now w = true.
Proof.
  intros Htok Hne Hexp Hlt. unfold cache_hit. rewrite Htok, Hexp. simpl.
  apply truthy_true in Hne. rewrite Hne. by apply Z.ltb_lt.
Qed.

Lemma forwarded_authenticated proxyConfig token clientReq :
  clean token → lowercase_names (reqHeaders clientReq) →
  authenticated proxyConfig (forwarded proxyConfig token clientReq).
Proof.
  intros Hclean Hlow.
  destruct (sent_outboundHeaders proxyConfig token (reqHeaders clientReq) Hlow)
    as (Hhost & Hcookie & Huser & Hkey & _).
  unfold authenticated, sent, forwarded. simpl.
  repeat (split; [done|]). by exists token.
Qed.

Lemma pending_insert_waiting c conn (m : gmap nat Conn) :
  (size (filter (λ entry : nat * Conn, is_Some (fetching entry.2))
           (<[c := conn]> m)) ≤
   S (size (filter (λ entry : nat * Conn, is_Some (fetching entry.2)) m)))%nat.
Proof.
  rewrite map_filter_insert. destruct (decide _).
  - rewrite map_size_insert. destruct (filter _ m !! c); simpl; lia.
  - rewrite map_filter_delete, map_size_delete.
    destruct (filter _ m !! c); simpl; lia.
Qed.

Lemma pending_insert_done c conn (m : gmap nat Conn) :
  fetching conn = None →
  (size (filter (λ entry : nat * Conn, is_Some (fetching entry.2))
           (<[c := conn]> m)) ≤
   size (filter (λ entry : nat * Conn, is_Some (fetching entry.2)) m))%nat.
Proof.
  intros Hnone. rewrite map_filter_insert_False.
  - rewrite map_filter_delete, map_size_delete.
    destruct (filter _ m !! c); simpl; lia.
  - simpl. rewrite Hnone. by intros [? ?].
Qed.

Lemma pending_insert_settled c conn old now (m : gmap nat Conn) :
  fetching conn = None → m !! c = Some old → fetching old = Some now →
  S (size (filter (λ entry : nat * Conn, is_Some (fetching entry.2))
             (<[c := conn]> m))) =
  size (filter (λ entry : nat * Conn, is_Some (fetching entry.2)) m).
Proof.
  intros Hnone Hold Hwait. rewrite map_filter_insert_False.
  - rewrite map_filter_delete, map_size_delete.
    assert (filter (λ entry : nat * Conn, is_Some (fetching entry.2)) m !! c =
              Some old) as Hc.
    { apply map_lookup_filter_Some. split; [exact Hold|]. simpl.
      rewrite Hwait. by eexists. }
    rewrite Hc. simpl.
    assert (size (filter (λ entry : nat * Conn, is_Some (fetching entry.2)) m)
              ≠ 0)%nat as Hpos.
    { intros Hz. apply map_size_empty_inv in Hz. rewrite Hz in Hc.
      by rewrite lookup_empty in Hc. }
    lia.
  - simpl. rewrite Hnone. by intros [? ?].
Qed.

Section LoopFacts.

Variable refuses : ClientRequest → option Exn.
Variable proxyConfig : ProxyConfig.

Lemma step_arrive_miss c now clientReq l :
  cache_miss now (world l) →
  step refuses proxyConfig (Arrive c now clientReq) l =
    {| world :=
         {| cachedToken := cachedToken (world l);
            tokenExpiry := tokenExpiry (world l);
            execLog :=
              (execLog (world l) ++
               [token_command (cloudflaredAppUrl proxyConfig)])%list;
            clientRes := clientRes (world l);
            upstream := upstream (world l) |};
       conns := <[c := {| connReq := clientReq; connRes := fresh_response;
                          fetching := Some now |}]> (conns l) |}.
Proof.
  intros Hmiss. apply cache_miss_test in Hmiss. unfold step, cache_hit.
  by rewrite Hmiss.
Qed.

Lemma step_arrive_hit c now clientReq l token :
  cache_hit now (world l) = true →
  cachedToken (world l) = Some token → token ≠ "" →
  refuses (forwarded proxyConfig token clientReq) = None →
  step refuses proxyConfig (Arrive c now clientReq) l =
    {| world :=
         {| cachedToken := cachedToken (world l);
            tokenExpiry := tokenExpiry (world l);
            execLog := execLog (world l);
            clientRes := fresh_response;
            upstream :=
              (upstream (world l) ++
               [forwarded proxyConfig token clientReq])%list |};
       conns := <[c := {| connReq := clientReq; connRes := fresh_response;
                          fetching := None |}]> (conns l) |}.
Proof.
  intros Hhit Htok Hne Hok. unfold step. rewrite Hhit, Htok. unfold serve.
  rewrite (afterToken_forward refuses proxyConfig clientReq token _ Hne Hok).
  simpl. by rewrite ?Htok.
Qed.

Lemma step_settle_success c result token conn now l :
  conns l !! c = Some conn → fetching conn = Some now →
  fetched result = inr token →
  refuses (forwarded proxyConfig token (connReq conn)) = None →
  step refuses proxyConfig (Settle c result) l =
    {| world :=
         {| cachedToken := Some token;
            tokenExpiry :=
              add (Num now) (of_optional (tokenCacheDurationMs proxyConfig));
            execLog := execLog (world l);
            clientRes := connRes conn;
            upstream :=
              (upstream (world l) ++
               [forwarded proxyConfig token (connReq conn)])%list |};
       conns := <[c := {| connReq := connReq conn; connRes := connRes conn;
                          fetching := None |}]> (conns l) |}.
Proof.
  intros Hc Hwait Hres Hok.
  assert (token ≠ "") as Hne by (by destruct (fetched_clean _ _ Hres)).
  unfold step. rewrite Hc, Hwait, Hres. unfold serve, bind.
  cbn -[afterToken abort].
  rewrite (afterToken_forward refuses proxyConfig (connReq conn) token _ Hne Hok).
  reflexivity.
Qed.

Lemma step_settle_failure c result error conn now l :
  conns l !! c = Some conn → fetching conn = Some now →
  connRes conn = fresh_response →
  fetched result = inl error →
  step refuses proxyConfig (Settle c result) l =
    {| world :=
         {| cachedToken := None;
            tokenExpiry := Num 0;
            execLog := execLog (world l);
            clientRes :=
              {| headersSent := true; statusCode := 500;
                 resHeaders := {["Content-Type" := HStr "text/plain"]};
                 written :=
                   ["Internal Server Error: Could not obtain authorization token."];
                 finished := true |};
            upstream := upstream (world l) |};
       conns :=
         <[c := {| connReq := connReq conn;
                   connRes :=
                     {| headersSent := true; statusCode := 500;
                        resHeaders := {["Content-Type" := HStr "text/plain"]};
                        written :=
                          ["Internal Server Error: Could not obtain authorization token."];
                        finished := true |};
                   fetching := None |}]> (conns l) |}.
Proof.
  intros Hc Hwait Hfresh Hres.
  unfold step. rewrite Hc, Hwait, Hres. unfold serve, bind.
  cbn -[afterToken abort].
  rewrite afterToken_no_token by by left.
  rewrite abort_fresh by (simpl; by rewrite Hfresh).
  simpl. by rewrite Hfresh.
Qed.

(** What one turn for a connection leaves behind, when the code it runs
    touches at most the response. *)
Lemma serve_frame c conn k l :
  (∀ w, same_but_response w (k w).2) →
  same_but_response (world l) (world (serve c conn k l)).
Proof.
  intros Hk. unfold serve. simpl.
  destruct (Hk (set_clientRes (connRes conn) (world l)).2) as (? & ? & ? & ?).
  by repeat split.
Qed.

(** One event: a clean cache stays clean, the outbound requests stay
    authenticated, and only the arrival of a request can add a command or,
    now or when its command has settled, an outbound request. *)
Lemma step_invariant ev l :
  well_formed ev →
  cache_clean (world l) →
  Forall (authenticated proxyConfig) (upstream (world l)) →
  conns_lowercase l →
  cache_clean (world (step refuses proxyConfig ev l)) ∧
  Forall (authenticated proxyConfig)
    (upstream (world (step refuses proxyConfig ev l))) ∧
  conns_lowercase (step refuses proxyConfig ev l) ∧
  (List.length (upstream (world (step refuses proxyConfig ev l))) +
     pending (step refuses proxyConfig ev l) ≤
   List.length (upstream (world l)) + pending l + arrivals [ev])%nat ∧
  (List.length (execLog (world (step refuses proxyConfig ev l))) ≤
   List.length (execLog (world l)) + arrivals [ev])%nat.
Proof.
  intros Hwf Hclean Hall Hlow.
  assert (∀ c conn k,
            (∀ w, same_but_response w (k w).2) →
            lowercase_names (reqHeaders (connReq conn)) →
            (pending (serve c conn k l) ≤ pending l)%nat →
            ∀ n,
            cache_clean (world (serve c conn k l)) ∧
            Forall (authenticated proxyConfig)
              (upstream (world (serve c conn k l))) ∧
            conns_lowercase (serve c conn k l) ∧
            (List.length (upstream (world (serve c conn k l))) +
               pending (serve c conn k l) ≤
             List.length (upstream (world l)) + pending l + n)%nat ∧
            (List.length (execLog (world (serve c conn k l))) ≤
             List.length (execLog (world l)) + n)%nat) as Hframe.
  { intros c conn k Hk Hreq Hpend n.
    destruct (serve_frame c conn k l Hk) as (Htok & _ & Hlog & Hup).
    unfold cache_clean. rewrite Htok, Hlog, Hup.
    split; [exact Hclean|]. split; [exact Hall|]. split; [|lia].
    intros c' conn' Hc'. unfold serve in Hc'. simpl in Hc'.
    apply lookup_insert_Some in Hc' as [[_ <-]|[_ Hc']]; [exact Hreq|].
    by apply (Hlow c'). }
  destruct ev as [c now clientReq|c result|c proxyRes|c err].
  - (* a request arrives *)
    change (arrivals [Arrive c now clientReq]) with 1%nat.
    simpl in Hwf. unfold step.
    destruct (cache_hit now (world l)) eqn:Hhit.
    + unfold serve. cbn [world conns connReq connRes].
      set (w0 := (set_clientRes fresh_response (world l)).2).
      destruct (afterToken_world refuses proxyConfig clientReq
                  (cachedToken (world l)) w0) as (Htok & _ & Hlog & Hup).
      assert ((pending
                 {| world :=
                      (afterToken refuses proxyConfig clientReq
                         (cachedToken (world l)) w0).2;
                    conns :=
                      <[c := {| connReq := clientReq;
                                connRes :=
                                  clientRes
                                    (afterToken refuses proxyConfig clientReq
                                       (cachedToken (world l)) w0).2;
                                fetching := None |}]> (conns l) |} ≤
               pending l)%nat) as Hpend
        by (by apply pending_insert_done).
      split; [unfold cache_clean; by rewrite Htok|].
      split; [|split; [|split]].
      * destruct Hup as [->|(token & Hsome & Hne & ->)]; [exact Hall|].
        apply Forall_app. split; [exact Hall|].
        constructor; [|constructor].
        apply forwarded_authenticated; [by apply Hclean|exact Hwf].
      * intros c' conn' Hc'. simpl in Hc'.
        apply lookup_insert_Some in Hc' as [[_ <-]|[_ Hc']]; [exact Hwf|].
        by apply (Hlow c').
      * destruct Hup as [->|(token & Hsome & Hne & ->)];
          [|rewrite length_app]; simpl; simpl in Hpend; lia.
      * rewrite Hlog. simpl. lia.
    + simpl. split; [exact Hclean|]. split; [exact Hall|].
      split; [|split].
      * intros c' conn' Hc'. simpl in Hc'.
        apply lookup_insert_Some in Hc' as [[_ <-]|[_ Hc']]; [exact Hwf|].
        by apply (Hlow c').
      * pose proof (pending_insert_waiting c
                      {| connReq := clientReq; connRes := fresh_response;
                         fetching := Some now |} (conns l)) as Hpend.
        unfold pending at 1. simpl. unfold pending. lia.
      * rewrite length_app. simpl. lia.
  - (* the command of a connection has settled *)
    change (arrivals [Settle c result]) with 0%nat.
    unfold step.
    destruct (conns l !! c) as [conn|] eqn:Hc;
      [|split; [exact Hclean|]; split; [exact Hall|]; split; [exact Hlow|]; lia].
    destruct (fetching conn) as [now|] eqn:Hwait;
      [|split; [exact Hclean|]; split; [exact Hall|]; split; [exact Hlow|]; lia].
    pose proof (Hlow c conn Hc) as Hreq.
    unfold serve, bind. cbn [world conns connReq connRes].
    set (w0 := (set_clientRes (connRes conn) (world l)).2).
    assert (∃ cfToken w1,
              settle proxyConfig now (fetched result) w0 = (inr cfToken, w1) ∧
              cachedToken w1 = cfToken ∧
              (∀ token, cfToken = Some token → clean token) ∧
              execLog w1 = execLog (world l) ∧
              upstream w1 = upstream (world l)) as
      (cfToken & w1 & -> & Htok1 & Hclean1 & Hlog1 & Hup1).
    { destruct (fetched result) as [error|token] eqn:Hres.
      - eexists None, _. split; [reflexivity|]. simpl.
        split; [reflexivity|]. split; [intros t Ht; discriminate Ht|]. auto.
      - eexists (Some token), _. split; [reflexivity|]. simpl.
        split; [reflexivity|]. split; [|auto].
        intros t [= <-]. by apply (fetched_clean result). }
    destruct (afterToken_world refuses proxyConfig (connReq conn) cfToken w1)
      as (Htok & _ & Hlog & Hup).
    assert (S (pending
                 {| world :=
                      (afterToken refuses proxyConfig (connReq conn) cfToken
                         w1).2;
                    conns :=
                      <[c := {| connReq := connReq conn;
                                connRes :=
                                  clientRes
                                    (afterToken refuses proxyConfig
                                       (connReq conn) cfToken w1).2;
                                fetching := None |}]> (conns l) |}) =
            pending l) as Hpend
      by (by apply (pending_insert_settled c _ conn now)).
    split; [unfold cache_clean; rewrite Htok, Htok1; exact Hclean1|].
    split; [|split; [|split]].
    + rewrite <- Hup1 in Hall.
      destruct Hup as [->|(token & Hsome & Hne & ->)]; [exact Hall|].
      apply Forall_app. split; [exact Hall|]. constructor; [|constructor].
      apply forwarded_authenticated; [by apply Hclean1|exact Hreq].
    + intros c' conn' Hc'. simpl in Hc'.
      apply lookup_insert_Some in Hc' as [[_ <-]|[_ Hc']]; [exact Hreq|].
      by apply (Hlow c').
    + destruct Hup as [->|(token & Hsome & Hne & ->)];
        [|rewrite length_app]; rewrite Hup1; simpl; simpl in Hpend; lia.
    + rewrite Hlog, Hlog1. lia.
  - (* the head of an upstream response *)
    change (arrivals [Response c proxyRes]) with 0%nat.
    unfold step.
    destruct (conns l !! c) as [conn|] eqn:Hc;
      [|split; [exact Hclean|]; split; [exact Hall|]; split; [exact Hlow|]; lia].
    destruct (fetching conn) as [now|] eqn:Hwait;
      [split; [exact Hclean|]; split; [exact Hall|]; split; [exact Hlow|]; lia|].
    apply Hframe; [apply onResponse_frame|by apply (Hlow c)|].
    by apply pending_insert_done.
  - (* an error of the outbound request *)
    change (arrivals [Failure c err]) with 0%nat.
    unfold step.
    destruct (conns l !! c) as [conn|] eqn:Hc;
      [|split; [exact Hclean|]; split; [exact Hall|]; split; [exact Hlow|]; lia].
    destruct (fetching conn) as [now|] eqn:Hwait;
      [split; [exact Hclean|]; split; [exact Hall|]; split; [exact Hlow|]; lia|].
    apply Hframe; [apply onError_frame|by apply (Hlow c)|].
    by apply pending_insert_done.
Qed.

Lemma loop_invariant evs l :
  Forall well_formed evs →
  cache_clean (world l) →
  Forall (authenticated proxyConfig) (upstream (world l)) →
  conns_lowercase l →
  cache_clean (world (loop refuses proxyConfig evs l)) ∧
  Forall (authenticated proxyConfig)
    (upstream (world (loop refuses proxyConfig evs l))) ∧
  (List.length (upstream (world (loop refuses proxyConfig evs l))) +
     pending (loop refuses proxyConfig evs l) ≤
   List.length (upstream (world l)) + pending l + arrivals evs)%nat ∧
  (List.length (execLog (world (loop refuses proxyConfig evs l))) ≤
   List.length (execLog (world l)) + arrivals evs)%nat.
Proof.
  revert l. induction evs as [|ev evs IH]; intros l Hwf Hclean Hall Hlow.
  - change (loop refuses proxyConfig [] l) with l.
    change (arrivals []) with 0%nat.
    split; [exact Hclean|]. split; [exact Hall|]. lia.
  - inversion Hwf as [|? ? Hev Hevs]; subst.
    destruct (step_invariant ev l Hev Hclean Hall Hlow)
      as (Hc1 & Ha1 & Hl1 & Hu1 & Hx1).
    destruct (IH _ Hevs Hc1 Ha1 Hl1) as (Hc & Ha & Hu & Hx).
    change (loop refuses proxyConfig (ev :: evs) l)
      with (loop refuses proxyConfig evs (step refuses proxyConfig ev l)).
    split; [exact Hc|]. split; [exact Ha|].
    assert (arrivals (ev :: evs) = arrivals [ev] + arrivals evs)%nat as ->.
    { unfold arrivals. simpl. destruct (is_arrival ev); reflexivity. }
    lia.
Qed.

End LoopFacts.

(** X7. One fetch serves the requests that follow it.  A request arrives
    when no token is valid, its command settles with a token, and a second
    request arrives after that and before the expiry: the second request
    goes out with the same token and no second command is run.  (A request
    that arrives before the command has settled starts a command of its
    own.) *)
Theorem one_fetch_serves_next_request
    refuses proxyConfig c1 c2 now now' req1 req2 l d result token :
  tokenCacheDurationMs proxyConfig = Some d →
  cache_miss now (world l) →
  fetch_success result token →
  (now' < now + d)%Z →
  refuses (forwarded proxyConfig token req1) = None →
  refuses (forwarded proxyConfig token req2) = None →
  execLog
    (world
       (loop refuses proxyConfig
          [Arrive c1 now req1; Settle c1 result; Arrive c2 now' req2] l)) =
    (execLog (world l) ++
     [token_command (cloudflaredAppUrl proxyConfig)])%list ∧
  upstream
    (world
       (loop refuses proxyConfig
          [Arrive c1 now req1; Settle c1 result; Arrive c2 now' req2] l)) =
    (upstream (world l) ++
     [ forwarded proxyConfig token req1;
       forwarded proxyConfig token req2 ])%list.
Proof.
  intros Hd Hmiss Hs Hlt Hok1 Hok2.
  assert (token ≠ "") as Hne by (inversion Hs; congruence).
  change (loop refuses proxyConfig
            [Arrive c1 now req1; Settle c1 result; Arrive c2 now' req2] l)
    with (step refuses proxyConfig (Arrive c2 now' req2)
            (step refuses proxyConfig (Settle c1 result)
               (step refuses proxyConfig (Arrive c1 now req1) l))).
  rewrite (step_arrive_miss refuses proxyConfig c1 now req1 l Hmiss).
  rewrite (step_settle_success refuses proxyConfig c1 result token
             {| connReq := req1; connRes := fresh_response;
                fetching := Some now |} now);
    [|simpl; by rewrite lookup_insert_eq|reflexivity|by apply fetched_success
     |exact Hok1].
  rewrite (step_arrive_hit refuses proxyConfig c2 now' req2 _ token);
    [|apply (cache_hit_true _ _ token (now + d)%Z);
        [reflexivity|exact Hne|simpl; by rewrite Hd|exact Hlt]
     |reflexivity|exact Hne|exact Hok2].
  simpl. split; [reflexivity|]. by rewrite <- app_assoc.
Qed.

(** X8. A failed fetch costs one request only.  The request whose command
    fails is answered with the 500 and the text [Internal Server Error:
    Could not obtain authorization token.], and nothing goes upstream; the
    next request starts the command again and, when it settles with a
    token, goes out with that token, which is cached. *)
Theorem failed_fetch_costs_one_request
    refuses proxyConfig c1 c2 now now' req1 req2 l result1 result2 token :
  cache_miss now (world l) →
  fetch_failure result1 →
  fetch_success result2 token →
  refuses (forwarded proxyConfig token req2) = None →
  connRes <$>
    conns
      (loop refuses proxyConfig [Arrive c1 now req1; Settle c1 result1] l)
      !! c1 =
    Some {| headersSent := true; statusCode := 500;
            resHeaders := {["Content-Type" := HStr "text/plain"]};
            written :=
              ["Internal Server Error: Could not obtain authorization token."];
            finished := true |} ∧
  upstream
    (world
       (loop refuses proxyConfig [Arrive c1 now req1; Settle c1 result1] l)) =
    upstream (world l) ∧
  execLog
    (world
       (loop refuses proxyConfig
          [Arrive c1 now req1; Settle c1 result1;
           Arrive c2 now' req2; Settle c2 result2] l)) =
    (execLog (world l) ++
     [ token_command (cloudflaredAppUrl proxyConfig);
       token_command (cloudflaredAppUrl proxyConfig) ])%list ∧
  upstream
    (world
       (loop refuses proxyConfig
          [Arrive c1 now req1; Settle c1 result1;
           Arrive c2 now' req2; Settle c2 result2] l)) =
    (upstream (world l) ++ [forwarded proxyConfig token req2])%list ∧
  cachedToken
    (world
       (loop refuses proxyConfig
          [Arrive c1 now req1; Settle c1 result1;
           Arrive c2 now' req2; Settle c2 result2] l)) = Some token.
Proof.
  intros Hmiss Hf Hs Hok.
  destruct (fetched_failure result1 Hf) as [error Herr].
  change (loop refuses proxyConfig
            [Arrive c1 now req1; Settle c1 result1;
             Arrive c2 now' req2; Settle c2 result2] l)
    with (step refuses proxyConfig (Settle c2 result2)
            (step refuses proxyConfig (Arrive c2 now' req2)
               (loop refuses proxyConfig
                  [Arrive c1 now req1; Settle c1 result1] l))).
  change (loop refuses proxyConfig [Arrive c1 now req1; Settle c1 result1] l)
    with (step refuses proxyConfig (Settle c1 result1)
            (step refuses proxyConfig (Arrive c1 now req1) l)).
  rewrite (step_arrive_miss refuses proxyConfig c1 now req1 l Hmiss).
  rewrite (step_settle_failure refuses proxyConfig c1 result1 error
             {| connReq := req1; connRes := fresh_response;
                fetching := Some now |} now);
    [|simpl; by rewrite lookup_insert_eq|reflexivity|reflexivity|exact Herr].
  split; [simpl; by rewrite lookup_insert_eq|]. split; [reflexivity|].
  rewrite (step_arrive_miss refuses proxyConfig c2 now' req2);
    [|by left].
  rewrite (step_settle_success refuses proxyConfig c2 result2 token
             {| connReq := req2; connRes := fresh_response;
                fetching := Some now' |} now');
    [|simpl; by rewrite lookup_insert_eq|reflexivity|by apply fetched_success
     |exact Hok].
  simpl. split; [by rewrite <- app_assoc|]. auto.
Qed.

(** X20. Requests that overlap each fetch.  When a second request arrives
    while the command of the first is still under way, a second command is
    started; both requests are forwarded once their commands have settled,
    each with the token of its own command, and the cache ends up with the
    token of the command that settled last, expiring at the arrival of its
    request plus the cache duration. *)
Theorem overlapping_requests_fetch_twice
    refuses proxyConfig c1 c2 now now' req1 req2 l
    result1 result2 token1 token2 :
  c1 ≠ c2 →
  cache_miss now (world l) →
  cache_miss now' (world l) →
  fetch_success result1 token1 →
  fetch_success result2 token2 →
  refuses (forwarded proxyConfig token1 req1) = None →
  refuses (forwarded proxyConfig token2 req2) = None →
  execLog
    (world
       (loop refuses proxyConfig
          [Arrive c1 now req1; Arrive c2 now' req2;
           Settle c1 result1; Settle c2 result2] l)) =
    (execLog (world l) ++
     [ token_command (cloudflaredAppUrl proxyConfig);
       token_command (cloudflaredAppUrl proxyConfig) ])%list ∧
  upstream
    (world
       (loop refuses proxyConfig
          [Arrive c1 now req1; Arrive c2 now' req2;
           Settle c1 result1; Settle c2 result2] l)) =
    (upstream (world l) ++
     [ forwarded proxyConfig token1 req1;
       forwarded proxyConfig token2 req2 ])%list ∧
  cachedToken
    (world
       (loop refuses proxyConfig
          [Arrive c1 now req1; Arrive c2 now' req2;
           Settle c1 result1; Settle c2 result2] l)) = Some token2 ∧
  tokenExpiry
    (world
       (loop refuses proxyConfig
          [Arrive c1 now req1; Arrive c2 now' req2;
           Settle c1 result1; Settle c2 result2] l)) =
    add (Num now') (of_optional (tokenCacheDurationMs proxyConfig)).
Proof.
  intros Hc Hmiss1 Hmiss2 Hs1 Hs2 Hok1 Hok2.
  change (loop refuses proxyConfig
            [Arrive c1 now req1; Arrive c2 now' req2;
             Settle c1 result1; Settle c2 result2] l)
    with (step refuses proxyConfig (Settle c2 result2)
            (step refuses proxyConfig (Settle c1 result1)
               (step refuses proxyConfig (Arrive c2 now' req2)
                  (step refuses proxyConfig (Arrive c1 now req1) l)))).
  rewrite (step_arrive_miss refuses proxyConfig c1 now req1 l Hmiss1).
  rewrite (step_arrive_miss refuses proxyConfig c2 now' req2);
    [|exact Hmiss2].
  rewrite (step_settle_success refuses proxyConfig c1 result1 token1
             {| connReq := req1; connRes := fresh_response;
                fetching := Some now |} now);
    [|simpl; by rewrite lookup_insert_ne, lookup_insert_eq|reflexivity
     |by apply fetched_success|exact Hok1].
  rewrite (step_settle_success refuses proxyConfig c2 result2 token2
             {| connReq := req2; connRes := fresh_response;
                fetching := Some now' |} now');
    [|simpl; by rewrite lookup_insert_ne, lookup_insert_eq|reflexivity
     |by apply fetched_success|exact Hok2].
  simpl. split; [by rewrite <- app_assoc|].
  split; [by rewrite <- app_assoc|]. auto.
Qed.

(** ** Configuration *)


(** A successful [loadConfig] returns the [proxy] section of the file, the
    very value that was parsed. *)
Lemma loadConfig_returns_section file proxy :
  loadConfig file = inr proxy →
  ∃ doc, file = inr (YMap doc) ∧ doc !! "proxy" = Some proxy.
Proof.
  unfold loadConfig. destruct file as [e|config]; [intros H; discriminate H|].
  destruct (get_prop config "proxy") as [e|[p|]] eqn:Hget;
    [intros H; discriminate H| |intros H; discriminate H].
  destruct (falsy (Some p)); [intros H; discriminate H|].
  destruct (check_required required p); [intros H; discriminate H|].
  intros [= ->].
  destruct config as [|b|n|s|items|doc]; simpl in Hget; try discriminate Hget.
  exists doc. split; [done|]. congruence.
Qed.

Lemma field_num_absent m k : m !! k = None → field_num m k = Some None.
Proof. unfold field_num. by intros ->. Qed.

Lemma field_str_absent m k : m !! k = None → field_str m k = Some None.
Proof. unfold field_str. by intros ->. Qed.

Lemma as_ProxyConfig_optional m cfg :
  as_ProxyConfig (YMap m) = Some cfg →
  field_num m "tokenCacheDurationMs" = Some (tokenCacheDurationMs cfg) ∧
  field_str m "cookieName" = Some (cookieName cfg).
Proof.
  unfold as_ProxyConfig. intros H.
  destruct (field_num m "listenPort" ≫= id); [|discriminate].
  destruct (field_str m "targetHost" ≫= id); [|discriminate].
  destruct (field_num m "targetPort" ≫= id); [|discriminate].
  destruct (field_str m "targetScheme"); [|discriminate].
  destruct (field_str m "cloudflaredAppUrl" ≫= id); [|discriminate].
  destruct (field_num m "tokenCacheDurationMs"); [|discriminate].
  destruct (field_str m "cookieName"); [|discriminate].
  destruct (field_str m "clickhouseUsername" ≫= id); [|discriminate].
  destruct (field_str m "clickhousePassword" ≫= id); [|discriminate].
  simpl in H. injection H as <-. auto.
Qed.



(** C9, at a file without the two optional keys: it loads to a
    configuration in which both are undefined.  The expiry recorded after a
    fetch is then NaN and a call one millisecond later fetches again, where
    a duration of 300000 would have served the cached token until 301000;
    and the cookie that goes out is named [undefined], where the default
    would have named it [CF_Authorization]. *)
Theorem absent_optional_keys_get_no_default :
  loadConfig six_keys_file = inr (YMap six_keys) ∧
  as_ProxyConfig (YMap six_keys) = Some six_keys_config ∧
  tokenCacheDurationMs six_keys_config = None ∧
  cookieName six_keys_config = None ∧
  tokenExpiry (getToken token_shell six_keys_config 1000 initial_world).2 = NaN ∧
  tokenExpiry
    (getToken token_shell (spec_defaults six_keys_config) 1000 initial_world).2 =
    Num 301000 ∧
  List.length
    (execLog
       (getToken token_shell six_keys_config 1001
          (getToken token_shell six_keys_config 1000 initial_world).2).2) = 2%nat ∧
  List.length
    (execLog
       (getToken token_shell (spec_defaults six_keys_config) 1001
          (getToken token_shell (spec_defaults six_keys_config) 1000
             initial_world).2).2) = 1%nat ∧
  (λ r, sent r !! "cookie") <$>
    upstream
      (requestListener token_shell node_refuses six_keys_config 1000
         get_select_1 initial_world).2 =
    [ Some ("Cookie", HStr "undefined=tok") ] ∧
  (λ r, sent r !! "cookie") <$>
    upstream
      (requestListener token_shell node_refuses (spec_defaults six_keys_config)
         1000 get_select_1 initial_world).2 =
    [ Some ("Cookie", HStr "CF_Authorization=tok") ].
Proof. repeat split; vm_compute; reflexivity. Qed.

(** X19. No default is applied to the loaded configuration: [loadConfig]
    returns the [proxy] section as the file has it.  When
    [tokenCacheDurationMs] is absent it stays undefined, and then no stored
    token is ever valid: after a call that had to fetch, the next call, at
    any time, fetches again.  When [cookieName] is absent it stays
    undefined, and the cookie sent with a forwarded request is named
    [undefined]. *)
Theorem absent_optional_keys_stay_undefined shell file proxy cfg :
  loadConfig file = inr proxy →
  as_ProxyConfig proxy = Some cfg →
  ∃ doc m,
    file = inr (YMap doc) ∧ doc !! "proxy" = Some (YMap m) ∧ proxy = YMap m ∧
    (m !! "tokenCacheDurationMs" = None →
       tokenCacheDurationMs cfg = None ∧
       ∀ now w now',
         cache_miss now w →
         execLog (getToken shell cfg now' (getToken shell cfg now w).2).2 =
           (execLog (getToken shell cfg now w).2 ++
            [token_command (cloudflaredAppUrl cfg)])%list) ∧
    (m !! "cookieName" = None →
       cookieName cfg = None ∧
       ∀ token inbound,
         lowercase_names inbound →
         sentHeaders (outboundHeaders cfg token inbound) !! "cookie" =
           Some ("Cookie", HStr ("undefined=" ++ token))).
Proof.
  intros Hload Hcfg.
  destruct (loadConfig_returns_section file proxy Hload) as (doc & -> & Hdoc).
  destruct proxy as [| | | | |m]; try discriminate Hcfg.
  destruct (as_ProxyConfig_optional m cfg Hcfg) as [Hdur Hname].
  exists doc, m. split; [reflexivity|]. split; [exact Hdoc|].
  split; [reflexivity|]. split.
  - intros Habsent. rewrite (field_num_absent m _ Habsent) in Hdur.
    assert (tokenCacheDurationMs cfg = None) as Hd by congruence.
    split; [exact Hd|]. intros now w now' Hmiss.
    apply getToken_miss_log. by apply getToken_no_duration_next_miss.
  - intros Habsent. rewrite (field_str_absent m _ Habsent) in Hname.
    assert (cookieName cfg = None) as Hc by congruence.
    split; [exact Hc|]. intros token inbound Hlow.
    destruct (sent_outboundHeaders cfg token inbound Hlow) as (_ & -> & _).
    by rewrite Hc.
Qed.

Lemma check_required_present fields m :
  check_required fields (YMap m) = inr () ↔
  ∀ field, field ∈ fields → is_Some (m !! field).
Proof.
  induction fields as [|f fields IH]; simpl.
  - split; [|done]. intros _ field Hin. by apply elem_of_nil in Hin.
  - destruct (m !! f) as [v|] eqn:Hf.
    + rewrite bool_decide_eq_true_2 by by eexists.
      rewrite IH. split.
      * intros Hall field Hin. apply elem_of_cons in Hin as [->|Hin].
        -- rewrite Hf. by eexists.
        -- by apply Hall.
      * intros Hall field Hin. apply Hall. by apply list_elem_of_further.
    + rewrite bool_decide_eq_false_2 by (intros [? ?]; discriminate).
      split; [intros H; discriminate H|].
      intros Hall. destruct (Hall f) as [v Hv]; [apply list_elem_of_here|].
      congruence.
Qed.

Lemma check_required_not_mapping f fields p :
  (∀ m, p ≠ YMap m) → check_required (f :: fields) p ≠ inr ().
Proof.
  intros Hp. destruct p; simpl; try discriminate. by destruct (Hp entries).
Qed.

(** X11. [loadConfig] accepts exactly the files whose document is a mapping
    with a [proxy] section that is itself a mapping holding the six checked
    keys, and then returns that section unchanged.  The values under the
    keys are not looked at. *)
Theorem loadConfig_accepts_iff file p :
  loadConfig file = inr p ↔
  ∃ doc m,
    file = inr (YMap doc) ∧
    doc !! "proxy" = Some (YMap m) ∧
    p = YMap m ∧
    ∀ field, field ∈ required → is_Some (m !! field).
Proof.
  split.
  - unfold loadConfig. destruct file as [e|config]; [intros H; discriminate H|].
    destruct (get_prop config "proxy") as [e|[q|]] eqn:Hget;
      [intros H; discriminate H| |intros H; discriminate H].
    destruct (falsy (Some q)); [intros H; discriminate H|].
    destruct (check_required required q) as [e|[]] eqn:Hck;
      [intros H; discriminate H|].
    intros [= ->].
    destruct config as [|b|n|s|items|doc]; simpl in Hget; try discriminate Hget.
    injection Hget as Hdoc.
    destruct p as [|b|n|s|items|m];
      try (exfalso; revert Hck; by apply check_required_not_mapping).
    exists doc, m. repeat split; auto. by apply check_required_present.
  - intros (doc & m & -> & Hdoc & -> & Hall).
    unfold loadConfig, get_prop. cbv beta iota. rewrite Hdoc. unfold falsy.
    apply check_required_present in Hall. by rewrite Hall.
Qed.

(** X12. A document without a usable [proxy] section (the key is absent, or
    its value is null, false, zero or the empty string) is refused with the
    error [Proxy configuration is missing in the config file.], and [main]
    then ends the process with code 1 before any token is fetched. *)
Theorem missing_proxy_section_is_fatal doc :
  falsy (doc !! "proxy") = true →
  loadConfig (inr (YMap doc)) =
    inl (Error "Proxy configuration is missing in the config file.") ∧
  ∀ shell now w,
    main shell (inr (YMap doc)) now w =
      (inr (Some
              (Fatal (Error "Proxy configuration is missing in the config file.")
                 1)),
       w).
Proof.
  intros Hfalsy.
  assert (loadConfig (inr (YMap doc)) =
            inl (Error "Proxy configuration is missing in the config file."))
    as Hload.
  { unfold loadConfig, get_prop. cbv beta iota.
    destruct (doc !! "proxy") as [q|]; [|reflexivity]. by rewrite Hfalsy. }
  split; [exact Hload|]. intros shell now w. unfold main. by rewrite Hload.
Qed.

(** [main] once the configuration is loaded: the first token is asked
    for, and the process listens or, for a port no server can listen on,
    ends. *)
Lemma main_loaded shell file proxy cfg now w :
  loadConfig file = inr proxy →
  as_ProxyConfig proxy = Some cfg →
  main shell file now w =
    (inr (Some
            match listen (listenPort cfg) with
            | inr _ => Listening (listenPort cfg) "0.0.0.0"
            | inl err => Fatal err 1
            end),
     (getToken shell cfg now w).2).
Proof.
  intros Hload Hcfg. unfold main. rewrite Hload, Hcfg. unfold bind, ret.
  destruct (getToken_returns shell cfg now w) as (r & w' & -> & _).
  simpl. by destruct (listen (listenPort cfg)).
Qed.

(** X13. Once the configuration is loaded and the first token command has
    exited, whatever its outcome, the server listens on the configured port
    and on all interfaces, provided the port is between 0 and 65535; for a
    port outside that range [listen] throws and the process ends with code
    1.  Either way start-up runs the token command exactly once and opens no
    outbound request. *)
Theorem main_listens_whatever_the_first_fetch shell file proxy cfg now :
  loadConfig file = inr proxy →
  as_ProxyConfig proxy = Some cfg →
  ((0 ≤ listenPort cfg ≤ 65535)%Z →
     (main shell file now initial_world).1 =
       inr (Some (Listening (listenPort cfg) "0.0.0.0"))) ∧
  ((listenPort cfg < 0 ∨ 65535 < listenPort cfg)%Z →
     ∃ text,
       (main shell file now initial_world).1 =
         inr (Some (Fatal (RangeError text) 1))) ∧
  execLog (main shell file now initial_world).2 =
    [ token_command (cloudflaredAppUrl cfg) ] ∧
  upstream (main shell file now initial_world).2 = [].
Proof.
  intros Hload Hcfg.
  rewrite (main_loaded shell file proxy cfg now initial_world Hload Hcfg).
  pose proof (getToken_miss_log shell cfg now initial_world
                (or_introl eq_refl)) as Hlog.
  destruct (getToken_returns shell cfg now initial_world)
    as (r & w' & Hget & _ & Hup & _ & _).
  rewrite Hget in Hlog |- *. simpl in *.
  split; [|split; [|auto]].
  - intros Hport. unfold listen.
    assert ((0 <=? listenPort cfg)%Z = true) as -> by (apply Z.leb_le; lia).
    assert ((listenPort cfg <=? 65535)%Z = true) as -> by (apply Z.leb_le; lia).
    reflexivity.
  - intros Hport. unfold listen.
    assert ((0 <=? listenPort cfg)%Z && (listenPort cfg <=? 65535)%Z = false)
      as ->; [|by eexists].
    apply andb_false_iff. destruct Hport; [left|right]; apply Z.leb_gt; lia.
Qed.

(** X10. From the world [main] leaves and over any sequence of events
    (requests arriving with lower-case header names, commands settling,
    upstream responses, upstream errors, in any interleaving), every
    outbound request ever opened goes over TLS to the configured host and
    port and is sent with the configured user name and password, the
    configured target as Host, and a cookie with a token that is not empty
    and has no white space around it.  There are never more outbound
    requests than requests of clients, and never more token commands than
    one, for start-up, plus one for each request of a client. *)
Theorem every_outbound_request_is_authenticated
    shell refuses file proxy proxyConfig now evs :
  loadConfig file = inr proxy →
  as_ProxyConfig proxy = Some proxyConfig →
  Forall well_formed evs →
  Forall (authenticated proxyConfig)
    (upstream
       (world
          (loop refuses proxyConfig evs
             (serving (main shell file now initial_world).2)))) ∧
  (List.length
     (upstream
        (world
           (loop refuses proxyConfig evs
              (serving (main shell file now initial_world).2)))) ≤
   arrivals evs)%nat ∧
  (List.length
     (execLog
        (world
           (loop refuses proxyConfig evs
              (serving (main shell file now initial_world).2)))) ≤
   1 + arrivals evs)%nat.
Proof.
  intros Hload Hcfg Hwf.
  rewrite (main_loaded shell file proxy proxyConfig now initial_world
             Hload Hcfg).
  change ((inr (Some
                  match listen (listenPort proxyConfig) with
                  | inr _ => Listening (listenPort proxyConfig) "0.0.0.0"
                  | inl err => Fatal err 1
                  end),
           (getToken shell proxyConfig now initial_world).2).2)
    with (getToken shell proxyConfig now initial_world).2.
  destruct (getToken_clean shell proxyConfig now initial_world
              initial_cache_clean)
    as (r & w' & Hget & Hclean & _ & _ & Hup & _).
  pose proof (getToken_miss_log shell proxyConfig now initial_world
                (or_introl eq_refl)) as Hlog.
  rewrite Hget in Hlog |- *. simpl in Hlog, Hup.
  change ((inr r, w').2) with w'.
  destruct (loop_invariant refuses proxyConfig evs (serving w') Hwf)
    as (_ & Hall & Hcount & Hcmds).
  - exact Hclean.
  - simpl. rewrite Hup. constructor.
  - intros c conn Hc. simpl in Hc. by rewrite lookup_empty in Hc.
  - split; [exact Hall|].
    assert (pending (serving w') = 0%nat) as Hzero.
    { unfold pending, serving. simpl. by rewrite map_filter_empty. }
    rewrite Hzero in Hcount. simpl in Hcount, Hcmds.
    rewrite Hup in Hcount. rewrite Hlog in Hcmds. simpl in Hcount, Hcmds.
    lia.
Qed.

(** ** The earlier variant *)

(** X14. The earlier loader accepts exactly the documents that are mappings
    with a truthy [proxy] entry and returns the whole document, without
    looking for any key of the section; every failure, whatever its cause,
    surfaces as the one error [Error loading config]. *)
Theorem legacy_loadConfig_accepts_iff file :
  (∀ config,
     Legacy.loadConfig file = inr config ↔
     ∃ doc,
       file = inr (YMap doc) ∧ config = YMap doc ∧
       falsy (doc !! "proxy") = false) ∧
  (∀ e, Legacy.loadConfig file = inl e → e = Error "Error loading config").
Proof.
  split.
  - intros config. split.
    + unfold Legacy.loadConfig.
      destruct file as [e|c]; [intros H; discriminate H|].
      destruct c as [|b|n|s|items|doc]; simpl; try (intros H; discriminate H).
      destruct (falsy (doc !! "proxy")) eqn:Hf; [intros H; discriminate H|].
      intros [= <-]. by exists doc.
    + intros (doc & -> & -> & Hf). unfold Legacy.loadConfig. simpl.
      by rewrite Hf.
  - intros e. unfold Legacy.loadConfig.
    destruct file as [e'|c]; [by intros [= <-]|].
    destruct (get_prop c "proxy") as [e'|proxy]; [by intros [= <-]|].
    destruct (falsy proxy); [by intros [= <-]|intros H; discriminate H].
Qed.

Lemma legacy_keep_spec key :
  Legacy.keep key = true ↔
  toLowerCase key ∉ ["proxy-connection"; "transfer-encoding"].
Proof.
  unfold Legacy.keep.
  rewrite !andb_true_iff, !negb_true_iff, !String.eqb_neq.
  rewrite !not_elem_of_cons. split.
  - intros [? ?]. repeat split; auto. apply not_elem_of_nil.
  - intros (? & ? & _). auto.
Qed.

Lemma legacy_foldl_copy_header inbound keys acc key :
  obj_get key (foldl (Legacy.copy_header inbound) acc keys) =
    if bool_decide (key ∈ keys) && Legacy.keep key then
      match inbound !! key with
      | Some v => Some v
      | None => obj_get key acc
      end
    else obj_get key acc.
Proof.
  revert acc. induction keys as [|k keys IH]; intros acc; [reflexivity|].
  simpl. rewrite IH. clear IH. unfold Legacy.copy_header.
  destruct (decide (key = k)) as [->|Hne].
  - rewrite (bool_decide_eq_true_2 (k ∈ k :: keys)) by apply list_elem_of_here.
    destruct (Legacy.keep k), (inbound !! k) as [v|] eqn:Hv,
      (bool_decide (k ∈ keys)); simpl; rewrite ?Hv, ?obj_get_set_eq;
      reflexivity.
  - assert (bool_decide (key ∈ k :: keys) = bool_decide (key ∈ keys)) as ->.
    { apply bool_decide_ext. rewrite elem_of_cons. tauto. }
    destruct (Legacy.keep k), (inbound !! k) as [v|];
      rewrite ?obj_get_set_ne by done; reflexivity.
Qed.

Lemma legacy_copyHeaders_get inbound key :
  obj_get key (Legacy.copyHeaders inbound) =
    if Legacy.keep key then inbound !! key else None.
Proof.
  unfold Legacy.copyHeaders. rewrite legacy_foldl_copy_header. simpl.
  destruct (Legacy.keep key); [|by rewrite andb_false_r].
  rewrite andb_true_r. case_bool_decide as Hin.
  - by destruct (inbound !! key).
  - destruct (inbound !! key) eqn:Hv; [|done].
    exfalso. apply Hin, Object_keys_spec. by eexists.
Qed.

Lemma legacy_copyHeaders_lowercase inbound k :
  lowercase_names inbound → k ∈ (Legacy.copyHeaders inbound).*1 →
  toLowerCase k = k.
Proof.
  intros Hlow Hk. apply obj_get_is_Some in Hk.
  rewrite legacy_copyHeaders_get in Hk.
  destruct (Legacy.keep k); [by apply Hlow|by destruct Hk].
Qed.

Lemma legacy_outboundHeaders_keys targetHost cookieName token inbound key :
  key ∈ (Legacy.outboundHeaders targetHost cookieName token inbound).*1 →
  key ∈ ["Host"; "Cookie"] ∨ Legacy.keep key = true.
Proof.
  intros Hin.
  destruct (decide (key ∈ ["Host"; "Cookie"])) as [|Hni]; [by left|].
  right. apply obj_get_is_Some in Hin. rewrite !not_elem_of_cons in Hni.
  destruct Hni as (? & ? & _).
  unfold Legacy.outboundHeaders in Hin. cbv zeta in Hin.
  rewrite !obj_get_set_ne, legacy_copyHeaders_get in Hin by done.
  destruct (Legacy.keep key); [done|]. by destruct Hin.
Qed.

Lemma legacy_outboundHeaders_app targetHost cookieName token inbound :
  lowercase_names inbound →
  Legacy.outboundHeaders targetHost cookieName token inbound =
    (Legacy.copyHeaders inbound ++
     [ ("Host", HStr targetHost);
       ("Cookie", HStr (template cookieName ++ "=" ++ token)) ])%list.
Proof.
  intros Hlow. unfold Legacy.outboundHeaders. cbv zeta.
  assert (∀ key, toLowerCase key ≠ key →
            obj_get key (Legacy.copyHeaders inbound) = None) as Hnone.
  { intros key Hne. rewrite legacy_copyHeaders_get.
    rewrite (lowercase_names_absent inbound key Hlow Hne).
    by destruct (Legacy.keep key). }
  rewrite (obj_set_fresh "Host") by by apply Hnone.
  rewrite (obj_set_fresh "Cookie")
    by (rewrite obj_get_app, Hnone by done; reflexivity).
  by rewrite <- !app_assoc.
Qed.

(** X15. The earlier listener strips Proxy-Connection and Transfer-Encoding,
    in any letter case, and nothing else, and sets [Host] and [Cookie].  Of
    the headers that go out, with the inbound names in lower case as Node
    delivers them, Host is the configured target and Cookie is
    cookieName=token, whatever the client sent under these two names; every
    other inbound header goes out as it came, a client's Authorization and
    the two ClickHouse credentials among them. *)
Theorem legacy_headers_pass_client_credentials
    targetHost cookieName token (inbound : gmap string hval) :
  sentHeaders (Legacy.outboundHeaders targetHost cookieName token inbound)
    !! "proxy-connection" = None ∧
  sentHeaders (Legacy.outboundHeaders targetHost cookieName token inbound)
    !! "transfer-encoding" = None ∧
  (lowercase_names inbound →
   sentHeaders (Legacy.outboundHeaders targetHost cookieName token inbound)
     !! "host" = Some ("Host", HStr targetHost) ∧
   sentHeaders (Legacy.outboundHeaders targetHost cookieName token inbound)
     !! "cookie" =
     Some ("Cookie", HStr (template cookieName ++ "=" ++ token)) ∧
   sentHeaders (Legacy.outboundHeaders targetHost cookieName token inbound)
     !! "authorization" =
     (λ v, ("authorization", v)) <$> inbound !! "authorization" ∧
   ∀ name,
     name ∉ ["proxy-connection"; "transfer-encoding"; "host"; "cookie"] →
     sentHeaders (Legacy.outboundHeaders targetHost cookieName token inbound)
       !! name = (λ v, (name, v)) <$> inbound !! name).
Proof.
  assert (∀ n, n ∈ ["proxy-connection"; "transfer-encoding"] →
            sentHeaders
              (Legacy.outboundHeaders targetHost cookieName token inbound)
              !! n = None) as Hnone.
  { intros n Hn. apply sentHeaders_none. intros key Hin Hlow.
    destruct (legacy_outboundHeaders_keys _ _ _ _ _ Hin) as [Hinj|Hkeep].
    - rewrite !elem_of_cons in Hinj, Hn.
      destruct Hinj as [->|[->|Hnil]]; [| |by apply elem_of_nil in Hnil];
        subst n; destruct Hn as [?|[?|Hnil]]; try discriminate;
        by apply elem_of_nil in Hnil.
    - apply legacy_keep_spec in Hkeep. apply Hkeep. by rewrite Hlow. }
  split; [apply Hnone; rewrite !elem_of_cons; tauto|].
  split; [apply Hnone; rewrite !elem_of_cons; tauto|].
  intros Hlow.
  assert (∀ name,
            name ∉ ["proxy-connection"; "transfer-encoding"; "host"; "cookie"] →
            sentHeaders
              (Legacy.outboundHeaders targetHost cookieName token inbound)
              !! name = (λ v, (name, v)) <$> inbound !! name) as Hother.
  { intros name Hname. rewrite !not_elem_of_cons in Hname.
    destruct Hname as (Hn1 & Hn2 & Hn3 & Hn4 & _).
    rewrite (legacy_outboundHeaders_app _ _ _ _ Hlow).
    rewrite sentHeaders_app.
    - simpl. unfold setHeader. simpl. rewrite !lookup_insert_ne by done.
      rewrite sentHeaders_lowercase
        by (intros k Hk; by apply (legacy_copyHeaders_lowercase inbound)).
      rewrite legacy_copyHeaders_get.
      destruct (Legacy.keep name) eqn:Hkeep; [reflexivity|].
      destruct (inbound !! name) as [v|] eqn:Hv; [|reflexivity].
      exfalso.
      assert (toLowerCase name = name) as Hl by (apply Hlow; by eexists).
      assert (Legacy.keep name = true) as Hk; [|congruence].
      apply legacy_keep_spec. rewrite Hl, !not_elem_of_cons.
      auto using not_elem_of_nil.
    - intros k Hk. simpl in Hk. rewrite !elem_of_cons in Hk.
      destruct Hk as [->|[->|Hk]]; try reflexivity.
      by apply elem_of_nil in Hk.
    - intros k Hk Hin.
      apply (legacy_copyHeaders_lowercase inbound k Hlow) in Hin.
      simpl in Hk. rewrite !elem_of_cons in Hk.
      destruct Hk as [->|[->|Hk]]; try discriminate Hin.
      by apply elem_of_nil in Hk.
    - simpl. apply (bool_decide_unpack _). by vm_compute. }
  split; [|split; [|split; [|exact Hother]]].
  - rewrite (legacy_outboundHeaders_app _ _ _ _ Hlow).
    rewrite sentHeaders_app.
    + simpl. unfold setHeader. simpl.
      by rewrite lookup_insert_ne, lookup_insert_eq.
    + intros k Hk. simpl in Hk. rewrite !elem_of_cons in Hk.
      destruct Hk as [->|[->|Hk]]; try reflexivity.
      by apply elem_of_nil in Hk.
    + intros k Hk Hin.
      apply (legacy_copyHeaders_lowercase inbound k Hlow) in Hin.
      simpl in Hk. rewrite !elem_of_cons in Hk.
      destruct Hk as [->|[->|Hk]]; try discriminate Hin.
      by apply elem_of_nil in Hk.
    + simpl. apply (bool_decide_unpack _). by vm_compute.
  - rewrite (legacy_outboundHeaders_app _ _ _ _ Hlow).
    rewrite sentHeaders_app.
    + simpl. unfold setHeader. simpl. by rewrite lookup_insert_eq.
    + intros k Hk. simpl in Hk. rewrite !elem_of_cons in Hk.
      destruct Hk as [->|[->|Hk]]; try reflexivity.
      by apply elem_of_nil in Hk.
    + intros k Hk Hin.
      apply (legacy_copyHeaders_lowercase inbound k Hlow) in Hin.
      simpl in Hk. rewrite !elem_of_cons in Hk.
      destruct Hk as [->|[->|Hk]]; try discriminate Hin.
      by apply elem_of_nil in Hk.
    + simpl. apply (bool_decide_unpack _). by vm_compute.
  - apply Hother. rewrite !not_elem_of_cons.
    repeat split; try discriminate. apply not_elem_of_nil.
Qed.

Lemma Map_set_fresh k v (m : list (string * nat)) :
  k ∉ m.*1 → Legacy.Map_set k v m = (m ++ [(k, v)])%list.
Proof.
  induction m as [|[k' v'] m IH]; intros Hk; [reflexivity|]. simpl.
  rewrite fmap_cons in Hk. apply not_elem_of_cons in Hk as [Hne Hk].
  destruct (String.eqb_spec k k') as [->|_]; [done|]. by rewrite IH.
Qed.

Lemma startTunnels_fresh spawn configs t :
  NoDup (Legacy.name <$> configs) →
  (∀ config, config ∈ configs →
     Legacy.name config ∉ (Legacy.activeProcesses t).*1) →
  foldl (λ t config, Legacy.startTunnel spawn config t) t configs =
    {| Legacy.activeProcesses :=
         (Legacy.activeProcesses t ++
          spawned_entries spawn (List.length (Legacy.spawnLog t)) configs)%list;
       Legacy.spawnLog := (Legacy.spawnLog t ++ configs)%list;
       Legacy.signalLog := Legacy.signalLog t |}.
Proof.
  revert t. induction configs as [|c configs IH]; intros t Hnd Hfresh.
  - simpl. rewrite !app_nil_r. by destruct t.
  - rewrite fmap_cons in Hnd. inversion Hnd as [|n0 l0 Hc Hnd']; subst n0 l0.
    simpl. rewrite IH; [|exact Hnd'|].
    + unfold Legacy.startTunnel.
      destruct (spawn (List.length (Legacy.spawnLog t)) c) as [proc|e]; simpl;
        rewrite length_app, Nat.add_1_r, <- !app_assoc; simpl; [|reflexivity].
      rewrite Map_set_fresh by (apply Hfresh, list_elem_of_here).
      by rewrite <- app_assoc.
    + intros c' Hc'. unfold Legacy.startTunnel.
      assert (Legacy.name c' ∉ (Legacy.activeProcesses t).*1) as Hold
        by (apply Hfresh; by apply list_elem_of_further).
      destruct (spawn (List.length (Legacy.spawnLog t)) c) as [proc|e]; simpl;
        [|exact Hold].
      rewrite Map_set_fresh by (apply Hfresh, list_elem_of_here).
      rewrite fmap_app. simpl. rewrite elem_of_app, list_elem_of_singleton.
      intros [Hin|Heq]; [by apply Hold|].
      apply Hc. rewrite <- Heq. by apply list_elem_of_fmap_2.
Qed.

(** X16. Tunnels with distinct names, none of them in the map yet, are
    handed to [spawn] one after the other in the order of the
    configuration, a throw of [spawn] stopping none of the later ones; the
    map gains, in that order, one entry for every spawn that did not throw,
    and no signal is sent. *)
Theorem startAllTunnels_registers_in_order spawn configs t :
  NoDup (Legacy.name <$> configs) →
  (∀ config, config ∈ configs →
     Legacy.name config ∉ (Legacy.activeProcesses t).*1) →
  Legacy.startAllTunnels spawn (Some configs) t =
    (inr (),
     {| Legacy.activeProcesses :=
          (Legacy.activeProcesses t ++
           spawned_entries spawn (List.length (Legacy.spawnLog t)) configs)%list;
        Legacy.spawnLog := (Legacy.spawnLog t ++ configs)%list;
        Legacy.signalLog := Legacy.signalLog t |}).
Proof.
  intros Hnd Hfresh. unfold Legacy.startAllTunnels.
  rewrite <- (startTunnels_fresh spawn configs t Hnd Hfresh).
  by destruct configs.
Qed.

(** X17. When two tunnels share a name and both are spawned, the second
    takes the place of the first in the map: shutting down signals the
    second process only, and once the first process has closed, its handler
    has removed the entry and shutting down signals no process at all. *)
Theorem same_name_loses_a_process spawn c1 c2 p1 p2 :
  Legacy.name c1 = Legacy.name c2 →
  spawn 0%nat c1 = Legacy.Spawned p1 →
  spawn 1%nat c2 = Legacy.Spawned p2 →
  Legacy.activeProcesses
    (Legacy.startAllTunnels spawn (Some [c1; c2]) Legacy.no_tunnels).2 =
    [ (Legacy.name c2, p2) ] ∧
  Legacy.signalLog
    (Legacy.stopAllTunnels
       (Legacy.startAllTunnels spawn (Some [c1; c2]) Legacy.no_tunnels).2) =
    [ (p2, "SIGTERM") ] ∧
  Legacy.signalLog
    (Legacy.stopAllTunnels
       (Legacy.onExit c1
          (Legacy.startAllTunnels spawn (Some [c1; c2]) Legacy.no_tunnels).2)) =
    [].
Proof.
  intros Hname H1 H2.
  assert ((Legacy.startAllTunnels spawn (Some [c1; c2]) Legacy.no_tunnels).2 =
            {| Legacy.activeProcesses := [ (Legacy.name c2, p2) ];
               Legacy.spawnLog := [c1; c2];
               Legacy.signalLog := [] |}) as ->.
  { unfold Legacy.startAllTunnels, Legacy.startTunnel. simpl.
    rewrite H1. simpl. rewrite H2. simpl.
    rewrite Hname, String.eqb_refl. reflexivity. }
  split; [reflexivity|]. split; [reflexivity|].
  unfold Legacy.onExit, Legacy.stopAllTunnels. simpl.
  rewrite Hname, String.eqb_refl. reflexivity.
Qed.


(** ** The properties at the sample inputs *)

(** A warm cache at time 1000 serves [tok] without a fetch. *)
Lemma getToken_cached_no_fetch_witness :
  cache_inv warm_world ∧
  cachedToken warm_world = Some "tok" ∧
  tokenExpiry warm_world = Num 5000 ∧
  (1000 < 5000)%Z ∧
  getToken token_shell scenario_config 1000 warm_world =
    (inr (Some "tok"), warm_world) ∧
  execLog (getToken token_shell scenario_config 1000 warm_world).2 =
    execLog warm_world.
Proof.
  assert (cache_inv warm_world) as Hinv by (intros H; discriminate H).
  assert ((1000 < 5000)%Z) as Hlt by reflexivity.
  split; [exact Hinv|]. split; [reflexivity|]. split; [reflexivity|].
  split; [exact Hlt|].
  exact (getToken_cached_no_fetch token_shell scenario_config 1000
           warm_world "tok" 5000 Hinv eq_refl eq_refl Hlt).
Defined.

(** The first call of the process fetches once and caches until 301000. *)
Lemma getToken_miss_fetches_once_witness :
  tokenCacheDurationMs scenario_config = Some 300000%Z ∧
  cache_miss 1000 initial_world ∧
  execLog (getToken token_shell scenario_config 1000 initial_world).2 =
    [ "cloudflared access token --app=https://db.example.com" ] ∧
  ∀ token,
    fetch_success
      (token_shell 0%nat "cloudflared access token --app=https://db.example.com")
      token →
    (getToken token_shell scenario_config 1000 initial_world).1 =
      inr (Some token) ∧
    cachedToken (getToken token_shell scenario_config 1000 initial_world).2 =
      Some token ∧
    tokenExpiry (getToken token_shell scenario_config 1000 initial_world).2 =
      Num (1000 + 300000).
Proof.
  assert (cache_miss 1000 initial_world) as Hmiss by (left; reflexivity).
  split; [reflexivity|]. split; [exact Hmiss|].
  exact (getToken_miss_fetches_once token_shell scenario_config 1000
           initial_world 300000 eq_refl Hmiss).
Defined.

(** An expired token and a helper that prints nothing: the cache is emptied. *)
Lemma getToken_failure_clears_cache_witness :
  cache_miss 6000 warm_world ∧
  fetch_failure
    (silent_shell 0%nat "cloudflared access token --app=https://db.example.com") ∧
  (getToken silent_shell scenario_config 6000 warm_world).1 = inr None ∧
  cachedToken (getToken silent_shell scenario_config 6000 warm_world).2 = None ∧
  tokenExpiry (getToken silent_shell scenario_config 6000 warm_world).2 = Num 0 ∧
  ∀ proxyConfig' now',
    execLog
      (getToken silent_shell proxyConfig' now'
         (getToken silent_shell scenario_config 6000 warm_world).2).2 =
      (execLog (getToken silent_shell scenario_config 6000 warm_world).2 ++
       [token_command (cloudflaredAppUrl proxyConfig')])%list.
Proof.
  assert (cache_miss 6000 warm_world) as Hmiss.
  { right. intros e He. injection He as <-. discriminate. }
  assert (fetch_failure
            (silent_shell 0%nat
               "cloudflared access token --app=https://db.example.com")) as Hf.
  { exact (fail_empty "" eq_refl). }
  split; [exact Hmiss|]. split; [exact Hf|].
  exact (getToken_failure_clears_cache silent_shell scenario_config 6000
           warm_world Hmiss Hf).
Defined.

Lemma lowercase_get_select_1 : lowercase_names (reqHeaders get_select_1).
Proof.
  apply lowercase_names_insert; [reflexivity|].
  apply lowercase_names_insert; [reflexivity|]. apply lowercase_names_empty.
Defined.

Lemma lowercase_get_with_cookie :
  lowercase_names (reqHeaders get_with_cookie).
Proof.
  apply lowercase_names_insert; [reflexivity|].
  apply lowercase_names_insert; [reflexivity|]. apply lowercase_names_empty.
Defined.

(** No token for the first request of the scenario: a 500 and no upstream. *)
Lemma no_token_no_upstream_witness :
  clientRes initial_world = fresh_response ∧
  (getToken silent_shell scenario_config 1000 initial_world).1 = inr None ∧
  (requestListener silent_shell node_refuses scenario_config 1000 get_select_1
     initial_world).1 = inr () ∧
  clientRes
    (requestListener silent_shell node_refuses scenario_config 1000
       get_select_1 initial_world).2 =
    {| headersSent := true; statusCode := 500;
       resHeaders := {["Content-Type" := HStr "text/plain"]};
       written :=
         ["Internal Server Error: Could not obtain authorization token."];
       finished := true |} ∧
  upstream
    (requestListener silent_shell node_refuses scenario_config 1000
       get_select_1 initial_world).2 = upstream initial_world.
Proof.
  split; [reflexivity|]. split; [reflexivity|].
  exact (no_token_no_upstream silent_shell node_refuses scenario_config 1000
           get_select_1 initial_world eq_refl eq_refl).
Defined.

(** The request that came with a cookie of its own: what goes out. *)
Lemma forwarded_headers_witness :
  upstream
    (requestListener token_shell node_refuses scenario_config 1000
       get_with_cookie warm_world).2 =
    (upstream warm_world ++
     [forwarded scenario_config "tok" get_with_cookie])%list ∧
  lowercase_names (reqHeaders get_with_cookie) ∧
  ∃ token,
    (getToken token_shell scenario_config 1000 warm_world).1 =
      inr (Some token) ∧
    token ≠ "" ∧
    sent (forwarded scenario_config "tok" get_with_cookie)
      !! "proxy-connection" = None ∧
    sent (forwarded scenario_config "tok" get_with_cookie)
      !! "transfer-encoding" = None ∧
    sent (forwarded scenario_config "tok" get_with_cookie)
      !! "authorization" = None ∧
    sent (forwarded scenario_config "tok" get_with_cookie) !! "host" =
      Some ("Host", HStr "db.example.com") ∧
    count_named "Proxy-Connection"
      (forwarded scenario_config "tok" get_with_cookie) = 0%nat ∧
    count_named "Transfer-Encoding"
      (forwarded scenario_config "tok" get_with_cookie) = 0%nat ∧
    count_named "Authorization"
      (forwarded scenario_config "tok" get_with_cookie) = 0%nat ∧
    count_named "Host" (forwarded scenario_config "tok" get_with_cookie) =
      1%nat ∧
    count_named "Cookie" (forwarded scenario_config "tok" get_with_cookie) =
      1%nat ∧
    count_named "X-ClickHouse-User"
      (forwarded scenario_config "tok" get_with_cookie) = 1%nat ∧
    count_named "X-ClickHouse-Key"
      (forwarded scenario_config "tok" get_with_cookie) = 1%nat ∧
    (lowercase_names (reqHeaders get_with_cookie) →
     sent (forwarded scenario_config "tok" get_with_cookie) !! "cookie" =
       Some ("Cookie", HStr ("CF_Authorization" ++ "=" ++ token)) ∧
     sent (forwarded scenario_config "tok" get_with_cookie)
       !! "x-clickhouse-user" = Some ("X-ClickHouse-User", HStr "alice") ∧
     sent (forwarded scenario_config "tok" get_with_cookie)
       !! "x-clickhouse-key" = Some ("X-ClickHouse-Key", HStr "secret") ∧
     ∀ name,
       name ∉ ["proxy-connection"; "transfer-encoding"; "authorization";
               "host"; "cookie"; "x-clickhouse-user"; "x-clickhouse-key"] →
       sent (forwarded scenario_config "tok" get_with_cookie) !! name =
         (λ v, (name, v)) <$> reqHeaders get_with_cookie !! name).
Proof.
  assert (upstream
            (requestListener token_shell node_refuses scenario_config 1000
               get_with_cookie warm_world).2 =
          (upstream warm_world ++
           [forwarded scenario_config "tok" get_with_cookie])%list) as Hgrew
    by (vm_compute; reflexivity).
  split; [exact Hgrew|]. split; [exact lowercase_get_with_cookie|].
  exact (forwarded_headers token_shell node_refuses scenario_config 1000
           get_with_cookie warm_world
           (forwarded scenario_config "tok" get_with_cookie) Hgrew).
Defined.

(** A 404 of the upstream is relayed as 404; a response without a status
    code is relayed as 200. *)
Lemma relayed_status_witness :
  headersSent (clientRes initial_world) = false ∧
  upStatusCode upstream_404 = Some 404%Z ∧
  ((onResponse upstream_404 initial_world).1 = inr () ∧
   headersSent (clientRes (onResponse upstream_404 initial_world).2) = true ∧
   statusCode (clientRes (onResponse upstream_404 initial_world).2) = 404%Z) ∧
  upStatusCode upstream_no_status = None ∧
  ((onResponse upstream_no_status initial_world).1 = inr () ∧
   headersSent (clientRes (onResponse upstream_no_status initial_world).2) =
     true ∧
   statusCode (clientRes (onResponse upstream_no_status initial_world).2) =
     200%Z).
Proof.
  assert ((100 ≤ 404 ≤ 999)%Z) as Hrange by lia.
  split; [reflexivity|]. split; [reflexivity|]. split.
  - exact (proj1 (relayed_status upstream_404 initial_world eq_refl)
             404%Z eq_refl Hrange).
  - split; [reflexivity|].
    exact (proj1 (proj2 (relayed_status upstream_no_status initial_world
                           eq_refl))
             (or_introl eq_refl)).
Defined.


(** A warm cache is clean, and stays so over a call. *)
Lemma getToken_keeps_cache_clean_witness :
  cache_clean warm_world ∧
  cache_clean (getToken token_shell scenario_config 1000 warm_world).2 ∧
  ∀ token,
    (getToken token_shell scenario_config 1000 warm_world).1 =
      inr (Some token) →
    clean token.
Proof.
  assert (cache_clean warm_world) as Hclean.
  { intros token Htok. injection Htok as <-. repeat split. discriminate. }
  split; [exact Hclean|].
  exact (getToken_keeps_cache_clean token_shell scenario_config 1000
           warm_world Hclean).
Defined.

(** The helper's output, a token and a line feed, is stored without the
    line feed. *)
Lemma fetchToken_token_is_trimmed_output_witness :
  fetchToken token_shell "https://db.example.com" initial_world =
    (inr "tok",
     {| cachedToken := None; tokenExpiry := Num 0;
        execLog := [ "cloudflared access token --app=https://db.example.com" ];
        clientRes := fresh_response; upstream := [] |}) ∧
  ∃ stdout,
    token_shell (List.length (execLog initial_world))
      (token_command "https://db.example.com") = Resolved stdout "" ∧
    "tok" = trim stdout ∧
    clean "tok" ∧
    [ "cloudflared access token --app=https://db.example.com" ] =
      (execLog initial_world ++
       [token_command "https://db.example.com"])%list.
Proof.
  split; [reflexivity|].
  exact (fetchToken_token_is_trimmed_output token_shell
           "https://db.example.com" initial_world "tok" _ eq_refl).
Defined.

(** Fetched at 1000 for 300000 ms, served at 300999. *)
Lemma token_served_within_window_witness :
  tokenCacheDurationMs scenario_config = Some 300000%Z ∧
  cache_miss 1000 initial_world ∧
  fetch_success
    (token_shell (List.length (execLog initial_world))
       (token_command (cloudflaredAppUrl scenario_config))) "tok" ∧
  (300999 < 1000 + 300000)%Z ∧
  getToken token_shell scenario_config 300999
    (getToken token_shell scenario_config 1000 initial_world).2 =
    (inr (Some "tok"),
     (getToken token_shell scenario_config 1000 initial_world).2).
Proof.
  assert (cache_miss 1000 initial_world) as Hmiss by (left; reflexivity).
  assert (fetch_success
            (token_shell (List.length (execLog initial_world))
               (token_command (cloudflaredAppUrl scenario_config))) "tok")
    as Hs.
  { refine (fetch_ok (String.append "tok" (String "010"%char EmptyString)) _).
    discriminate. }
  assert ((300999 < 1000 + 300000)%Z) as Hlt by reflexivity.
  split; [reflexivity|]. split; [exact Hmiss|]. split; [exact Hs|].
  split; [exact Hlt|].
  exact (token_served_within_window token_shell scenario_config 1000 300999
           initial_world 300000 "tok" eq_refl Hmiss Hs Hlt).
Defined.

(** Fetched at 1000 for 300000 ms, fetched again at 301000. *)
Lemma token_refetched_from_expiry_witness :
  tokenCacheDurationMs scenario_config = Some 300000%Z ∧
  cache_miss 1000 initial_world ∧
  fetch_success
    (token_shell (List.length (execLog initial_world))
       (token_command (cloudflaredAppUrl scenario_config))) "tok" ∧
  (1000 + 300000 ≤ 301000)%Z ∧
  execLog
    (getToken token_shell scenario_config 301000
       (getToken token_shell scenario_config 1000 initial_world).2).2 =
    (execLog initial_world ++
     [ token_command (cloudflaredAppUrl scenario_config);
       token_command (cloudflaredAppUrl scenario_config) ])%list.
Proof.
  assert (cache_miss 1000 initial_world) as Hmiss by (left; reflexivity).
  assert (fetch_success
            (token_shell (List.length (execLog initial_world))
               (token_command (cloudflaredAppUrl scenario_config))) "tok")
    as Hs.
  { refine (fetch_ok (String.append "tok" (String "010"%char EmptyString)) _).
    discriminate. }
  assert ((1000 + 300000 ≤ 301000)%Z) as Hle by (intros H; discriminate H).
  split; [reflexivity|]. split; [exact Hmiss|]. split; [exact Hs|].
  split; [exact Hle|].
  exact (token_refetched_from_expiry token_shell scenario_config 1000 301000
           initial_world 300000 "tok" eq_refl Hmiss Hs Hle).
Defined.

(** The first request of the process: forwarded when the helper prints a
    token, answered with the 500 when it prints nothing. *)
Lemma requestListener_forwards_or_aborts_witness :
  clientRes initial_world = fresh_response ∧
  ((requestListener token_shell node_refuses scenario_config 1000 get_select_1
      initial_world).1 = inr () ∧
   upstream
     (requestListener token_shell node_refuses scenario_config 1000
        get_select_1 initial_world).2 =
     [ forwarded scenario_config "tok" get_select_1 ]) ∧
  ((requestListener silent_shell node_refuses scenario_config 1000
      get_select_1 initial_world).1 = inr () ∧
   upstream
     (requestListener silent_shell node_refuses scenario_config 1000
        get_select_1 initial_world).2 = [] ∧
   clientRes
     (requestListener silent_shell node_refuses scenario_config 1000
        get_select_1 initial_world).2 =
     {| headersSent := true; statusCode := 500;
        resHeaders := {["Content-Type" := HStr "text/plain"]};
        written :=
          ["Internal Server Error: Could not obtain authorization token."];
        finished := true |}).
Proof.
  split; [reflexivity|]. split.
  - destruct (requestListener_forwards_or_aborts token_shell node_refuses
                scenario_config 1000 get_select_1 initial_world eq_refl)
      as [(token & Htok & _ & _ & Hret & Hup & _)
         |[(token & err & Htok & _ & Hno & _)|[[Hnone|Hnone] _]]].
    + split; [exact Hret|]. injection Htok as <-. exact Hup.
    + injection Htok as <-. vm_compute in Hno. discriminate Hno.
    + discriminate Hnone.
    + discriminate Hnone.
  - destruct (requestListener_forwards_or_aborts silent_shell node_refuses
                scenario_config 1000 get_select_1 initial_world eq_refl)
      as [(token & Htok & _)
         |[(token & err & Htok & _)|[_ (Hret & Hup & Hres)]]].
    + discriminate Htok.
    + discriminate Htok.
    + split; [exact Hret|]. split; [exact Hup|exact Hres].
Defined.

(** Two requests half a second apart, the command of the first settling in
    between: one command. *)
Lemma one_fetch_serves_next_request_witness :
  tokenCacheDurationMs scenario_config = Some 300000%Z ∧
  cache_miss 1000 (world (serving initial_world)) ∧
  fetch_success (Resolved token_output "") "tok" ∧
  (1500 < 1000 + 300000)%Z ∧
  node_refuses (forwarded scenario_config "tok" get_select_1) = None ∧
  node_refuses (forwarded scenario_config "tok" get_with_cookie) = None ∧
  execLog
    (world
       (loop node_refuses scenario_config
          [ Arrive 1 1000 get_select_1; Settle 1 (Resolved token_output "");
            Arrive 2 1500 get_with_cookie ]
          (serving initial_world))) =
    [ "cloudflared access token --app=https://db.example.com" ] ∧
  upstream
    (world
       (loop node_refuses scenario_config
          [ Arrive 1 1000 get_select_1; Settle 1 (Resolved token_output "");
            Arrive 2 1500 get_with_cookie ]
          (serving initial_world))) =
    [ forwarded scenario_config "tok" get_select_1;
      forwarded scenario_config "tok" get_with_cookie ].
Proof.
  assert (cache_miss 1000 (world (serving initial_world))) as Hmiss
    by (left; reflexivity).
  assert (fetch_success (Resolved token_output "") "tok") as Hs.
  { refine (fetch_ok token_output _). discriminate. }
  assert ((1500 < 1000 + 300000)%Z) as Hlt by reflexivity.
  assert (node_refuses (forwarded scenario_config "tok" get_select_1) = None)
    as Hok1 by (vm_compute; reflexivity).
  assert (node_refuses (forwarded scenario_config "tok" get_with_cookie) =
            None) as Hok2 by (vm_compute; reflexivity).
  split; [reflexivity|]. split; [exact Hmiss|]. split; [exact Hs|].
  split; [exact Hlt|]. split; [exact Hok1|]. split; [exact Hok2|].
  exact (one_fetch_serves_next_request node_refuses scenario_config 1 2 1000
           1500 get_select_1 get_with_cookie (serving initial_world) 300000
           (Resolved token_output "") "tok" eq_refl Hmiss Hs Hlt Hok1 Hok2).
Defined.

(** The helper fails once: the first request gets the 500, the second is
    forwarded. *)
Lemma failed_fetch_costs_one_request_witness :
  cache_miss 1000 (world (serving initial_world)) ∧
  fetch_failure (Rejected (Error "Command failed: cloudflared access token")) ∧
  fetch_success (Resolved token_output "") "tok" ∧
  node_refuses (forwarded scenario_config "tok" get_with_cookie) = None ∧
  connRes <$>
    conns
      (loop node_refuses scenario_config
         [ Arrive 1 1000 get_select_1;
           Settle 1 (Rejected (Error "Command failed: cloudflared access token")) ]
         (serving initial_world))
      !! 1%nat =
    Some {| headersSent := true; statusCode := 500;
            resHeaders := {["Content-Type" := HStr "text/plain"]};
            written :=
              ["Internal Server Error: Could not obtain authorization token."];
            finished := true |} ∧
  upstream
    (world
       (loop node_refuses scenario_config
          [ Arrive 1 1000 get_select_1;
            Settle 1 (Rejected (Error "Command failed: cloudflared access token")) ]
          (serving initial_world))) = [] ∧
  execLog
    (world
       (loop node_refuses scenario_config
          [ Arrive 1 1000 get_select_1;
            Settle 1 (Rejected (Error "Command failed: cloudflared access token"));
            Arrive 2 1001 get_with_cookie; Settle 2 (Resolved token_output "") ]
          (serving initial_world))) =
    [ "cloudflared access token --app=https://db.example.com";
      "cloudflared access token --app=https://db.example.com" ] ∧
  upstream
    (world
       (loop node_refuses scenario_config
          [ Arrive 1 1000 get_select_1;
            Settle 1 (Rejected (Error "Command failed: cloudflared access token"));
            Arrive 2 1001 get_with_cookie; Settle 2 (Resolved token_output "") ]
          (serving initial_world))) =
    [ forwarded scenario_config "tok" get_with_cookie ] ∧
  cachedToken
    (world
       (loop node_refuses scenario_config
          [ Arrive 1 1000 get_select_1;
            Settle 1 (Rejected (Error "Command failed: cloudflared access token"));
            Arrive 2 1001 get_with_cookie; Settle 2 (Resolved token_output "") ]
          (serving initial_world))) = Some "tok".
Proof.
  assert (cache_miss 1000 (world (serving initial_world))) as Hmiss
    by (left; reflexivity).
  assert (fetch_failure
            (Rejected (Error "Command failed: cloudflared access token")))
    as Hf by constructor.
  assert (fetch_success (Resolved token_output "") "tok") as Hs.
  { refine (fetch_ok token_output _). discriminate. }
  assert (node_refuses (forwarded scenario_config "tok" get_with_cookie) =
            None) as Hok by (vm_compute; reflexivity).
  split; [exact Hmiss|]. split; [exact Hf|]. split; [exact Hs|].
  split; [exact Hok|].
  exact (failed_fetch_costs_one_request node_refuses scenario_config 1 2 1000
           1001 get_select_1 get_with_cookie (serving initial_world)
           (Rejected (Error "Command failed: cloudflared access token"))
           (Resolved token_output "") "tok" Hmiss Hf Hs Hok).
Defined.

(** Two requests one millisecond apart, both before any command has
    settled: two commands. *)
Lemma overlapping_requests_fetch_twice_witness :
  1%nat ≠ 2%nat ∧
  cache_miss 1000 (world (serving initial_world)) ∧
  cache_miss 1001 (world (serving initial_world)) ∧
  fetch_success (Resolved token_output "") "tok" ∧
  node_refuses (forwarded scenario_config "tok" get_select_1) = None ∧
  node_refuses (forwarded scenario_config "tok" get_with_cookie) = None ∧
  execLog
    (world
       (loop node_refuses scenario_config
          [ Arrive 1 1000 get_select_1; Arrive 2 1001 get_with_cookie;
            Settle 1 (Resolved token_output "");
            Settle 2 (Resolved token_output "") ]
          (serving initial_world))) =
    [ "cloudflared access token --app=https://db.example.com";
      "cloudflared access token --app=https://db.example.com" ] ∧
  upstream
    (world
       (loop node_refuses scenario_config
          [ Arrive 1 1000 get_select_1; Arrive 2 1001 get_with_cookie;
            Settle 1 (Resolved token_output "");
            Settle 2 (Resolved token_output "") ]
          (serving initial_world))) =
    [ forwarded scenario_config "tok" get_select_1;
      forwarded scenario_config "tok" get_with_cookie ] ∧
  cachedToken
    (world
       (loop node_refuses scenario_config
          [ Arrive 1 1000 get_select_1; Arrive 2 1001 get_with_cookie;
            Settle 1 (Resolved token_output "");
            Settle 2 (Resolved token_output "") ]
          (serving initial_world))) = Some "tok" ∧
  tokenExpiry
    (world
       (loop node_refuses scenario_config
          [ Arrive 1 1000 get_select_1; Arrive 2 1001 get_with_cookie;
            Settle 1 (Resolved token_output "");
            Settle 2 (Resolved token_output "") ]
          (serving initial_world))) = Num 301001.
Proof.
  assert (1%nat ≠ 2%nat) as Hc by (intros H; discriminate H).
  assert (cache_miss 1000 (world (serving initial_world))) as Hmiss1
    by (left; reflexivity).
  assert (cache_miss 1001 (world (serving initial_world))) as Hmiss2
    by (left; reflexivity).
  assert (fetch_success (Resolved token_output "") "tok") as Hs.
  { refine (fetch_ok token_output _). discriminate. }
  assert (node_refuses (forwarded scenario_config "tok" get_select_1) = None)
    as Hok1 by (vm_compute; reflexivity).
  assert (node_refuses (forwarded scenario_config "tok" get_with_cookie) =
            None) as Hok2 by (vm_compute; reflexivity).
  split; [exact Hc|]. split; [exact Hmiss1|]. split; [exact Hmiss2|].
  split; [exact Hs|]. split; [exact Hok1|]. split; [exact Hok2|].
  exact (overlapping_requests_fetch_twice node_refuses scenario_config 1 2
           1000 1001 get_select_1 get_with_cookie (serving initial_world)
           (Resolved token_output "") (Resolved token_output "") "tok" "tok"
           Hc Hmiss1 Hmiss2 Hs Hs Hok1 Hok2).
Defined.

(** The scenario with a 404 from the upstream: it reaches the client as a
    404. *)
Lemma upstream_head_is_relayed_witness :
  clientRes warm_world = fresh_response ∧
  upstream
    (requestListener token_shell node_refuses scenario_config 1000
       get_select_1 warm_world).2 =
    (upstream warm_world ++
     [forwarded scenario_config "tok" get_select_1])%list ∧
  (∀ n, upStatusCode upstream_404 = Some n → n = 0%Z ∨ (100 ≤ n ≤ 999)%Z) ∧
  ∃ status,
    (upStatusCode upstream_404 = None ∨ upStatusCode upstream_404 = Some 0%Z →
       status = 200%Z) ∧
    (∀ n, upStatusCode upstream_404 = Some n → n ≠ 0%Z → status = n) ∧
    (onResponse upstream_404
       (requestListener token_shell node_refuses scenario_config 1000
          get_select_1 warm_world).2).1 = inr () ∧
    clientRes
      (onResponse upstream_404
         (requestListener token_shell node_refuses scenario_config 1000
            get_select_1 warm_world).2).2 =
      {| headersSent := true;
         statusCode := status;
         resHeaders := {["content-type" := HStr "text/plain"]};
         written := [];
         finished := false |}.
Proof.
  assert (upstream
            (requestListener token_shell node_refuses scenario_config 1000
               get_select_1 warm_world).2 =
          (upstream warm_world ++
           [forwarded scenario_config "tok" get_select_1])%list) as Hgrew
    by (vm_compute; reflexivity).
  assert (∀ n, upStatusCode upstream_404 = Some n →
               n = 0%Z ∨ (100 ≤ n ≤ 999)%Z) as Hstatus.
  { intros n Hn. injection Hn as <-. right. lia. }
  split; [reflexivity|]. split; [exact Hgrew|]. split; [exact Hstatus|].
  exact (upstream_head_is_relayed token_shell node_refuses scenario_config
           1000 get_select_1 upstream_404 warm_world
           (forwarded scenario_config "tok" get_select_1)
           eq_refl Hgrew Hstatus).
Defined.

(** The upstream answers 200 and the connection then breaks: the text is
    added to the body of the 200. *)
Lemma onError_ends_with_bad_gateway_witness :
  finished (clientRes (onResponse upstream_ok initial_world).2) = false ∧
  headersSent (clientRes (onResponse upstream_ok initial_world).2) = true ∧
  (onError (Error "socket hang up")
     (onResponse upstream_ok initial_world).2).1 = inr () ∧
  clientRes
    (onError (Error "socket hang up")
       (onResponse upstream_ok initial_world).2).2 =
    {| headersSent := true; statusCode := 200;
       resHeaders := {["content-type" := HStr "text/plain"]};
       written := [ "Bad Gateway: socket hang up" ];
       finished := true |}.
Proof.
  split; [reflexivity|]. split; [reflexivity|].
  destruct (onError_ends_with_bad_gateway (Error "socket hang up")
              (onResponse upstream_ok initial_world).2 eq_refl)
    as (Hret & Hres & _).
  split; [exact Hret|exact Hres].
Defined.

(** A process started from the full file, two requests and a response. *)
Lemma every_outbound_request_is_authenticated_witness :
  loadConfig scenario_file = inr (YMap
    (<["targetScheme" := YStr "https"]>
       (<["tokenCacheDurationMs" := YNum 300000]>
          (<["cookieName" := YStr "CF_Authorization"]>
             (<["listenPort" := YNum 9090]>
                (<["clickhouseUsername" := YStr "alice"]>
                   (<["clickhousePassword" := YStr "secret"]>
                      (<["targetHost" := YStr "db.example.com"]>
                         (<["targetPort" := YNum 443]>
                            (<["cloudflaredAppUrl" :=
                                 YStr "https://db.example.com"]> ∅)))))))))) ∧
  Forall well_formed
    [ Arrive 1 2000 get_with_cookie; Arrive 2 2001 get_select_1;
      Response 1 upstream_ok ] ∧
  Forall (authenticated scenario_config)
    (upstream
       (world
          (loop node_refuses scenario_config
             [ Arrive 1 2000 get_with_cookie; Arrive 2 2001 get_select_1;
               Response 1 upstream_ok ]
             (serving (main token_shell scenario_file 1000 initial_world).2)))) ∧
  (List.length
     (upstream
        (world
           (loop node_refuses scenario_config
              [ Arrive 1 2000 get_with_cookie; Arrive 2 2001 get_select_1;
                Response 1 upstream_ok ]
              (serving (main token_shell scenario_file 1000 initial_world).2)))) ≤
   arrivals
     [ Arrive 1 2000 get_with_cookie; Arrive 2 2001 get_select_1;
       Response 1 upstream_ok ])%nat ∧
  (List.length
     (execLog
        (world
           (loop node_refuses scenario_config
              [ Arrive 1 2000 get_with_cookie; Arrive 2 2001 get_select_1;
                Response 1 upstream_ok ]
              (serving (main token_shell scenario_file 1000 initial_world).2)))) ≤
   1 + arrivals
         [ Arrive 1 2000 get_with_cookie; Arrive 2 2001 get_select_1;
           Response 1 upstream_ok ])%nat.
Proof.
  assert (loadConfig scenario_file = inr (YMap
    (<["targetScheme" := YStr "https"]>
       (<["tokenCacheDurationMs" := YNum 300000]>
          (<["cookieName" := YStr "CF_Authorization"]>
             (<["listenPort" := YNum 9090]>
                (<["clickhouseUsername" := YStr "alice"]>
                   (<["clickhousePassword" := YStr "secret"]>
                      (<["targetHost" := YStr "db.example.com"]>
                         (<["targetPort" := YNum 443]>
                            (<["cloudflaredAppUrl" :=
                                 YStr "https://db.example.com"]> ∅)))))))))))
    as Hload by (vm_compute; reflexivity).
  assert (Forall well_formed
            [ Arrive 1 2000 get_with_cookie; Arrive 2 2001 get_select_1;
              Response 1 upstream_ok ]) as Hwf.
  { constructor; [exact lowercase_get_with_cookie|].
    constructor; [exact lowercase_get_select_1|].
    constructor; [exact I|constructor]. }
  split; [exact Hload|]. split; [exact Hwf|].
  refine (every_outbound_request_is_authenticated token_shell node_refuses
            scenario_file _ scenario_config 1000 _ Hload _ Hwf).
  vm_compute. reflexivity.
Defined.

(** The file with the six keys is accepted. *)
Lemma loadConfig_accepts_iff_witness :
  loadConfig six_keys_file = inr (YMap six_keys) ∧
  ∃ doc m,
    six_keys_file = inr (YMap doc) ∧
    doc !! "proxy" = Some (YMap m) ∧
    YMap six_keys = YMap m ∧
    ∀ field, field ∈ required → is_Some (m !! field).
Proof.
  assert (loadConfig six_keys_file = inr (YMap six_keys)) as Hload
    by (vm_compute; reflexivity).
  split; [exact Hload|].
  exact (proj1 (loadConfig_accepts_iff six_keys_file (YMap six_keys)) Hload).
Defined.

(** An empty mapping as the document. *)
Lemma missing_proxy_section_is_fatal_witness :
  falsy ((∅ : gmap string yaml) !! "proxy") = true ∧
  loadConfig (inr (YMap ∅)) =
    inl (Error "Proxy configuration is missing in the config file.") ∧
  ∀ shell now w,
    main shell (inr (YMap ∅)) now w =
      (inr (Some
              (Fatal (Error "Proxy configuration is missing in the config file.")
                 1)),
       w).
Proof.
  split; [reflexivity|].
  exact (missing_proxy_section_is_fatal ∅ eq_refl).
Defined.

(** The six keys and a helper that prints nothing: the server listens.
    With port 70000 in place of 9090 the process ends. *)
Lemma main_listens_whatever_the_first_fetch_witness :
  loadConfig six_keys_file = inr (YMap six_keys) ∧
  as_ProxyConfig (YMap six_keys) = Some six_keys_config ∧
  (main silent_shell six_keys_file 1000 initial_world).1 =
    inr (Some (Listening 9090 "0.0.0.0")) ∧
  execLog (main silent_shell six_keys_file 1000 initial_world).2 =
    [ "cloudflared access token --app=https://db.example.com" ] ∧
  upstream (main silent_shell six_keys_file 1000 initial_world).2 = [] ∧
  ∃ text,
    (main silent_shell bad_port_file 1000 initial_world).1 =
      inr (Some (Fatal (RangeError text) 1)).
Proof.
  assert (loadConfig six_keys_file = inr (YMap six_keys)) as Hload
    by (vm_compute; reflexivity).
  assert (as_ProxyConfig (YMap six_keys) = Some six_keys_config) as Hcfg
    by (vm_compute; reflexivity).
  assert (loadConfig bad_port_file =
            inr (YMap (<["listenPort" := YNum 70000]> six_keys))) as Hload'
    by (vm_compute; reflexivity).
  assert (as_ProxyConfig (YMap (<["listenPort" := YNum 70000]> six_keys)) =
            Some {| listenPort := 70000; targetHost := "db.example.com";
                    targetPort := 443; targetScheme := None;
                    cloudflaredAppUrl := "https://db.example.com";
                    tokenCacheDurationMs := None; cookieName := None;
                    clickhouseUsername := "alice";
                    clickhousePassword := "secret" |}) as Hcfg'
    by (vm_compute; reflexivity).
  assert ((0 ≤ 9090 ≤ 65535)%Z) as Hport by lia.
  assert ((70000 < 0 ∨ 65535 < 70000)%Z) as Hport' by (right; lia).
  split; [exact Hload|]. split; [exact Hcfg|].
  destruct (main_listens_whatever_the_first_fetch silent_shell six_keys_file
              (YMap six_keys) six_keys_config 1000 Hload Hcfg)
    as (Hlisten & _ & Hlog & Hup).
  split; [exact (Hlisten Hport)|]. split; [exact Hlog|]. split; [exact Hup|].
  exact (proj1 (proj2 (main_listens_whatever_the_first_fetch silent_shell
                         bad_port_file _ _ 1000 Hload' Hcfg'))
           Hport').
Defined.

(** The six keys alone: both optional keys stay undefined. *)
Lemma absent_optional_keys_stay_undefined_witness :
  loadConfig six_keys_file = inr (YMap six_keys) ∧
  as_ProxyConfig (YMap six_keys) = Some six_keys_config ∧
  ∃ doc m,
    six_keys_file = inr (YMap doc) ∧ doc !! "proxy" = Some (YMap m) ∧
    YMap six_keys = YMap m ∧
    (m !! "tokenCacheDurationMs" = None →
       tokenCacheDurationMs six_keys_config = None ∧
       ∀ now w now',
         cache_miss now w →
         execLog
           (getToken token_shell six_keys_config now'
              (getToken token_shell six_keys_config now w).2).2 =
           (execLog (getToken token_shell six_keys_config now w).2 ++
            [token_command (cloudflaredAppUrl six_keys_config)])%list) ∧
    (m !! "cookieName" = None →
       cookieName six_keys_config = None ∧
       ∀ token inbound,
         lowercase_names inbound →
         sentHeaders (outboundHeaders six_keys_config token inbound)
           !! "cookie" = Some ("Cookie", HStr ("undefined=" ++ token))).
Proof.
  assert (loadConfig six_keys_file = inr (YMap six_keys)) as Hload
    by (vm_compute; reflexivity).
  assert (as_ProxyConfig (YMap six_keys) = Some six_keys_config) as Hcfg
    by (vm_compute; reflexivity).
  split; [exact Hload|]. split; [exact Hcfg|].
  exact (absent_optional_keys_stay_undefined token_shell six_keys_file
           (YMap six_keys) six_keys_config Hload Hcfg).
Defined.

(** A request with credentials of the client's own, through the earlier
    listener: they reach the upstream. *)
Lemma legacy_headers_pass_client_credentials_witness :
  lowercase_names
    (<["authorization" := HStr "Basic Y2xpZW50"]> (reqHeaders get_select_1)) ∧
  sentHeaders
    (Legacy.outboundHeaders "db.example.com" (Some "CF_Authorization") "tok"
       (<["authorization" := HStr "Basic Y2xpZW50"]> (reqHeaders get_select_1)))
    !! "host" = Some ("Host", HStr "db.example.com") ∧
  sentHeaders
    (Legacy.outboundHeaders "db.example.com" (Some "CF_Authorization") "tok"
       (<["authorization" := HStr "Basic Y2xpZW50"]> (reqHeaders get_select_1)))
    !! "cookie" = Some ("Cookie", HStr "CF_Authorization=tok") ∧
  sentHeaders
    (Legacy.outboundHeaders "db.example.com" (Some "CF_Authorization") "tok"
       (<["authorization" := HStr "Basic Y2xpZW50"]> (reqHeaders get_select_1)))
    !! "authorization" = Some ("authorization", HStr "Basic Y2xpZW50").
Proof.
  assert (lowercase_names
            (<["authorization" := HStr "Basic Y2xpZW50"]>
               (reqHeaders get_select_1))) as Hlow.
  { apply lowercase_names_insert; [reflexivity|].
    exact lowercase_get_select_1. }
  split; [exact Hlow|].
  destruct (proj2 (proj2 (legacy_headers_pass_client_credentials
                            "db.example.com" (Some "CF_Authorization") "tok"
                            (<["authorization" := HStr "Basic Y2xpZW50"]>
                               (reqHeaders get_select_1)))) Hlow)
    as (Hhost & Hcookie & Hauth & _).
  split; [exact Hhost|]. split; [exact Hcookie|exact Hauth].
Defined.

(** The earlier loader takes a document with an empty [proxy] mapping. *)
Lemma legacy_loadConfig_accepts_iff_witness :
  Legacy.loadConfig (inr (YMap (<["proxy" := YMap ∅]> ∅))) =
    inr (YMap (<["proxy" := YMap ∅]> ∅)).
Proof.
  apply (proj1 (legacy_loadConfig_accepts_iff
                  (inr (YMap (<["proxy" := YMap ∅]> ∅)))) _).
  exists (<["proxy" := YMap ∅]> ∅). repeat split; reflexivity.
Defined.

(** Two tunnels with different names, both spawned. *)
Lemma startAllTunnels_registers_in_order_witness :
  NoDup (Legacy.name <$> [tunnel_a; tunnel_c]) ∧
  (∀ config, config ∈ [tunnel_a; tunnel_c] →
     Legacy.name config ∉ (Legacy.activeProcesses Legacy.no_tunnels).*1) ∧
  Legacy.startAllTunnels spawn_ok (Some [tunnel_a; tunnel_c]) Legacy.no_tunnels =
    (inr (),
     {| Legacy.activeProcesses := [ ("db-tunnel", 100%nat); ("cache-tunnel", 101%nat) ];
        Legacy.spawnLog := [tunnel_a; tunnel_c];
        Legacy.signalLog := [] |}).
Proof.
  assert (NoDup (Legacy.name <$> [tunnel_a; tunnel_c])) as Hnd.
  { simpl. constructor.
    - intros Hin. apply list_elem_of_singleton in Hin. discriminate Hin.
    - constructor; [apply not_elem_of_nil|constructor]. }
  assert (∀ config, config ∈ [tunnel_a; tunnel_c] →
            Legacy.name config ∉ (Legacy.activeProcesses Legacy.no_tunnels).*1)
    as Hfresh.
  { intros config _. apply not_elem_of_nil. }
  split; [exact Hnd|]. split; [exact Hfresh|].
  exact (startAllTunnels_registers_in_order spawn_ok [tunnel_a; tunnel_c]
           Legacy.no_tunnels Hnd Hfresh).
Defined.

(** Two tunnels named [db-tunnel]: pid 100 is never signalled. *)
Lemma same_name_loses_a_process_witness :
  Legacy.name tunnel_a = Legacy.name tunnel_b ∧
  Legacy.activeProcesses
    (Legacy.startAllTunnels spawn_ok (Some [tunnel_a; tunnel_b])
       Legacy.no_tunnels).2 = [ ("db-tunnel", 101%nat) ] ∧
  Legacy.signalLog
    (Legacy.stopAllTunnels
       (Legacy.startAllTunnels spawn_ok (Some [tunnel_a; tunnel_b])
          Legacy.no_tunnels).2) = [ (101%nat, "SIGTERM") ] ∧
  Legacy.signalLog
    (Legacy.stopAllTunnels
       (Legacy.onExit tunnel_a
          (Legacy.startAllTunnels spawn_ok (Some [tunnel_a; tunnel_b])
             Legacy.no_tunnels).2)) = [].
Proof.
  split; [reflexivity|].
  exact (same_name_loses_a_process spawn_ok tunnel_a tunnel_b 100 101
           eq_refl eq_refl eq_refl).
Defined.
